(** * Matrix rain: the falling-character field, the effect layer and the
    interaction dispatcher.

    A shallow embedding of [core/matrixRainCore.ts], [core/effectRenderer.ts],
    [core/interactionHandler.ts], [utils/index.ts] and [config/index.ts].

    Numbers.  A JavaScript [number] is a real number here, and its arithmetic
    is that of the reals.  Infinities and NaN are outside the model: a
    statement that depends on a quotient asks for a divisor that is not zero.
    The rounding of the IEEE doubles is modelled, by [double], where
    [initDrops] reads the number of columns and the number of drops off a
    quotient and a product, since there the last bit decides an integer
    ([100 * (29 / 100)] is below 29 in doubles).  Elsewhere rounding is left
    out: a statement that fixes an integer taken from such a number (an alpha
    byte, a number of ticks) is made where the last bit cannot decide it, or
    leaves room for it.  Quantities that the program only ever uses as
    integers (counters, array indices, column numbers) are integers here.
    [undefined] is [None].

    Randomness.  [Math.random()] is a stream [random : nat -> R]: [random k]
    is the value returned by the k-th call.  Code that calls it runs in a
    state monad over the position in that stream.

    Canvas.  The 2D context is a write-only device: a run of drawing code
    yields the list of property writes and method calls it performed. *)

From Stdlib Require Import String Reals Lra Lia ZArith List Bool Arith.
Import ListNotations.

Set Implicit Arguments.
Open Scope string_scope.
Open Scope list_scope.
Open Scope R_scope.

(** ** Numbers *)

Definition Math_floor (x : R) : Z := Zfloor x.
Definition Math_ceil (x : R) : Z := (- Zfloor (- x))%Z.
Definition Math_PI : R := PI.
Definition Math_sin : R -> R := sin.
Definition Math_cos : R -> R := cos.

(** [a <= b], [a < b] and [a > b] as the branch conditions of the program. *)
Definition num_le (a b : R) : bool := if Rle_dec a b then true else false.
Definition num_lt (a b : R) : bool := if Rlt_dec a b then true else false.
Definition num_gt (a b : R) : bool := num_lt b a.

(** [2^e] *)
Definition pow2 (e : Z) : R := powerRZ 2 e.

(** The binary order of magnitude of [x <> 0]: the [m] with
    [2^(m-1) <= |x| < 2^m]. *)
Definition magnitude (x : R) : Z := (Zfloor (ln (Rabs x) / ln 2) + 1)%Z.

(** The integer nearest to [y], the even one of the two when [y] is half
    way between them. *)
Definition nearestEven (y : R) : Z :=
  let f := Zfloor y in
  if Rlt_dec (y - IZR f) (/ 2) then f
  else if Rlt_dec (/ 2) (y - IZR f) then (f + 1)%Z
  else if Z.even f then f else (f + 1)%Z.

(** The double nearest to [x]: 53 significant bits, no bit below [2^-1074],
    ties to the even significand (binary64, round to nearest even).  A
    result that would exceed the largest double is outside the model. *)
Definition double (x : R) : R :=
  let e := Z.max (magnitude x - 53) (-1074) in
  IZR (nearestEven (x * pow2 (- e))) * pow2 e.

(** A string value that may be [undefined]. *)
Definition Glyph : Type := option string.

(** ** config/index.ts *)

Inductive ThemeKey := green | blue | purple | red | orange | white.
Inductive CharsetKey := en | cn | bin | mix.

Record Theme := { primary : string; secondary : string; tertiary : string;
                  background : string }.

Definition THEMES (k : ThemeKey) : Theme :=
  match k with
  | green  => {| primary := "#00ff00"; secondary := "#00cc00";
                 tertiary := "#008800"; background := "#000000" |}
  | blue   => {| primary := "#00ffff"; secondary := "#0088ff";
                 tertiary := "#0044ff"; background := "#000022" |}
  | purple => {| primary := "#ff00ff"; secondary := "#8800ff";
                 tertiary := "#4400ff"; background := "#110022" |}
  | red    => {| primary := "#ff0000"; secondary := "#cc0000";
                 tertiary := "#880000"; background := "#220000" |}
  | orange => {| primary := "#ffaa00"; secondary := "#cc8800";
                 tertiary := "#885500"; background := "#221100" |}
  | white  => {| primary := "#ffffff"; secondary := "#cccccc";
                 tertiary := "#888888"; background := "#000000" |}
  end.

(** A charset is a string indexed by position; it is kept as the list of its
    characters (every character of the four charsets is one UTF-16 unit). *)
Definition CHARSET_en : list string :=
  ["A"; "B"; "C"; "D"; "E"; "F"; "G"; "H"; "I"; "J"; "K"; "L"; "M"; "N"; "O"; "P"; "Q"; "R";
   "S"; "T"; "U"; "V"; "W"; "X"; "Y"; "Z"; "0"; "1"; "2"; "3"; "4"; "5"; "6"; "7"; "8"; "9";
   "!"; "@"; "#"; "$"; "%"; "^"; "&"; "*"; "("; ")"; "_"; "+"; "-"; "="; "["; "]"; "{"; "}";
   "|"; ";"; ":"; ","; "."; "<"; ">"; "?"; "/"; "~"; "`"].

Definition CHARSET_cn : list string :=
  ["ア"; "イ"; "ウ"; "エ"; "オ"; "カ"; "キ"; "ク"; "ケ"; "コ"; "サ"; "シ"; "ス";
   "セ"; "ソ"; "タ"; "チ"; "ツ"; "テ"; "ト"; "ナ"; "ニ"; "ヌ"; "ネ"; "ノ"; "ハ";
   "ヒ"; "フ"; "ヘ"; "ホ"; "マ"; "ミ"; "ム"; "メ"; "モ"; "ヤ"; "ユ"; "ヨ"; "ラ";
   "リ"; "ル"; "レ"; "ロ"; "ワ"; "ヲ"; "ン"; "漢"; "字"; "天"; "地"; "方"; "圓";
   "虛"; "空"; "無"; "限"; "未"; "來"; "科"; "技"; "數"; "碼"; "量"; "子"].

Definition CHARSET_bin : list string :=
  ["0"; "1"].

Definition CHARSET_mix : list string :=
  ["0"; "1"; "ア"; "イ"; "ウ"; "エ"; "オ"; "カ"; "キ"; "ク"; "ケ"; "コ"; "サ";
   "シ"; "ス"; "セ"; "ソ"; "タ"; "チ"; "ツ"; "テ"; "ト"; "ナ"; "ニ"; "ヌ"; "ネ";
   "ノ"; "ハ"; "ヒ"; "フ"; "ヘ"; "ホ"; "マ"; "ミ"; "ム"; "メ"; "モ"; "ヤ"; "ユ";
   "ヨ"; "ラ"; "リ"; "ル"; "レ"; "ロ"; "ワ"; "ヲ"; "ン"; "漢"; "字"; "レ"; "仮";
   "想"; "現"; "実"; "サ"; "イ"; "バ"; "ー"; "コ"; "ー"; "ド"; "@"; "#"; "$"; "%";
   "^"; "&"; "*"; "("; ")"; "["; "]"; "{"; "}"].

Definition CHARSETS (k : CharsetKey) : list string :=
  match k with
  | en => CHARSET_en
  | cn => CHARSET_cn
  | bin => CHARSET_bin
  | mix => CHARSET_mix
  end.

(** ** The canvas *)

(** A colour string: either a plain [#rrggbb], or [#rrggbb] followed by the
    byte [b] written as two hexadecimal digits. *)
Inductive Style :=
| Solid (hex : string)
| Blend (hex : string) (b : Z).

(** [`${hex}${Math.floor(a * 255).toString(16).padStart(2, '0')}`] *)
Definition withAlpha (hex : string) (a : R) : Style :=
  Blend hex (Math_floor (a * 255)).

(** The x coordinate of [fillText] is [None] when the program computed it
    from an [undefined] column index (NaN). *)
Inductive CanvasOp :=
| setFillStyle (s : Style)
| setStrokeStyle (s : Style)
| setLineWidth (w : R)
| setFont (px : R)
| setTextAlign (a : string)
| setTextBaseline (b : string)
| fillText (g : Glyph) (x : option R) (y : R)
| beginPath
| arc (x y r a0 a1 : R)
| stroke.


(** ** The random stream *)

Definition Rand (A : Type) : Type := nat -> A * nat.

Definition ret {A} (a : A) : Rand A := fun k => (a, k).

Definition bind {A B} (m : Rand A) (f : A -> Rand B) : Rand B :=
  fun k => let (a, k') := m k in f a k'.

Notation "x <- m ;; f" := (bind m (fun x => f))
  (at level 61, m at next level, right associativity).

Fixpoint mapM {A B} (f : A -> Rand B) (l : list A) : Rand (list B) :=
  match l with
  | [] => ret []
  | a :: l' => b <- f a ;; bs <- mapM f l' ;; ret (b :: bs)
  end.

(** ** utils/index.ts *)

(** [s[k]] for an integer [k]. *)
Definition charAt (s : list string) (k : Z) : Glyph :=
  if (k <? 0)%Z then None else nth_error s (Z.to_nat k).

Definition getColorByIntensity (intensity : R) (themeKey : ThemeKey) : Style :=
  let theme := THEMES themeKey in
  if num_gt intensity 0.8 then Solid (primary theme)
  else if num_gt intensity 0.5 then withAlpha (secondary theme) (0.8 + intensity * 0.2)
  else if num_gt intensity 0.2 then withAlpha (secondary theme) (0.5 + intensity * 0.3)
  else withAlpha (tertiary theme) (intensity * 0.5).

(** ** types/index.ts *)

Module Drop.
Record t := mk {
    y : R;
    speed : R;
    trail : list Glyph;
    trailLength : nat;
    updateCounter : Z;
    updateInterval : Z;
    currentChar : Glyph;
    xIndex : option Z
}.
End Drop.

Inductive EffectType := ripple | explosion | text | follow.

Module Particle.
Record t := mk {
    x : R;
    y : R;
    vx : R;
    vy : R;
    life : R;
    maxLife : R;
    char : Glyph
}.
End Particle.

(** [InteractionEffect]; the optional fields are [None] when absent.
    [followerCount] is kept as an integer. *)
Module Effect.
Record t := mk {
    x : R;
    y : R;
    type : EffectType;
    life : R;
    maxLife : R;
    radius : R;
    text : Glyph;
    particles : option (list Particle.t);
    followerCount : option Z
}.
End Effect.

(** The state of a [MatrixRainCore] object. *)
Module Core.
Record t := mk {
    drops : list Drop.t;
    fontSize : R;
    density : R;
    speed : R;
    currentCharset : CharsetKey;
    currentTheme : ThemeKey
}.
End Core.

(** The partial configuration object: an absent field is [None]. *)
Module Config.
Record t := mk {
    fontSize : option R;
    density : option R;
    speed : option R;
    currentCharset : option CharsetKey;
    currentTheme : option ThemeKey
}.
End Config.

(** The state of an [EffectRenderer] object. *)
Module Renderer.
Record t := mk {
    effects : list Effect.t;
    currentTheme : ThemeKey
}.
End Renderer.

(** The state of an [InteractionHandler] object. *)
Module Handler.
Record t := mk {
    mousePosition : R * R
}.
End Handler.

Section Model.

(** [random k]: the value of the k-th call of [Math.random()]. *)
Variable random : nat -> R.

(** [isMobileDevice()]: whether the user agent matches the mobile pattern. *)
Variable isMobileDevice : bool.

Definition Math_random : Rand R := fun k => (random k, S k).

Definition getRandomChar (charsetKey : CharsetKey) : Rand Glyph :=
  let charset := CHARSETS charsetKey in
  r <- Math_random ;;
  ret (charAt charset (Math_floor (r * INR (List.length charset)))).


(** ** core/matrixRainCore.ts *)

(** The fields of a freshly constructed [MatrixRainCore]. *)
Definition MatrixRainCore : Core.t :=
  Core.mk [] 24 100 100 mix green.

(** [l.splice(start, 1)]: the removed elements' first one ([undefined] when
    nothing was removed) and the array that is left. *)
Definition splice1 {A} (l : list A) (start : Z) : option A * list A :=
  let len := Z.of_nat (List.length l) in
  let k := Z.to_nat (if (start <? 0)%Z then Z.max (len + start) 0 else Z.min start len) in
  (nth_error l k, firstn k l ++ skipn (S k) l).

(** The selection loop of [initDrops], [n] iterations to go. *)
Fixpoint selectIndices (n : nat) (allIndices : list Z) : Rand (list (option Z)) :=
  match n with
  | O => ret []
  | S n' =>
      r <- Math_random ;;
      let randomIndex := Math_floor (r * INR (List.length allIndices)) in
      let (picked, rest) := splice1 allIndices randomIndex in
      selected <- selectIndices n' rest ;;
      ret (picked :: selected)
  end.

(** The object literal mapped over [selectedIndices]. *)
Definition newDrop (c : Core.t) (canvasWidth : R) (index : option Z) : Rand Drop.t :=
  let currentSpeedRatio := Core.speed c / 100 in
  r1 <- Math_random ;;
  r2 <- Math_random ;;
  r3 <- Math_random ;;
  g <- getRandomChar (Core.currentCharset c) ;;
  ret (Drop.mk (r1 * canvasWidth) ((r2 * 2 + 1.5) * currentSpeedRatio) [] 8 0
               (Math_floor (r3 * 4) + 3) g index).

(** [n] pushes of a random character at the end of [trail]. *)
Fixpoint pushRandomChars (charsetKey : CharsetKey) (n : nat) (trail : list Glyph)
  : Rand (list Glyph) :=
  match n with
  | O => ret trail
  | S n' =>
      g <- getRandomChar charsetKey ;;
      pushRandomChars charsetKey n' (trail ++ [g])
  end.

Definition prefillTrail (c : Core.t) (d : Drop.t) : Rand Drop.t :=
  tr <- pushRandomChars (Core.currentCharset c) (Drop.trailLength d) (Drop.trail d) ;;
  ret (Drop.mk (Drop.y d) (Drop.speed d) tr (Drop.trailLength d) (Drop.updateCounter d)
               (Drop.updateInterval d) (Drop.currentChar d) (Drop.xIndex d)).

Definition setDrops (c : Core.t) (ds : list Drop.t) : Core.t :=
  Core.mk ds (Core.fontSize c) (Core.density c) (Core.speed c)
          (Core.currentCharset c) (Core.currentTheme c).

(** [Math.ceil(canvasWidth / this.fontSize)] *)
Definition columnsOf (c : Core.t) (canvasWidth : R) : Z :=
  Math_ceil (double (canvasWidth / Core.fontSize c)).

(** [Math.max(1, Math.floor(columns * (this.density / 100)))] *)
Definition actualColumnsOf (c : Core.t) (canvasWidth : R) : Z :=
  Z.max 1 (Math_floor (double (IZR (columnsOf c canvasWidth)
                               * double (Core.density c / 100)))).

Definition initDrops (c : Core.t) (canvasWidth : R) : Rand Core.t :=
  let columns := columnsOf c canvasWidth in
  let actualColumns := actualColumnsOf c canvasWidth in
  let allIndices := map Z.of_nat (seq 0 (Z.to_nat columns)) in
  selectedIndices <- selectIndices (Z.to_nat actualColumns) allIndices ;;
  ds <- mapM (newDrop c canvasWidth) selectedIndices ;;
  ds' <- mapM (prefillTrail c) ds ;;
  ret (setDrops c ds').

(** The trail loop of [drawDrops], entries [j], [j+1], ... of the trail. *)
Fixpoint drawTrail (c : Core.t) (d : Drop.t) (x : option R) (j : nat) (tr : list Glyph)
  : list CanvasOp :=
  match tr with
  | [] => []
  | g :: tr' =>
      let trailY := Drop.y d - (INR j + 1) * Core.fontSize c in
      (if num_lt (trailY + Core.fontSize c) 0 then []
       else
         let intensity := 1 - INR j / INR (Drop.trailLength d) in
         [setFillStyle (getColorByIntensity intensity (Core.currentTheme c));
          fillText g x trailY])
      ++ drawTrail c d x (S j) tr'
  end.

Definition drawDrop (c : Core.t) (d : Drop.t) : list CanvasOp :=
  let x := option_map (fun i => IZR i * Core.fontSize c) (Drop.xIndex d) in
  drawTrail c d x 0 (Drop.trail d)
  ++ [setFillStyle (getColorByIntensity 1 (Core.currentTheme c));
      fillText (Drop.currentChar d) x (Drop.y d)].

(** [trail.unshift(g); if (trail.length > trailLength) trail.pop()] *)
Definition unshiftPop (g : Glyph) (trailLength : nat) (trail : list Glyph) : list Glyph :=
  let tr := g :: trail in
  if (trailLength <? List.length tr)%nat then removelast tr else tr.

(** The character update of an animating tick. *)
Definition refreshChar (c : Core.t) (d : Drop.t) : Rand Drop.t :=
  let counter := (Drop.updateCounter d + 1)%Z in
  if (Drop.updateInterval d <=? counter)%Z then
    g <- getRandomChar (Core.currentCharset c) ;;
    ret (Drop.mk (Drop.y d) (Drop.speed d)
                 (unshiftPop (Drop.currentChar d) (Drop.trailLength d) (Drop.trail d))
                 (Drop.trailLength d) 0 (Drop.updateInterval d) g (Drop.xIndex d))
  else
    ret (Drop.mk (Drop.y d) (Drop.speed d) (Drop.trail d) (Drop.trailLength d) counter
                 (Drop.updateInterval d) (Drop.currentChar d) (Drop.xIndex d)).

(** The move and the reset of an animating tick. *)
Definition moveDrop (c : Core.t) (canvasHeight : R) (d : Drop.t) : Rand Drop.t :=
  let y' := Drop.y d + Drop.speed d in
  if num_gt y' canvasHeight then
    r1 <- Math_random ;;
    r2 <- Math_random ;;
    g <- getRandomChar (Core.currentCharset c) ;;
    ret (Drop.mk (- INR (Drop.trailLength d) * Core.fontSize c)
                 ((r1 * 2 + 1.5) * (Core.speed c / 100)) [] (Drop.trailLength d) 0
                 (Math_floor (r2 * 4) + 3) g (Drop.xIndex d))
  else
    ret (Drop.mk y' (Drop.speed d) (Drop.trail d) (Drop.trailLength d)
                 (Drop.updateCounter d) (Drop.updateInterval d) (Drop.currentChar d)
                 (Drop.xIndex d)).

(** One iteration of the loop of [drawDrops]: the drop as it is left and the
    canvas operations performed. *)
Definition drawOneDrop (c : Core.t) (canvasHeight : R) (isAnimating : bool) (d : Drop.t)
  : Rand (Drop.t * list CanvasOp) :=
  let ops := drawDrop c d in
  if isAnimating then
    d1 <- refreshChar c d ;;
    d2 <- moveDrop c canvasHeight d1 ;;
    ret (d2, ops)
  else ret (d, ops).

Definition drawDrops (c : Core.t) (canvasHeight : R) (isAnimating : bool)
  : Rand (Core.t * list CanvasOp) :=
  rs <- mapM (drawOneDrop c canvasHeight isAnimating) (Core.drops c) ;;
  ret (setDrops c (map fst rs), concat (map snd rs)).


Definition respeedDrop (speed : R) (d : Drop.t) : Rand Drop.t :=
  r <- Math_random ;;
  ret (Drop.mk (Drop.y d) ((r * 2 + 1.5) * (speed / 100)) (Drop.trail d)
               (Drop.trailLength d) (Drop.updateCounter d) (Drop.updateInterval d)
               (Drop.currentChar d) (Drop.xIndex d)).

(** [Array(n).fill(0).map(() => getRandomChar(charsetKey))] *)
Definition randomChars (charsetKey : CharsetKey) (n : nat) : Rand (list Glyph) :=
  mapM (fun _ : nat => getRandomChar charsetKey) (repeat O n).

Definition recharDrop (charsetKey : CharsetKey) (d : Drop.t) : Rand Drop.t :=
  g <- getRandomChar charsetKey ;;
  tr <- randomChars charsetKey (Drop.trailLength d) ;;
  ret (Drop.mk (Drop.y d) (Drop.speed d) tr (Drop.trailLength d) (Drop.updateInterval d)
               (Drop.updateInterval d) g (Drop.xIndex d)).

(** The five [if (config.f !== undefined)] statements of [updateConfig]. *)
Definition applyFontSize (config : Config.t) (c : Core.t) : Core.t :=
  match Config.fontSize config with
  | Some v => Core.mk (Core.drops c) v (Core.density c) (Core.speed c)
                      (Core.currentCharset c) (Core.currentTheme c)
  | None => c
  end.

Definition applyDensity (config : Config.t) (c : Core.t) : Core.t :=
  match Config.density config with
  | Some v => Core.mk (Core.drops c) (Core.fontSize c) v (Core.speed c)
                      (Core.currentCharset c) (Core.currentTheme c)
  | None => c
  end.

Definition applySpeed (config : Config.t) (c : Core.t) : Rand Core.t :=
  match Config.speed config with
  | Some v =>
      ds <- mapM (respeedDrop v) (Core.drops c) ;;
      ret (Core.mk ds (Core.fontSize c) (Core.density c) v
                   (Core.currentCharset c) (Core.currentTheme c))
  | None => ret c
  end.

Definition applyCharset (config : Config.t) (c : Core.t) : Rand Core.t :=
  match Config.currentCharset config with
  | Some v =>
      ds <- mapM (recharDrop v) (Core.drops c) ;;
      ret (Core.mk ds (Core.fontSize c) (Core.density c) (Core.speed c)
                   v (Core.currentTheme c))
  | None => ret c
  end.

Definition applyTheme (config : Config.t) (c : Core.t) : Core.t :=
  match Config.currentTheme config with
  | Some v => Core.mk (Core.drops c) (Core.fontSize c) (Core.density c)
                      (Core.speed c) (Core.currentCharset c) v
  | None => c
  end.

Definition updateConfig (c : Core.t) (config : Config.t) : Rand Core.t :=
  c3 <- applySpeed config (applyDensity config (applyFontSize config c)) ;;
  c4 <- applyCharset config c3 ;;
  ret (applyTheme config c4).

Definition getDrops (c : Core.t) : list Drop.t := Core.drops c.

(** ** core/effectRenderer.ts *)

Definition EffectRenderer : Renderer.t := Renderer.mk [] green.

Definition addEffect (r : Renderer.t) (effect : Effect.t) : Renderer.t :=
  Renderer.mk (Renderer.effects r ++ [effect]) (Renderer.currentTheme r).

Definition updateTheme (r : Renderer.t) (theme : ThemeKey) : Renderer.t :=
  Renderer.mk (Renderer.effects r) theme.

Definition clearEffects (r : Renderer.t) : Renderer.t :=
  Renderer.mk [] (Renderer.currentTheme r).

Definition setLife (e : Effect.t) (l : R) : Effect.t :=
  Effect.mk (Effect.x e) (Effect.y e) (Effect.type e) l (Effect.maxLife e)
            (Effect.radius e) (Effect.text e) (Effect.particles e) (Effect.followerCount e).

Definition setRadius (e : Effect.t) (r : R) : Effect.t :=
  Effect.mk (Effect.x e) (Effect.y e) (Effect.type e) (Effect.life e) (Effect.maxLife e)
            r (Effect.text e) (Effect.particles e) (Effect.followerCount e).

Definition setParticles (e : Effect.t) (ps : option (list Particle.t)) : Effect.t :=
  Effect.mk (Effect.x e) (Effect.y e) (Effect.type e) (Effect.life e) (Effect.maxLife e)
            (Effect.radius e) (Effect.text e) ps (Effect.followerCount e).

(** [!effect.text] *)
Definition noText (t : Glyph) : bool :=
  match t with
  | None => true
  | Some s => String.eqb s ""
  end.

(** The body of the particle loop: the particle as it is left and what was
    drawn for it. *)
Definition renderParticle (themePrimary : string) (isAnimating : bool) (p : Particle.t)
  : Particle.t * list CanvasOp :=
  let p1 :=
    if isAnimating then
      Particle.mk (Particle.x p + Particle.vx p) (Particle.y p + Particle.vy p)
                  (Particle.vx p) (Particle.vy p + 0.2) (Particle.life p - 0.03)
                  (Particle.maxLife p) (Particle.char p)
    else p in
  let particleAlpha := Particle.life p1 / Particle.maxLife p1 in
  (p1,
   if num_gt particleAlpha 0 then
     [setFillStyle (withAlpha themePrimary particleAlpha);
      fillText (Particle.char p1) (Some (Particle.x p1)) (Particle.y p1)]
   else []).

(** The follower loop, for the values [js] of [j] that are left. *)
Fixpoint drawFollowers (themePrimary : string) (charset : CharsetKey) (e : Effect.t)
    (alpha : R) (followerCount : Z) (js : list nat) : Rand (list CanvasOp) :=
  match js with
  | [] => ret []
  | j :: js' =>
      let followerAlpha := alpha * (1 - INR j / IZR followerCount) in
      if num_le followerAlpha 0 then
        drawFollowers themePrimary charset e alpha followerCount js'
      else
        let followerX := Effect.x e + Math_sin (INR j) * 10 in
        let followerY := Effect.y e + INR j * 15 in
        g <- getRandomChar charset ;;
        rest <- drawFollowers themePrimary charset e alpha followerCount js' ;;
        ret (setFillStyle (withAlpha themePrimary followerAlpha)
             :: fillText g (Some followerX) followerY :: rest)
  end.

(** [effect.followerCount || 10] *)
Definition followerCountOr10 (e : Effect.t) : Z :=
  match Effect.followerCount e with
  | Some n => if (n =? 0)%Z then 10%Z else n
  | None => 10%Z
  end.

(** The body of the loop of [renderEffects] for one effect: [None] when the
    effect was spliced out of the array, the effect as it is left otherwise,
    and the canvas operations performed. *)
Definition renderEffect (themePrimary : string) (fontSize : R) (charset : CharsetKey)
    (isAnimating : bool) (effect : Effect.t) : Rand (option Effect.t * list CanvasOp) :=
  let alpha := Effect.life effect / Effect.maxLife effect in
  match Effect.type effect with
  | ripple =>
      let e1 := if isAnimating
                then setRadius (setLife effect (Effect.life effect - 0.02))
                               (Effect.radius effect + 3)
                else effect in
      if isAnimating && num_le alpha 0 then ret (None, [])
      else
        ret (Some e1,
             [setStrokeStyle (withAlpha themePrimary alpha);
              setLineWidth 2;
              beginPath;
              arc (Effect.x e1) (Effect.y e1) (Effect.radius e1) 0 (Math_PI * 2);
              stroke])
  | explosion =>
      let e1 := if isAnimating then setLife effect (Effect.life effect - 0.03)
                else effect in
      if isAnimating && num_le alpha 0 then ret (None, [])
      else
        match Effect.particles e1 with
        | Some ps =>
            let rs := map (renderParticle themePrimary isAnimating) ps in
            ret (Some (setParticles e1 (Some (map fst rs))), concat (map snd rs))
        | None => ret (Some e1, [])
        end
  | text =>
      let e1 := if isAnimating then setLife effect (Effect.life effect - 0.015)
                else effect in
      if isAnimating && (num_le alpha 0 || noText (Effect.text e1)) then ret (None, [])
      else
        ret (Some e1,
             [setFont (fontSize + 10);
              setTextAlign "center";
              setTextBaseline "middle";
              setFillStyle (withAlpha themePrimary alpha);
              fillText (Effect.text e1) (Some (Effect.x e1)) (Effect.y e1);
              setTextAlign "left";
              setTextBaseline "top"])
  | follow =>
      let e1 := if isAnimating then setLife effect (Effect.life effect - 0.01)
                else effect in
      if isAnimating && num_le alpha 0 then ret (None, [])
      else
        let followerCount := followerCountOr10 e1 in
        ops <- drawFollowers themePrimary charset e1 alpha followerCount
                             (seq 0 (Z.to_nat followerCount)) ;;
        ret (Some e1, ops)
  end.

Definition replaceAt {A} (i : nat) (a : A) (l : list A) : list A :=
  firstn i l ++ a :: skipn (S i) l.

(** [l.splice(i, 1)] for an index [i] of [l], the array that is left. *)
Definition removeAt {A} (i : nat) (l : list A) : list A :=
  firstn i l ++ skipn (S i) l.

(** The loop of [renderEffects] with the iterations [i-1], [i-2], ..., [0] to
    go.  (An index past the end cannot be met: the loop starts at the last
    index and a splice at [i] leaves the indices below [i] alone.) *)
Fixpoint effectsLoop (themePrimary : string) (fontSize : R) (charset : CharsetKey)
    (isAnimating : bool) (i : nat) (effects : list Effect.t)
  : Rand (list Effect.t * list CanvasOp) :=
  match i with
  | O => ret (effects, [])
  | S i' =>
      match nth_error effects i' with
      | None => effectsLoop themePrimary fontSize charset isAnimating i' effects
      | Some effect =>
          r <- renderEffect themePrimary fontSize charset isAnimating effect ;;
          let effects' := match fst r with
                          | Some e1 => replaceAt i' e1 effects
                          | None => removeAt i' effects
                          end in
          rest <- effectsLoop themePrimary fontSize charset isAnimating i' effects' ;;
          ret (fst rest, snd r ++ snd rest)
      end
  end.

Definition renderEffects (r : Renderer.t) (fontSize : R) (charset : CharsetKey)
    (isAnimating : bool) : Rand (Renderer.t * list CanvasOp) :=
  let theme := THEMES (Renderer.currentTheme r) in
  let themePrimary := primary theme in
  res <- effectsLoop themePrimary fontSize charset isAnimating
                     (List.length (Renderer.effects r)) (Renderer.effects r) ;;
  ret (Renderer.mk (fst res) (Renderer.currentTheme r), snd res).

(** ** core/interactionHandler.ts

    A method returns the handler as it is left and the effects it passed to
    the [onEffectAdd] callback, in order. *)

Definition InteractionHandler : Handler.t := Handler.mk (0, 0).

(** The particle loop of [handleClick], for the values [idxs] of [i] left. *)
Fixpoint makeParticles (x y : R) (charset : CharsetKey) (particleCount : nat)
    (idxs : list nat) : Rand (list Particle.t) :=
  match idxs with
  | [] => ret []
  | i :: idxs' =>
      let angle := (Math_PI * 2 * INR i) / INR particleCount in
      r <- Math_random ;;
      let speed := r * 5 + 2 in
      g <- getRandomChar charset ;;
      rest <- makeParticles x y charset particleCount idxs' ;;
      ret (Particle.mk x y (Math_cos angle * speed) (Math_sin angle * speed) 1 1 g :: rest)
  end.

Definition particleCountOf : nat := if isMobileDevice then 10%nat else 20%nat.

Definition handleClick (h : Handler.t) (x y : R) (charset : CharsetKey)
  : Rand (Handler.t * list Effect.t) :=
  let particleCount := particleCountOf in
  ps <- makeParticles x y charset particleCount (seq 0 particleCount) ;;
  ret (h, [Effect.mk x y explosion 1 1 10 None (Some ps) None]).

Definition handleMove (h : Handler.t) (x y : R) : Handler.t * list Effect.t :=
  (Handler.mk (x, y), [Effect.mk x y ripple 1 1 5 None None None]).

Definition createTextEffect (h : Handler.t) (x y : R) (txt : string)
  : Handler.t * list Effect.t :=
  (h, [Effect.mk x y text 1 1 0 (Some txt) None None]).

Definition createFollowEffect (h : Handler.t) : Handler.t * list Effect.t :=
  (h, [Effect.mk (fst (Handler.mousePosition h)) (snd (Handler.mousePosition h))
                 follow 1 1 0 None None (Some 15%Z)]).

Definition getMousePosition (h : Handler.t) : R * R := Handler.mousePosition h.

(** ** Sequences of calls *)

(** A call of a state-changing method of [MatrixRainCore]. *)
Inductive CoreCall :=
| callInitDrops (canvasWidth : R)
| callDrawDrops (canvasHeight : R) (isAnimating : bool)
| callUpdateConfig (config : Config.t).

Definition runCall (c : Core.t) (call : CoreCall) : Rand Core.t :=
  match call with
  | callInitDrops w => initDrops c w
  | callDrawDrops h a => r <- drawDrops c h a ;; ret (fst r)
  | callUpdateConfig config => updateConfig c config
  end.

Fixpoint runCalls (c : Core.t) (calls : list CoreCall) : Rand Core.t :=
  match calls with
  | [] => ret c
  | call :: calls' => c' <- runCall c call ;; runCalls c' calls'
  end.

(** [n] frames of the host's [draw] while paused: [drawDrops] then
    [renderEffects], both with [isAnimating = false]. *)
Fixpoint pausedFrames (n : nat) (c : Core.t) (r : Renderer.t) (canvasHeight fontSize : R)
    (charset : CharsetKey) : Rand (Core.t * Renderer.t) :=
  match n with
  | O => ret (c, r)
  | S n' =>
      a <- drawDrops c canvasHeight false ;;
      b <- renderEffects r fontSize charset false ;;
      pausedFrames n' (fst a) (fst b) canvasHeight fontSize charset
  end.

(** ** Vocabulary of the statements *)

(** What [renderEffects] draws for follower glyph [j] of an effect whose
    effect-level fade is [alpha], with [n] followers, when the glyph is the
    [k]-th value of the random stream. *)
Definition followerOps (tp : string) (cs : CharsetKey) (e : Effect.t) (alpha : R)
    (n : Z) (k : nat) (j : nat) : list CanvasOp :=
  [setFillStyle (withAlpha tp (alpha * (1 - INR j / IZR n)));
   fillText (charAt (CHARSETS cs)
                    (Math_floor (random k * INR (List.length (CHARSETS cs)))))
            (Some (Effect.x e + Math_sin (INR j) * 10))
            (Effect.y e + INR j * 15)].

(** Particle [i] of a burst of [n] particles at [(x, y)], made from the
    [k]-th and the next value of the random stream. *)
Definition particleOf (x y : R) (cs : CharsetKey) (n : nat) (k i : nat) : Particle.t :=
  let angle := (Math_PI * 2 * INR i) / INR n in
  let speed := random k * 5 + 2 in
  Particle.mk x y (Math_cos angle * speed) (Math_sin angle * speed) 1 1
              (charAt (CHARSETS cs)
                      (Math_floor (random (S k) * INR (List.length (CHARSETS cs))))).

End Model.

(** A glyph slot holds a character of the charset. *)
Definition inCharset (key : CharsetKey) (t : Glyph) : Prop :=
  exists g, t = Some g /\ In g (CHARSETS key).

(** The trail of a drop is within its bound, and the bound is 8. *)
Definition trail_ok (d : Drop.t) : Prop :=
  (List.length (Drop.trail d) <= Drop.trailLength d)%nat /\ Drop.trailLength d = 8%nat.

(** What the charset branch of [updateConfig] leaves in a drop. *)
Definition recharged (key : CharsetKey) (d' : Drop.t) : Prop :=
  inCharset key (Drop.currentChar d')
  /\ Forall (inCharset key) (Drop.trail d')
  /\ List.length (Drop.trail d') = Drop.trailLength d'
  /\ Drop.updateCounter d' = Drop.updateInterval d'.

(** A canvas operation with the character of a [fillText] left out. *)
Definition blankGlyph (op : CanvasOp) : CanvasOp :=
  match op with
  | fillText _ x y => fillText None x y
  | _ => op
  end.


(** ** Sample inputs *)

(** The random stream whose every value is 0. *)
Definition random0 : nat -> R := fun _ => 0.

(** The random stream that alternates between 0 and 1/2. *)
Definition randomAlternating : nat -> R := fun k => if Nat.even k then 0 else / 2.

(** The default core with the density set to [d]. *)
Definition coreWithDensity (d : R) : Core.t := Core.mk [] 24 d 100 mix green.

(** A follower effect at the origin with [life = maxLife = 1] and the given
    [followerCount]. *)
Definition followerAtOrigin (count : option Z) : Effect.t :=
  Effect.mk 0 0 follow 1 1 0 None None count.

(** A follower with a tenth of its life left. *)
Definition fadingFollower : Effect.t := Effect.mk 0 0 follow 0.1 1 0 None None (Some 15%Z).

(** A ripple with half a tick's worth of life left. *)
Definition dyingRipple : Effect.t := Effect.mk 100 100 ripple 0.01 1 5 None None None.

(** A drop about to leave a surface of height 50, and a core holding it. *)
Definition leavingDrop : Drop.t := Drop.mk 100 2 [] 8 0 3 (Some "A") (Some 0%Z).

Definition coreWithLeavingDrop : Core.t := Core.mk [leavingDrop] 24 100 100 en green.

(** A drop with a full trail whose character update is due at the next
    animating tick. *)
Definition dueDrop : Drop.t :=
  Drop.mk 10 2 (repeat (Some "B") 8) 8 2 3 (Some "A") (Some 1%Z).

(** [{ currentCharset: 'bin' }] *)
Definition configBin : Config.t := Config.mk None None None (Some bin) None.

(** A session of the core: initialisation, a tick, a change of charset,
    another tick. *)
Definition sampleCalls : list CoreCall :=
  [callInitDrops 1000; callDrawDrops 600 true; callUpdateConfig configBin;
   callDrawDrops 600 true].

(** [{ currentTheme: 'blue' }] and [{ speed: 200 }] *)
Definition configBlue : Config.t := Config.mk None None None None (Some blue).

Definition configFast : Config.t := Config.mk None None (Some 200) None None.

(** A burst with one particle moving to the right. *)
Definition sampleBurst : Effect.t :=
  Effect.mk 100 200 explosion 1 1 10 None
            (Some [Particle.mk 100 200 3 0 1 1 (Some "0")]) None.

(** The effect of [createTextEffect(10, 10, '')]. *)
Definition emptyText : Effect.t := Effect.mk 10 10 text 1 1 0 (Some "") None None.


(** A drop well inside the surface with a full trail, and a core holding it. *)
Definition fullTrailDrop : Drop.t :=
  Drop.mk 300 2 (repeat (Some "B") 8) 8 0 3 (Some "A") (Some 1%Z).

Definition coreWithFullTrail : Core.t := Core.mk [fullTrailDrop] 24 100 100 en green.


(** ** Drivers and vocabulary for the further properties *)

(** A call of a method of [InteractionHandler] that reaches [onEffectAdd]. *)
Inductive HandlerCall :=
| callClick (x y : R) (charset : CharsetKey)
| callMove (x y : R)
| callText (x y : R) (txt : string)
| callFollow.

(** The kind of effect a call hands over. *)
Definition kindOf (call : HandlerCall) : EffectType :=
  match call with
  | callClick _ _ _ => explosion
  | callMove _ _ => ripple
  | callText _ _ _ => text
  | callFollow => follow
  end.

Definition isMove (call : HandlerCall) : bool :=
  match call with
  | callMove _ _ => true
  | _ => false
  end.

Definition isInit (call : CoreCall) : bool :=
  match call with
  | callInitDrops _ => true
  | _ => false
  end.

Section Drivers.

Variable random : nat -> R.
Variable isMobileDevice : bool.

Definition runHandlerCall (h : Handler.t) (call : HandlerCall)
  : Rand (Handler.t * list Effect.t) :=
  match call with
  | callClick x y cs => handleClick random isMobileDevice h x y cs
  | callMove x y => ret (handleMove h x y)
  | callText x y txt => ret (createTextEffect h x y txt)
  | callFollow => ret (createFollowEffect h)
  end.

(** The handler after the calls and the effects handed over, in order. *)
Fixpoint runHandlerCalls (h : Handler.t) (calls : list HandlerCall)
  : Rand (Handler.t * list Effect.t) :=
  match calls with
  | [] => ret (h, [])
  | call :: calls' =>
      a <- runHandlerCall h call ;;
      b <- runHandlerCalls (fst a) calls' ;;
      ret (fst b, snd a ++ snd b)
  end.

(** [n] animating calls of [renderEffects]. *)
Fixpoint animate (n : nat) (r : Renderer.t) (fontSize : R) (charset : CharsetKey)
  : Rand Renderer.t :=
  match n with
  | O => ret r
  | S n' =>
      a <- renderEffects random r fontSize charset true ;;
      animate n' (fst a) fontSize charset
  end.

End Drivers.

(** What a reachable drop satisfies under charset [cs] and speed setting
    [sp]: its glyphs are characters of the charset, its counter is within its
    interval, which is one of 3..6, and its speed is the setting scaled by a
    factor of [[1.5, 3.5)]. *)
Definition dropInv (cs : CharsetKey) (sp : R) (d : Drop.t) : Prop :=
  inCharset cs (Drop.currentChar d)
  /\ Forall (inCharset cs) (Drop.trail d)
  /\ (0 <= Drop.updateCounter d <= Drop.updateInterval d)%Z
  /\ (3 <= Drop.updateInterval d <= 6)%Z
  /\ exists f, 1.5 <= f < 3.5 /\ Drop.speed d = f * (sp / 100).

Definition coreInv (c : Core.t) : Prop :=
  Forall (dropInv (Core.currentCharset c) (Core.speed c)) (Core.drops c).

(** The step by which an animating tick lowers the life of an effect. *)
Definition decrementOf (t : EffectType) : R :=
  match t with
  | ripple => 0.02
  | explosion => 0.03
  | text => 0.015
  | follow => 0.01
  end.

(** Whether an animating tick removes the effect: its fade as read at the
    start of the tick is not positive, or it is a text effect without text. *)
Definition expired (e : Effect.t) : bool :=
  num_le (Effect.life e / Effect.maxLife e) 0
  || match Effect.type e with
     | text => noText (Effect.text e)
     | _ => false
     end.

(** A particle after one animating tick of its effect. *)
Definition agedParticle (p : Particle.t) : Particle.t :=
  Particle.mk (Particle.x p + Particle.vx p) (Particle.y p + Particle.vy p)
              (Particle.vx p) (Particle.vy p + 0.2) (Particle.life p - 0.03)
              (Particle.maxLife p) (Particle.char p).

(** An effect that an animating tick keeps, after that tick. *)
Definition aged (e : Effect.t) : Effect.t :=
  Effect.mk (Effect.x e) (Effect.y e) (Effect.type e)
            (Effect.life e - decrementOf (Effect.type e)) (Effect.maxLife e)
            (match Effect.type e with
             | ripple => Effect.radius e + 3
             | _ => Effect.radius e
             end)
            (Effect.text e)
            (match Effect.type e with
             | explosion => option_map (map agedParticle) (Effect.particles e)
             | _ => Effect.particles e
             end)
            (Effect.followerCount e).

(** A particle after [n] animating ticks, in closed form. *)
Definition flown (n : nat) (p : Particle.t) : Particle.t :=
  Particle.mk (Particle.x p + INR n * Particle.vx p)
              (Particle.y p + INR n * Particle.vy p + 0.1 * INR n * (INR n - 1))
              (Particle.vx p) (Particle.vy p + 0.2 * INR n)
              (Particle.life p - 0.03 * INR n)
              (Particle.maxLife p) (Particle.char p).

(** A colour string with a well-formed alpha part: none, or a byte. *)
Definition styleValid (s : Style) : Prop :=
  match s with
  | Solid _ => True
  | Blend _ b => (0 <= b <= 255)%Z
  end.

Definition opStyleValid (op : CanvasOp) : Prop :=
  match op with
  | setFillStyle s | setStrokeStyle s => styleValid s
  | _ => True
  end.

(** The value of [ctx.textAlign] and of [ctx.textBaseline] after a run of
    canvas operations. *)
Definition textAlignAfter (a : string) (ops : list CanvasOp) : string :=
  fold_left (fun a op => match op with setTextAlign a' => a' | _ => a end) ops a.

Definition textBaselineAfter (b : string) (ops : list CanvasOp) : string :=
  fold_left (fun b op => match op with setTextBaseline b' => b' | _ => b end) ops b.

(** An operation that writes neither [textAlign] nor [textBaseline]. *)
Definition keepsTextSettings (op : CanvasOp) : Prop :=
  match op with
  | setTextAlign _ | setTextBaseline _ => False
  | _ => True
  end.

(** An effect whose fades cannot exceed 1: its life is at most its positive
    [maxLife], and so for each of its particles. *)
Definition fadeBounded (e : Effect.t) : Prop :=
  0 < Effect.maxLife e /\ Effect.life e <= Effect.maxLife e
  /\ match Effect.particles e with
     | Some ps => Forall (fun p => 0 < Particle.maxLife p
                                   /\ Particle.life p <= Particle.maxLife p) ps
     | None => True
     end.

(** The [#rrggbb] part of a colour string. *)
Definition styleHex (s : Style) : string :=
  match s with
  | Solid hex => hex
  | Blend hex _ => hex
  end.

(** Every colour the operation writes has its [#rrggbb] part among [hexes]. *)
Definition opColourIn (hexes : list string) (op : CanvasOp) : Prop :=
  match op with
  | setFillStyle s | setStrokeStyle s => In (styleHex s) hexes
  | _ => True
  end.

(** * Properties *)

Unset Implicit Arguments.

(** ** Numbers and lists *)

Lemma num_le_true (a b : R) : num_le a b = true <-> a <= b.
Proof. unfold num_le. destruct (Rle_dec a b); split; intros; auto; discriminate. Qed.

Lemma num_le_false (a b : R) : num_le a b = false <-> b < a.
Proof.
  unfold num_le. destruct (Rle_dec a b); split; intros; auto; try discriminate; lra.
Qed.

Lemma num_lt_true (a b : R) : num_lt a b = true <-> a < b.
Proof. unfold num_lt. destruct (Rlt_dec a b); split; intros; auto; discriminate. Qed.

Lemma num_lt_false (a b : R) : num_lt a b = false <-> b <= a.
Proof.
  unfold num_lt. destruct (Rlt_dec a b); split; intros; auto; try discriminate; lra.
Qed.

Lemma num_gt_true (a b : R) : num_gt a b = true <-> b < a.
Proof. apply num_lt_true. Qed.

Lemma num_gt_false (a b : R) : num_gt a b = false <-> a <= b.
Proof. apply num_lt_false. Qed.

Lemma Math_floor_bound (x : R) : IZR (Math_floor x) <= x < IZR (Math_floor x) + 1.
Proof. apply Zfloor_bound. Qed.

Lemma Math_floor_eq (z : Z) (x : R) : IZR z <= x < IZR z + 1 -> Math_floor x = z.
Proof. apply Zfloor_eq. Qed.

Lemma Math_ceil_eq (z : Z) (x : R) : IZR z - 1 < x <= IZR z -> Math_ceil x = z.
Proof.
  intros H. unfold Math_ceil.
  rewrite (Zfloor_eq (- z) (- x)); [lia |].
  rewrite opp_IZR. lra.
Qed.

Lemma Math_ceil_bound (x : R) : IZR (Math_ceil x) - 1 < x <= IZR (Math_ceil x).
Proof.
  unfold Math_ceil. rewrite opp_IZR.
  pose proof (Zfloor_bound (- x)). lra.
Qed.

(** [Math.floor(r * n)] for [r] in [[0,1)] is an index below [n]. *)
Lemma floor_scaled_range (r : R) (n : Z) :
  0 <= r < 1 -> (0 < n)%Z -> (0 <= Math_floor (r * IZR n) < n)%Z.
Proof.
  intros Hr Hn.
  assert (Hn' : 0 < IZR n) by (apply IZR_lt in Hn; lra).
  pose proof (Math_floor_bound (r * IZR n)) as [Hlo Hhi].
  split.
  - apply Zfloor_lub. simpl. nra.
  - apply lt_IZR. nra.
Qed.

Lemma floor_scaled_zero (r : R) : Math_floor (r * 0) = 0%Z.
Proof. apply Math_floor_eq. simpl. lra. Qed.

Lemma INR_length_IZR {A} (l : list A) : INR (List.length l) = IZR (Z.of_nat (List.length l)).
Proof. apply INR_IZR_INZ. Qed.

Lemma removeAt_length {A} (i : nat) (l : list A) :
  (i < List.length l)%nat -> List.length (removeAt i l) = pred (List.length l).
Proof.
  intros H. unfold removeAt.
  rewrite length_app, length_firstn, length_skipn. lia.
Qed.

Lemma removeAt_incl {A} (i : nat) (l : list A) : incl (removeAt i l) l.
Proof.
  unfold removeAt. intros a Ha. apply in_app_or in Ha as [Ha | Ha].
  - rewrite <- (firstn_skipn i l). apply in_or_app. now left.
  - rewrite <- (firstn_skipn (S i) l). apply in_or_app. now right.
Qed.

Lemma removeAt_NoDup {A} (i : nat) (l : list A) (a : A) :
  NoDup l -> nth_error l i = Some a -> NoDup (removeAt i l) /\ ~ In a (removeAt i l).
Proof.
  intros Hnd Hnth. unfold removeAt.
  apply nth_error_split in Hnth as (l1 & l2 & -> & <-).
  assert (Hs : skipn (S (List.length l1)) (l1 ++ a :: l2) = l2).
  { rewrite skipn_app, (skipn_all2 l1) by lia.
    replace (S (List.length l1) - List.length l1)%nat with 1%nat by lia. reflexivity. }
  rewrite Hs, firstn_app, Nat.sub_diag, firstn_all. simpl. rewrite app_nil_r.
  split.
  - apply NoDup_remove_1 in Hnd. exact Hnd.
  - apply NoDup_remove_2 in Hnd. exact Hnd.
Qed.

(** ** Rounding to doubles *)

Lemma pow2_pos (e : Z) : 0 < pow2 e.
Proof. apply powerRZ_lt. lra. Qed.

Lemma pow2_add (a b : Z) : pow2 (a + b) = pow2 a * pow2 b.
Proof. apply powerRZ_add. lra. Qed.

Lemma pow2_opp (e : Z) : pow2 e * pow2 (- e) = 1.
Proof. rewrite <- pow2_add, Z.add_opp_diag_r. reflexivity. Qed.

Lemma pow2_Z (e : Z) : (0 <= e)%Z -> pow2 e = IZR (2 ^ e).
Proof.
  intros He. unfold pow2. rewrite <- (Z2Nat.id e He) at 1.
  rewrite <- pow_powerRZ, pow_IZR, Z2Nat.id by exact He. reflexivity.
Qed.

Lemma pow2_ge_1 (d : Z) : (0 <= d)%Z -> 1 <= pow2 d.
Proof.
  intros Hd. rewrite pow2_Z by exact Hd. apply IZR_le.
  pose proof (Z.pow_pos_nonneg 2 d). lia.
Qed.

Lemma pow2_le (a b : Z) : (a <= b)%Z -> pow2 a <= pow2 b.
Proof.
  intros H. replace b with (a + (b - a))%Z by lia. rewrite pow2_add.
  pose proof (pow2_pos a). pose proof (pow2_ge_1 (b - a) ltac:(lia)). nra.
Qed.

Lemma pow2_lt_inv (a b : Z) : pow2 a < pow2 b -> (a < b)%Z.
Proof.
  intros H. destruct (Z_lt_le_dec a b) as [Hlt | Hle]; [exact Hlt |].
  apply pow2_le in Hle. lra.
Qed.

Lemma magnitude_bounds (x : R) :
  x <> 0 -> pow2 (magnitude x - 1) <= Rabs x < pow2 (magnitude x).
Proof.
  intros Hx. unfold magnitude.
  set (a := Rabs x). assert (Ha : 0 < a) by (apply Rabs_pos_lt; exact Hx).
  set (f := Zfloor (ln a / ln 2)).
  pose proof (Zfloor_bound (ln a / ln 2)) as [Hlo Hhi]. fold f in Hlo, Hhi.
  assert (H2 : 0 < ln 2) by (pose proof ln_lt_2; lra).
  assert (E : ln a = ln a / ln 2 * ln 2) by (field; lra).
  replace (f + 1 - 1)%Z with f by lia.
  unfold pow2. rewrite !powerRZ_Rpower by lra. unfold Rpower.
  rewrite plus_IZR. split.
  - rewrite <- (exp_ln a Ha) at 1.
    destruct (Req_dec (IZR f * ln 2) (ln a)) as [-> | Hne]; [lra |].
    left. apply exp_increasing. nra.
  - rewrite <- (exp_ln a Ha) at 1. apply exp_increasing. nra.
Qed.

Lemma magnitude_unique (x : R) (m : Z) :
  pow2 (m - 1) <= Rabs x < pow2 m -> magnitude x = m.
Proof.
  intros [Hlo Hhi].
  assert (Hx : x <> 0).
  { intros ->. rewrite Rabs_R0 in Hlo. pose proof (pow2_pos (m - 1)). lra. }
  destruct (magnitude_bounds x Hx) as [Hlo' Hhi'].
  assert (magnitude x - 1 < m)%Z by (apply pow2_lt_inv; lra).
  assert (m - 1 < magnitude x)%Z by (apply pow2_lt_inv; lra).
  lia.
Qed.

Lemma Rabs_le_both (a b : R) : Rabs a <= b -> - b <= a <= b.
Proof. unfold Rabs. destruct (Rcase_abs a); lra. Qed.

Lemma nearestEven_cases (y : R) :
  nearestEven y = Zfloor y \/ nearestEven y = (Zfloor y + 1)%Z.
Proof.
  unfold nearestEven.
  destruct (Rlt_dec _ _); [auto |]. destruct (Rlt_dec _ _); [auto |].
  destruct (Z.even _); auto.
Qed.

Lemma nearestEven_error (y : R) : Rabs (IZR (nearestEven y) - y) <= / 2.
Proof.
  unfold nearestEven. pose proof (Zfloor_bound y) as [Hlo Hhi].
  destruct (Rlt_dec _ _) as [H1 | H1].
  - apply Rabs_le. lra.
  - destruct (Rlt_dec _ _) as [H2 | H2].
    + rewrite plus_IZR. apply Rabs_le. lra.
    + destruct (Z.even _); [| rewrite plus_IZR]; apply Rabs_le; lra.
Qed.

Lemma nearestEven_le (y : R) (n : Z) : y <= IZR n -> (nearestEven y <= n)%Z.
Proof.
  intros H. pose proof (Zfloor_bound y) as [Hlo Hhi].
  destruct (Z_lt_le_dec (Zfloor y) n) as [Hlt | Hge].
  - destruct (nearestEven_cases y) as [-> | ->]; lia.
  - assert (IZR n <= IZR (Zfloor y)) by (apply IZR_le; exact Hge).
    unfold nearestEven. destruct (Rlt_dec _ _) as [H1 | H1].
    + apply le_IZR. lra.
    + exfalso. apply H1. lra.
Qed.

Lemma nearestEven_ge (y : R) (n : Z) : IZR n <= y -> (n <= nearestEven y)%Z.
Proof.
  intros H. apply Zfloor_lub in H.
  destruct (nearestEven_cases y) as [-> | ->]; lia.
Qed.

Lemma nearestEven_eq (y : R) (n : Z) :
  IZR n - / 2 < y < IZR n + / 2 -> nearestEven y = n.
Proof.
  intros [Hlo Hhi]. pose proof (nearestEven_error y) as He.
  apply Rabs_le_both in He.
  assert (H : IZR n - 1 < IZR (nearestEven y) < IZR n + 1) by lra.
  destruct H as [H1 H2].
  rewrite <- minus_IZR in H1. rewrite <- plus_IZR in H2.
  apply lt_IZR in H1, H2. lia.
Qed.

Lemma double_0 : double 0 = 0.
Proof.
  unfold double. rewrite Rmult_0_l.
  replace (nearestEven 0) with 0%Z; [apply Rmult_0_l |].
  symmetry. apply nearestEven_eq. simpl. lra.
Qed.

(** The exponent of the last place of a positive number below [2^53]. *)
Lemma lastPlace_small (x : R) :
  0 < x -> x < pow2 53 -> (Z.max (magnitude x - 53) (-1074) <= 0)%Z.
Proof.
  intros H0 H. destruct (magnitude_bounds x ltac:(lra)) as [Hlo _].
  rewrite Rabs_pos_eq in Hlo by lra.
  assert (magnitude x - 1 < 53)%Z by (apply pow2_lt_inv; lra). lia.
Qed.

Lemma double_le_Z (x : R) (n : Z) :
  0 <= x <= IZR n -> (n < 9007199254740992)%Z -> double x <= IZR n.
Proof.
  intros [H0 Hn] Hb. change 9007199254740992%Z with (2 ^ 53)%Z in Hb.
  destruct (Req_dec x 0) as [-> | Hx]; [rewrite double_0; exact Hn |].
  assert (Hp : 0 < x) by lra.
  assert (Hx53 : x < pow2 53).
  { rewrite pow2_Z by lia. apply IZR_lt in Hb. lra. }
  pose proof (lastPlace_small x Hp Hx53) as He.
  unfold double. set (e := Z.max (magnitude x - 53) (-1074)) in *.
  assert (Hy : x * pow2 (- e) <= IZR (n * 2 ^ (- e))).
  { rewrite mult_IZR, <- pow2_Z by lia. pose proof (pow2_pos (- e)). nra. }
  apply nearestEven_le, IZR_le in Hy.
  rewrite mult_IZR, <- pow2_Z in Hy by lia.
  pose proof (pow2_pos e). pose proof (pow2_opp e).
  assert (IZR (nearestEven (x * pow2 (- e))) * pow2 e <= IZR n * pow2 (- e) * pow2 e) by nra.
  nra.
Qed.

Lemma double_ge_Z (x : R) (n : Z) :
  0 <= IZR n <= x -> (n < 9007199254740992)%Z -> IZR n <= double x.
Proof.
  intros [H0 Hn] Hb. change 9007199254740992%Z with (2 ^ 53)%Z in Hb.
  destruct (Req_dec x 0) as [-> | Hx]; [rewrite double_0; exact Hn |].
  assert (Hp : 0 < x) by lra.
  unfold double. set (e := Z.max (magnitude x - 53) (-1074)).
  pose proof (pow2_pos e) as Hpe. pose proof (pow2_opp e) as Hoe.
  destruct (Z_le_gt_dec e 0) as [He | He].
  - assert (Hy : IZR (n * 2 ^ (- e)) <= x * pow2 (- e)).
    { rewrite mult_IZR, <- pow2_Z by lia. pose proof (pow2_pos (- e)). nra. }
    apply nearestEven_ge, IZR_le in Hy.
    rewrite mult_IZR, <- pow2_Z in Hy by lia.
    assert (IZR n * pow2 (- e) * pow2 e <= IZR (nearestEven (x * pow2 (- e))) * pow2 e) by nra.
    nra.
  - destruct (magnitude_bounds x Hx) as [Hlo _].
    rewrite Rabs_pos_eq in Hlo by lra.
    assert (Em : (magnitude x - 1 = 52 + e)%Z) by (unfold e in *; lia).
    rewrite Em, pow2_add in Hlo.
    assert (Hy : IZR (2 ^ 52) <= x * pow2 (- e)).
    { rewrite <- pow2_Z by lia. pose proof (pow2_pos 52). nra. }
    apply nearestEven_ge, IZR_le in Hy. rewrite <- pow2_Z in Hy by lia.
    assert (IZR n < pow2 53) by (rewrite pow2_Z by lia; apply IZR_lt; exact Hb).
    assert (pow2 53 <= pow2 (52 + e)) by (apply pow2_le; lia).
    rewrite pow2_add in H1. nra.
Qed.

Lemma double_Z (n : Z) : (0 <= n < 9007199254740992)%Z -> double (IZR n) = IZR n.
Proof.
  intros [H0 Hb]. apply IZR_le in H0. apply Rle_antisym.
  - apply double_le_Z; [lra | exact Hb].
  - apply double_ge_Z; [lra | exact Hb].
Qed.

(** The relative error of rounding a number of the normal range. *)
Lemma double_error (x : R) :
  pow2 (-1022) <= Rabs x -> Rabs (double x - x) <= Rabs x * pow2 (-53).
Proof.
  intros Hn.
  assert (Hx : x <> 0).
  { intros ->. rewrite Rabs_R0 in Hn. pose proof (pow2_pos (-1022)). lra. }
  destruct (magnitude_bounds x Hx) as [Hlo Hhi].
  assert (Hm : (-1022 < magnitude x)%Z) by (apply pow2_lt_inv; lra).
  unfold double. rewrite Z.max_l by lia.
  set (e := (magnitude x - 53)%Z).
  pose proof (nearestEven_error (x * pow2 (- e))) as He.
  pose proof (pow2_pos e) as Hpe. pose proof (pow2_opp e) as Hoe.
  replace (IZR (nearestEven (x * pow2 (- e))) * pow2 e - x)
    with ((IZR (nearestEven (x * pow2 (- e))) - x * pow2 (- e)) * pow2 e)
    by (rewrite Rmult_minus_distr_r, Rmult_assoc, (Rmult_comm (pow2 (- e))), Hoe; ring).
  rewrite Rabs_mult, (Rabs_pos_eq (pow2 e)) by lra.
  replace (magnitude x - 1)%Z with (e + 53 + -1)%Z in Hlo by (unfold e; lia).
  rewrite !pow2_add in Hlo.
  assert (E1 : pow2 (-1) = / 2) by (unfold pow2; simpl; lra).
  assert (E53 : pow2 53 * pow2 (-53) = 1) by apply pow2_opp.
  pose proof (pow2_pos 53). pose proof (pow2_pos (-53)).
  pose proof (Rabs_pos (IZR (nearestEven (x * pow2 (- e))) - x * pow2 (- e))).
  rewrite E1 in Hlo.
  apply Rle_trans with (/ 2 * pow2 e); [nra |].
  apply Rle_trans with (pow2 e * pow2 53 * / 2 * pow2 (-53)); [| nra].
  replace (pow2 e * pow2 53 * / 2 * pow2 (-53)) with (pow2 e * / 2 * (pow2 53 * pow2 (-53))) by ring.
  rewrite E53. lra.
Qed.

Lemma pow2_53 : pow2 53 = 9007199254740992.
Proof. rewrite pow2_Z by lia. reflexivity. Qed.

Lemma pow2_m53 : pow2 (-53) = / 9007199254740992.
Proof.
  pose proof (pow2_opp 53) as H. rewrite pow2_53 in H. simpl Z.opp in H.
  apply Rmult_eq_reg_l with 9007199254740992; [| lra].
  rewrite H. field.
Qed.

(** Rounding a number that is at least 1 moves it by less than one part in
    [2^53]. *)
Lemma double_near (x : R) :
  1 <= x ->
  x * (1 - / 9007199254740992) <= double x <= x * (1 + / 9007199254740992).
Proof.
  intros Hx. rewrite <- pow2_m53.
  assert (Hn : pow2 (-1022) <= Rabs x).
  { rewrite Rabs_pos_eq by lra.
    apply Rle_trans with (pow2 0); [apply pow2_le; lia | unfold pow2; simpl; lra]. }
  pose proof (double_error x Hn) as H. rewrite (Rabs_pos_eq x) in H by lra.
  apply Rabs_le_both in H. lra.
Qed.

Lemma double_eval (x : R) (m k : Z) :
  pow2 (m - 1) <= Rabs x < pow2 m ->
  IZR k - / 2 < x * pow2 (- Z.max (m - 53) (-1074)) < IZR k + / 2 ->
  double x = IZR k * pow2 (Z.max (m - 53) (-1074)).
Proof.
  intros Hm Hk. unfold double. rewrite (magnitude_unique x m Hm).
  now rewrite (nearestEven_eq _ k Hk).
Qed.

Lemma pow2_neg (p : positive) : pow2 (Z.neg p) = / IZR (2 ^ Z.pos p).
Proof.
  pose proof (pow2_opp (Z.pos p)) as H. simpl Z.opp in H.
  assert (0 < IZR (2 ^ Z.pos p)) by (rewrite <- pow2_Z by lia; apply pow2_pos).
  rewrite pow2_Z in H by lia.
  apply Rmult_eq_reg_l with (IZR (2 ^ Z.pos p)); [| lra].
  rewrite H. field. lra.
Qed.

(** [29 / 100] as a double. *)
Lemma double_029 : double (29 / 100) = 5224175567749775 / 18014398509481984.
Proof.
  rewrite (double_eval (29 / 100) (-1) 5224175567749775).
  - change (Z.max (-1 - 53) (-1074)) with (Z.neg 54). rewrite (pow2_neg 54).
    change (2 ^ 54)%Z with 18014398509481984%Z. reflexivity.
  - rewrite Rabs_pos_eq by lra. change (-1 - 1)%Z with (Z.neg 2).
    rewrite (pow2_neg 2), (pow2_neg 1).
    change (2 ^ 2)%Z with 4%Z. change (2 ^ 1)%Z with 2%Z. lra.
  - change (- Z.max (-1 - 53) (-1074))%Z with 54%Z. rewrite pow2_Z by lia.
    change (2 ^ 54)%Z with 18014398509481984%Z. lra.
Qed.

(** [100 * (29 / 100)] in doubles is the double just below 29. *)
Lemma double_100_029 :
  double (100 * double (29 / 100)) = 8162774324609023 / 281474976710656.
Proof.
  rewrite double_029.
  rewrite (double_eval _ 5 8162774324609023).
  - change (Z.max (5 - 53) (-1074)) with (Z.neg 48). rewrite (pow2_neg 48).
    change (2 ^ 48)%Z with 281474976710656%Z. reflexivity.
  - rewrite Rabs_pos_eq by lra. change (5 - 1)%Z with 4%Z.
    rewrite !pow2_Z by lia.
    change (2 ^ 4)%Z with 16%Z. change (2 ^ 5)%Z with 32%Z. lra.
  - change (- Z.max (5 - 53) (-1074))%Z with 48%Z. rewrite pow2_Z by lia.
    change (2 ^ 48)%Z with 281474976710656%Z. lra.
Qed.

(** [115 / 100] as a double, and [100 * (115 / 100)] in doubles, the second
    double below 115. *)
Lemma double_115 : double (115 / 100) = 5179139571476070 / 4503599627370496.
Proof.
  rewrite (double_eval (115 / 100) 1 5179139571476070).
  - change (Z.max (1 - 53) (-1074)) with (Z.neg 52). rewrite (pow2_neg 52).
    change (2 ^ 52)%Z with 4503599627370496%Z. reflexivity.
  - rewrite Rabs_pos_eq by lra. change (1 - 1)%Z with 0%Z.
    rewrite !pow2_Z by lia.
    change (2 ^ 0)%Z with 1%Z. change (2 ^ 1)%Z with 2%Z. lra.
  - change (- Z.max (1 - 53) (-1074))%Z with 52%Z. rewrite pow2_Z by lia.
    change (2 ^ 52)%Z with 4503599627370496%Z. lra.
Qed.

Lemma double_100_115 :
  double (100 * double (115 / 100)) = 8092405580431359 / 70368744177664.
Proof.
  rewrite double_115.
  rewrite (double_eval _ 7 8092405580431359).
  - change (Z.max (7 - 53) (-1074)) with (Z.neg 46). rewrite (pow2_neg 46).
    change (2 ^ 46)%Z with 70368744177664%Z. reflexivity.
  - rewrite Rabs_pos_eq by lra. change (7 - 1)%Z with 6%Z.
    rewrite !pow2_Z by lia.
    change (2 ^ 6)%Z with 64%Z. change (2 ^ 7)%Z with 128%Z. lra.
  - change (- Z.max (7 - 53) (-1074))%Z with 46%Z. rewrite pow2_Z by lia.
    change (2 ^ 46)%Z with 70368744177664%Z. lra.
Qed.

(** ** The random-stream monad *)

Lemma mapM_length {A B} (f : A -> Rand B) (l : list A) (k : nat) :
  List.length (fst (mapM f l k)) = List.length l.
Proof.
  revert k. induction l as [|a l IH]; intros k; simpl; [reflexivity |].
  unfold bind. destruct (f a k) as [b k1]. specialize (IH k1).
  destruct (mapM f l k1) as [bs k2]. simpl in *. now rewrite IH.
Qed.

(** Every result of [mapM f l] is [f] run on the element at that place, at
    some position of the stream. *)
Lemma mapM_Forall2 {A B} (f : A -> Rand B) (l : list A) (k : nat) :
  Forall2 (fun a b => exists k', b = fst (f a k')) l (fst (mapM f l k)).
Proof.
  revert k. induction l as [|a l IH]; intros k; simpl; [constructor |].
  unfold bind. destruct (f a k) as [b k1] eqn:E. specialize (IH k1).
  destruct (mapM f l k1) as [bs k2]. simpl in *. constructor; [| exact IH].
  exists k. now rewrite E.
Qed.

Lemma mapM_map {A B C} (f : A -> Rand B) (g : A -> C) (h : B -> C) :
  (forall a k, h (fst (f a k)) = g a) ->
  forall l k, map h (fst (mapM f l k)) = map g l.
Proof.
  intros H l k. pose proof (mapM_Forall2 f l k) as F.
  induction F as [|a b l bs [k' ->] _ IH]; simpl; [reflexivity |].
  now rewrite H, IH.
Qed.

Lemma mapM_Forall {A B} (f : A -> Rand B) (P : A -> Prop) (Q : B -> Prop) :
  (forall a k, P a -> Q (fst (f a k))) ->
  forall l k, Forall P l -> Forall Q (fst (mapM f l k)).
Proof.
  intros H l k HP. pose proof (mapM_Forall2 f l k) as F.
  induction F as [|a b l bs [k' ->] _ IH]; constructor.
  - apply H. now inversion HP.
  - apply IH. now inversion HP.
Qed.

(** A body that reads nothing from the stream leaves it where it was. *)
Lemma mapM_pure {A B} (f : A -> Rand B) (g : A -> B) :
  (forall a k, f a k = (g a, k)) ->
  forall l k, mapM f l k = (map g l, k).
Proof.
  intros H l. induction l as [|a l IH]; intros k; simpl; [reflexivity |].
  unfold bind. now rewrite H, IH.
Qed.

Lemma mapM_nth_error {A B} (f : A -> Rand B) (l : list A) (k : nat) (i : nat) (a : A) :
  nth_error l i = Some a ->
  exists k', nth_error (fst (mapM f l k)) i = Some (fst (f a k')).
Proof.
  intros H. pose proof (mapM_Forall2 f l k) as F. revert i H.
  induction F as [|a0 b l bs [k' ->] _ IH]; intros [|i] H; simpl in *; try discriminate.
  - injection H as ->. now exists k'.
  - now apply IH.
Qed.

(** ** [splice] *)

Lemma splice1_nil {A} (start : Z) : splice1 (@nil A) start = (None, []).
Proof.
  unfold splice1. simpl.
  destruct (start <? 0)%Z; destruct (Z.to_nat _); reflexivity.
Qed.

Lemma splice1_in_range {A} (l : list A) (start : Z) :
  (0 <= start < Z.of_nat (List.length l))%Z ->
  splice1 l start = (nth_error l (Z.to_nat start), removeAt (Z.to_nat start) l).
Proof.
  intros H. unfold splice1, removeAt.
  destruct (start <? 0)%Z eqn:E; [lia |].
  now rewrite Z.min_l by lia.
Qed.

(** ** The loops, one iteration at a time *)

Lemma selectIndices_S (random : nat -> R) (n : nat) (pool : list Z) (k : nat) :
  selectIndices random (S n) pool k
  = let (picked, rest) := splice1 pool (Math_floor (random k * INR (List.length pool))) in
    let (selected, k') := selectIndices random n rest (S k) in
    (picked :: selected, k').
Proof.
  simpl. unfold bind, Math_random.
  destruct (splice1 pool (Math_floor (random k * INR (List.length pool)))) as [picked rest].
  destruct (selectIndices random n rest (S k)). reflexivity.
Qed.

Section Properties.

Variable random : nat -> R.
Variable isMobileDevice : bool.

(** [Math.random()] returns a number in [[0,1)]. *)
Hypothesis random_range : forall k, 0 <= random k < 1.

(** ** The column selection of [initDrops] *)

(** The selection loop takes distinct members of the pool while there are
    any, and [undefined] from then on. *)
Lemma selectIndices_spec (n : nat) :
  forall (pool : list Z) (k : nat), NoDup pool ->
  exists picks,
    selectIndices random n pool k
      = (map Some picks ++ repeat None (n - List.length pool), (k + n)%nat)
    /\ List.length picks = Nat.min n (List.length pool)
    /\ NoDup picks /\ incl picks pool.
Proof.
  induction n as [|n IH]; intros pool k Hnd.
  - exists []. simpl. rewrite Nat.add_0_r. repeat split; auto using NoDup_nil.
    intros a [].
  - rewrite selectIndices_S.
    destruct pool as [|p pool'].
    + simpl List.length. simpl INR. rewrite floor_scaled_zero, splice1_nil.
      destruct (IH [] (S k) Hnd) as (picks & E & Hlen & _ & _).
      rewrite E. simpl in Hlen. rewrite Nat.min_0_r in Hlen.
      destruct picks; [| discriminate]. exists []. simpl.
      rewrite Nat.sub_0_r. replace (k + S n)%nat with (S (k + n))%nat by lia.
      repeat split; auto using NoDup_nil. intros a [].
    + set (pool := p :: pool') in *.
      assert (Hidx : (0 <= Math_floor (random k * INR (List.length pool))
                      < Z.of_nat (List.length pool))%Z).
      { rewrite INR_length_IZR. apply floor_scaled_range; [apply random_range |].
        unfold pool. simpl List.length. lia. }
      rewrite splice1_in_range by exact Hidx.
      set (i := Z.to_nat (Math_floor (random k * INR (List.length pool)))) in *.
      assert (Hi : (i < List.length pool)%nat) by (unfold i; lia).
      destruct (nth_error pool i) as [a|] eqn:Ea;
        [| apply nth_error_None in Ea; lia].
      destruct (removeAt_NoDup i pool a Hnd Ea) as [Hnd' Hnotin].
      destruct (IH (removeAt i pool) (S k) Hnd') as (picks & E & Hlen & Hp & Hincl).
      rewrite E. exists (a :: picks).
      rewrite removeAt_length in * by exact Hi.
      assert (Hpos : (0 < List.length pool)%nat) by (unfold pool; simpl; lia).
      repeat split.
      * simpl. f_equal. lia.
      * clear E. unfold pool in *. simpl List.length in *. lia.
      * constructor; [| exact Hp]. intros Hin. apply Hnotin, Hincl, Hin.
      * intros b [<- | Hb]; [eapply nth_error_In; eauto |].
        apply (removeAt_incl i pool), Hincl, Hb.
Qed.

Lemma newDrop_xIndex (c : Core.t) (w : R) (index : option Z) (k : nat) :
  Drop.xIndex (fst (newDrop random c w index k)) = index.
Proof. reflexivity. Qed.

Lemma prefillTrail_xIndex (c : Core.t) (d : Drop.t) (k : nat) :
  Drop.xIndex (fst (prefillTrail random c d k)) = Drop.xIndex d.
Proof.
  unfold prefillTrail, bind.
  destruct (pushRandomChars random _ _ _ k). reflexivity.
Qed.

(** The drops of [initDrops] carry the selected indices, in order. *)
Lemma initDrops_xIndex (c : Core.t) (w : R) (k : nat) :
  map Drop.xIndex (Core.drops (fst (initDrops random c w k)))
  = fst (selectIndices random (Z.to_nat (actualColumnsOf c w))
                       (map Z.of_nat (seq 0 (Z.to_nat (columnsOf c w)))) k).
Proof.
  unfold initDrops, bind.
  destruct (selectIndices random _ _ k) as [sel k1].
  pose proof (mapM_map (newDrop random c w) (fun i => i) Drop.xIndex
                (newDrop_xIndex c w) sel k1) as H1.
  destruct (mapM (newDrop random c w) sel k1) as [ds k2].
  pose proof (mapM_map (prefillTrail random c) Drop.xIndex Drop.xIndex
                (prefillTrail_xIndex c) ds k2) as H2.
  destruct (mapM (prefillTrail random c) ds k2) as [ds' k3].
  simpl in *. rewrite H2, H1. apply map_id.
Qed.

Lemma allIndices_NoDup (n : nat) : NoDup (map Z.of_nat (seq 0 n)).
Proof.
  apply NoDup_map_NoDup_ForallPairs; [| apply seq_NoDup].
  intros a b _ _ H. lia.
Qed.

Lemma allIndices_range (n : nat) (i : Z) :
  In i (map Z.of_nat (seq 0 n)) <-> (0 <= i < Z.of_nat n)%Z.
Proof.
  rewrite in_map_iff. split.
  - intros (j & <- & Hj). apply in_seq in Hj. lia.
  - intros H. exists (Z.to_nat i). split; [lia |]. apply in_seq. lia.
Qed.

(** With a density of at most 100 the drop count is within the number of
    columns: neither rounding can carry a product above it. *)
Lemma actualColumns_le_columns (c : Core.t) (w : R) :
  (1 <= columnsOf c w <= 4294967295)%Z -> 0 < Core.density c <= 100 ->
  (1 <= actualColumnsOf c w <= columnsOf c w)%Z.
Proof.
  intros [Hc Hmax] [Hd0 Hd]. unfold actualColumnsOf.
  set (cols := columnsOf c w) in *.
  set (q := double (Core.density c / 100)).
  assert (Hq : 0 <= q <= 1).
  { split.
    - apply (double_ge_Z _ 0); [lra | lia].
    - apply (double_le_Z _ 1); [lra | lia]. }
  assert (Hc' : 1 <= IZR cols) by (apply IZR_le in Hc; exact Hc).
  assert (Hp : double (IZR cols * q) <= IZR cols) by (apply double_le_Z; [nra | lia]).
  pose proof (Math_floor_bound (double (IZR cols * q))) as [Hlo _].
  assert (H : IZR (Math_floor (double (IZR cols * q))) <= IZR cols) by lra.
  apply le_IZR in H. lia.
Qed.

(** With density 100 every column gets a drop: [100 / 100] and the product
    by it are exact. *)
Lemma actualColumns_full (c : Core.t) (w : R) :
  (1 <= columnsOf c w <= 4294967295)%Z -> Core.density c = 100 ->
  actualColumnsOf c w = columnsOf c w.
Proof.
  intros [Hc Hmax] Ed. unfold actualColumnsOf. rewrite Ed.
  replace (100 / 100) with (IZR 1) by lra.
  rewrite (double_Z 1), Rmult_1_r, double_Z by lia.
  unfold Math_floor. rewrite ZfloorZ. lia.
Qed.

(** With a density above 100 the drop count is at least the number of
    columns: neither rounding can carry a product below it. *)
Lemma actualColumns_ge_columns (c : Core.t) (w : R) :
  (columnsOf c w <= 4294967295)%Z -> 100 < Core.density c ->
  (columnsOf c w <= actualColumnsOf c w)%Z.
Proof.
  intros Hmax Hd. unfold actualColumnsOf.
  set (cols := columnsOf c w) in *.
  destruct (Z_lt_le_dec cols 1) as [Hlt | Hle]; [lia |].
  set (q := double (Core.density c / 100)).
  assert (Hq : 1 <= q) by (apply (double_ge_Z _ 1); [lra | lia]).
  assert (Hc' : 1 <= IZR cols) by (apply IZR_le in Hle; exact Hle).
  assert (Hp : IZR cols <= double (IZR cols * q)) by (apply double_ge_Z; [nra | lia]).
  apply Zfloor_lub in Hp. unfold Math_floor. lia.
Qed.

(** The column indices of the drops of [initDrops], whatever the sizes: the
    members of [[0, columns)] taken without repetition while there are any,
    [undefined] for every drop after that. *)
Lemma initDrops_columns (c : Core.t) (w : R) (k : nat) :
  let n := Z.to_nat (actualColumnsOf c w) in
  let m := Z.to_nat (columnsOf c w) in
  exists picks,
    map Drop.xIndex (Core.drops (fst (initDrops random c w k)))
      = map Some picks ++ repeat None (n - m)
    /\ List.length picks = Nat.min n m
    /\ NoDup picks
    /\ (forall i, In i picks -> (0 <= i < Z.of_nat m)%Z).
Proof.
  intros n m. rewrite initDrops_xIndex. fold n m.
  destruct (selectIndices_spec n (map Z.of_nat (seq 0 m)) k (allIndices_NoDup m))
    as (picks & E & Hlen & Hnd & Hincl).
  rewrite length_map, length_seq in E, Hlen.
  exists picks. rewrite E.
  split; [reflexivity | split; [exact Hlen | split; [exact Hnd |]]].
  intros i Hi. apply allIndices_range, Hincl, Hi.
Qed.

Lemma initDrops_length (c : Core.t) (w : R) (k : nat) :
  List.length (Core.drops (fst (initDrops random c w k)))
  = Z.to_nat (actualColumnsOf c w).
Proof.
  destruct (initDrops_columns c w k) as (picks & Hx & Hlen & _).
  rewrite <- (length_map Drop.xIndex), Hx, length_app, length_map, repeat_length, Hlen.
  lia.
Qed.

(** C3 (amended).  For a positive cell size, a density in (0,100] and a
    surface width that gives at least one column and no more columns than an
    array can hold, where [columns = ceil(width / cellSize)], [initDrops]
    makes exactly [activeCount = max(1, floor(columns * (density / 100)))]
    drops, the quotients and the product being those of double arithmetic;
    [activeCount] is between 1 and [columns], and it is [columns] for density
    100; the column indices of the drops are defined, pairwise distinct and in
    [[0, columns)]; when the count equals [columns] every index of
    [[0, columns)] is taken.  With cell size 24, density 100 and width 1000
    both numbers are 42. *)
Theorem initDrops_distinct_columns (c : Core.t) (canvasWidth : R) (k : nat) :
  0 < Core.fontSize c -> 0 < Core.density c <= 100 ->
  (1 <= Math_ceil (double (canvasWidth / Core.fontSize c)) <= 4294967295)%Z ->
  let c' := fst (initDrops random c canvasWidth k) in
  let columns := Math_ceil (double (canvasWidth / Core.fontSize c)) in
  let activeCount :=
    Z.max 1 (Math_floor (double (IZR columns * double (Core.density c / 100)))) in
  Z.of_nat (List.length (Core.drops c')) = activeCount
  /\ (1 <= activeCount <= columns)%Z
  /\ (Core.density c = 100 -> activeCount = columns)
  /\ (exists idxs,
        map Drop.xIndex (Core.drops c') = map Some idxs
        /\ NoDup idxs
        /\ Forall (fun i => (0 <= i < columns)%Z) idxs)
  /\ (activeCount = columns ->
      forall i, (0 <= i < columns)%Z -> In (Some i) (map Drop.xIndex (Core.drops c')))
  /\ (Core.fontSize c = 24 -> Core.density c = 100 -> canvasWidth = 1000 ->
      columns = 42%Z /\ activeCount = 42%Z).
Proof.
  intros Hf [Hd0 Hd] Hcols c' columns activeCount.
  change (Math_ceil (double (canvasWidth / Core.fontSize c)))
    with (columnsOf c canvasWidth) in Hcols, columns.
  change (Z.max 1 (Math_floor (double (IZR columns * double (Core.density c / 100)))))
    with (actualColumnsOf c canvasWidth) in activeCount.
  pose proof (actualColumns_le_columns c canvasWidth Hcols (conj Hd0 Hd)) as Hact.
  fold columns in Hcols. fold columns activeCount in Hact.
  pose proof (initDrops_xIndex c canvasWidth k) as Hx. fold c' columns activeCount in Hx.
  destruct (selectIndices_spec (Z.to_nat activeCount)
              (map Z.of_nat (seq 0 (Z.to_nat columns))) k
              (allIndices_NoDup _)) as (picks & E & Hlen & Hnd & Hincl).
  rewrite length_map, length_seq in E, Hlen.
  replace (Z.to_nat activeCount - Z.to_nat columns)%nat with 0%nat in E by lia.
  simpl in E. rewrite app_nil_r in E. rewrite E in Hx. simpl in Hx.
  rewrite Nat.min_l in Hlen by lia.
  assert (Hfull : Core.density c = 100 -> activeCount = columns).
  { intros Ed. apply actualColumns_full; [exact Hcols | exact Ed]. }
  split; [| split; [exact Hact | split; [exact Hfull | split; [| split]]]].
  - rewrite <- (length_map Drop.xIndex), Hx, length_map, Hlen. lia.
  - exists picks. repeat split; auto.
    apply Forall_forall. intros i Hi. apply Hincl, allIndices_range in Hi. lia.
  - intros Heq i Hi. rewrite Hx. apply in_map.
    apply (@NoDup_length_incl _ picks (map Z.of_nat (seq 0 (Z.to_nat columns))) Hnd).
    + rewrite length_map, length_seq. lia.
    + exact Hincl.
    + apply allIndices_range. lia.
  - intros Ef Ed Ew.
    assert (Ec : columns = 42%Z).
    { unfold columns, columnsOf. rewrite Ef, Ew. apply Math_ceil_eq.
      pose proof (double_near (1000 / 24) ltac:(lra)) as [Hlo _].
      pose proof (double_le_Z (1000 / 24) 42 ltac:(lra) ltac:(lia)) as Hhi.
      lra. }
    split; [exact Ec | rewrite <- Ec; exact (Hfull Ed)].
Qed.

(** C9 (amended).  For a positive cell size and a density above 100, with
    [columns] and [activeCount] within what an array can hold, [initDrops]
    computes [activeCount = max(1, floor(columns * (density / 100)))] in
    double arithmetic, which is at least [columns] (and can equal it), and
    makes [activeCount] drops: the first [columns] of them take every index
    of [[0, columns)] once, and each of the [activeCount - columns] drops
    after them has an [undefined] column index; nothing clamps the density. *)
Theorem initDrops_overfull_density (c : Core.t) (canvasWidth : R) (k : nat) :
  0 < Core.fontSize c -> 100 < Core.density c ->
  (Math_ceil (double (canvasWidth / Core.fontSize c)) <= 4294967295)%Z ->
  (Z.max 1 (Math_floor (double (IZR (Math_ceil (double (canvasWidth / Core.fontSize c)))
                                * double (Core.density c / 100))))
   <= 4294967295)%Z ->
  let c' := fst (initDrops random c canvasWidth k) in
  let columns := Math_ceil (double (canvasWidth / Core.fontSize c)) in
  let activeCount :=
    Z.max 1 (Math_floor (double (IZR columns * double (Core.density c / 100)))) in
  (columns <= activeCount)%Z
  /\ Z.of_nat (List.length (Core.drops c')) = activeCount
  /\ exists picks,
       map Drop.xIndex (Core.drops c')
         = map Some picks ++ repeat None (Z.to_nat activeCount - Z.to_nat columns)
       /\ List.length picks = Z.to_nat columns
       /\ NoDup picks
       /\ (forall i, In i picks <-> (0 <= i < columns)%Z).
Proof.
  intros Hf Hd Hcols _ c' columns activeCount.
  change (Math_ceil (double (canvasWidth / Core.fontSize c)))
    with (columnsOf c canvasWidth) in Hcols, columns.
  change (Z.max 1 (Math_floor (double (IZR columns * double (Core.density c / 100)))))
    with (actualColumnsOf c canvasWidth) in activeCount.
  pose proof (actualColumns_ge_columns c canvasWidth Hcols Hd) as Hge.
  fold columns activeCount in Hge.
  destruct (initDrops_columns c canvasWidth k) as (picks & Hx & Hlen & Hnd & Hrange).
  fold c' columns activeCount in Hx, Hlen, Hrange.
  rewrite Nat.min_r in Hlen by lia.
  split; [exact Hge | split].
  - unfold c'. rewrite initDrops_length. fold activeCount.
    unfold activeCount, actualColumnsOf. lia.
  - exists picks.
    split; [exact Hx | split; [exact Hlen | split; [exact Hnd |]]].
    intros i. split.
    + intros Hi. apply Hrange in Hi. lia.
    + intros Hi.
      apply (@NoDup_length_incl _ picks (map Z.of_nat (seq 0 (Z.to_nat columns))) Hnd).
      * rewrite length_map, length_seq. lia.
      * intros j Hj. apply allIndices_range, Hrange, Hj.
      * apply allIndices_range. lia.
Qed.

(** ** The trail *)

Lemma pushRandomChars_length (key : CharsetKey) (n : nat) :
  forall (tr : list Glyph) (k : nat),
  List.length (fst (pushRandomChars random key n tr k)) = (List.length tr + n)%nat.
Proof.
  induction n as [|n IH]; intros tr k; simpl; [lia |].
  unfold bind. destruct (getRandomChar random key k) as [g k1].
  rewrite IH, length_app. simpl. lia.
Qed.

Lemma unshiftPop_length (g : Glyph) (n : nat) (tr : list Glyph) :
  (List.length tr <= n)%nat -> (List.length (unshiftPop g n tr) <= n)%nat.
Proof.
  intros H. unfold unshiftPop.
  destruct (n <? List.length (g :: tr))%nat eqn:E.
  - apply Nat.ltb_lt in E. simpl in E.
    assert (Hl : List.length (removelast (g :: tr)) = List.length tr).
    { destruct (@exists_last _ (g :: tr)) as (l' & a & El); [discriminate |].
      rewrite El, removelast_last.
      apply (f_equal (@List.length Glyph)) in El.
      rewrite length_app in El. simpl in El. lia. }
    rewrite Hl. exact H.
  - apply Nat.ltb_ge in E. exact E.
Qed.

Lemma newDrop_trail (c : Core.t) (w : R) (index : option Z) (k : nat) :
  Drop.trail (fst (newDrop random c w index k)) = []
  /\ Drop.trailLength (fst (newDrop random c w index k)) = 8%nat.
Proof. split; reflexivity. Qed.

Lemma prefillTrail_ok (c : Core.t) (d : Drop.t) (k : nat) :
  Drop.trail d = [] /\ Drop.trailLength d = 8%nat ->
  trail_ok (fst (prefillTrail random c d k))
  /\ List.length (Drop.trail (fst (prefillTrail random c d k))) = 8%nat.
Proof.
  intros [Ht Hl]. unfold prefillTrail, bind.
  pose proof (pushRandomChars_length (Core.currentCharset c) (Drop.trailLength d)
                (Drop.trail d) k) as H.
  destruct (pushRandomChars random _ _ _ k) as [tr k1]. simpl in *.
  rewrite Ht, Hl in H. simpl in H. unfold trail_ok. simpl. rewrite H, Hl. lia.
Qed.

Lemma initDrops_trail_ok (c : Core.t) (w : R) (k : nat) :
  Forall trail_ok (Core.drops (fst (initDrops random c w k))).
Proof.
  unfold initDrops, bind.
  destruct (selectIndices random _ _ k) as [sel k1].
  pose proof (mapM_Forall (newDrop random c w) (fun _ => True)
                (fun d => Drop.trail d = [] /\ Drop.trailLength d = 8%nat)
                (fun a k _ => newDrop_trail c w a k) sel k1) as H1.
  destruct (mapM (newDrop random c w) sel k1) as [ds k2].
  pose proof (mapM_Forall (prefillTrail random c) _ trail_ok
                (fun a k H => proj1 (prefillTrail_ok c a k H)) ds k2) as H2.
  destruct (mapM (prefillTrail random c) ds k2) as [ds' k3]. simpl in *.
  apply H2, H1. apply Forall_forall. auto.
Qed.

Lemma refreshChar_trail_ok (c : Core.t) (d : Drop.t) (k : nat) :
  trail_ok d -> trail_ok (fst (refreshChar random c d k)).
Proof.
  intros [Hlen H8]. unfold refreshChar.
  destruct (Drop.updateInterval d <=? Drop.updateCounter d + 1)%Z.
  - unfold bind. destruct (getRandomChar random _ k) as [g k1]. simpl.
    split; simpl; [apply unshiftPop_length, Hlen | exact H8].
  - split; assumption.
Qed.

Lemma moveDrop_trail_ok (c : Core.t) (h : R) (d : Drop.t) (k : nat) :
  trail_ok d -> trail_ok (fst (moveDrop random c h d k)).
Proof.
  intros [Hlen H8]. unfold moveDrop.
  destruct (num_gt (Drop.y d + Drop.speed d) h).
  - unfold bind, Math_random. destruct (getRandomChar random _ _) as [g k1]. simpl.
    split; simpl; [lia | exact H8].
  - split; assumption.
Qed.

Lemma drawOneDrop_trail_ok (c : Core.t) (h : R) (a : bool) (d : Drop.t) (k : nat) :
  trail_ok d -> trail_ok (fst (fst (drawOneDrop random c h a d k))).
Proof.
  intros H. unfold drawOneDrop. destruct a; [| exact H].
  unfold bind.
  pose proof (refreshChar_trail_ok c d k H) as H1.
  destruct (refreshChar random c d k) as [d1 k1]. simpl in H1.
  pose proof (moveDrop_trail_ok c h d1 k1 H1) as H2.
  destruct (moveDrop random c h d1 k1) as [d2 k2]. exact H2.
Qed.

Lemma drawDrops_trail_ok (c : Core.t) (h : R) (a : bool) (k : nat) :
  Forall trail_ok (Core.drops c) ->
  Forall trail_ok (Core.drops (fst (fst (drawDrops random c h a k)))).
Proof.
  intros H. unfold drawDrops, bind.
  pose proof (mapM_Forall (drawOneDrop random c h a) trail_ok
                (fun r => trail_ok (fst r))
                (fun d k => drawOneDrop_trail_ok c h a d k) (Core.drops c) k H) as H1.
  destruct (mapM (drawOneDrop random c h a) (Core.drops c) k) as [rs k1]. simpl in *.
  apply Forall_map. exact H1.
Qed.

Lemma randomChars_length (key : CharsetKey) (n k : nat) :
  List.length (fst (randomChars random key n k)) = n.
Proof. unfold randomChars. rewrite mapM_length. apply repeat_length. Qed.

Lemma respeedDrop_trail_ok (v : R) (d : Drop.t) (k : nat) :
  trail_ok d -> trail_ok (fst (respeedDrop random v d k)).
Proof. intros H. exact H. Qed.

Lemma recharDrop_trail_ok (key : CharsetKey) (d : Drop.t) (k : nat) :
  trail_ok d -> trail_ok (fst (recharDrop random key d k)).
Proof.
  intros [Hlen H8]. unfold recharDrop, bind.
  destruct (getRandomChar random key k) as [g k1].
  pose proof (randomChars_length key (Drop.trailLength d) k1) as H.
  destruct (randomChars random key (Drop.trailLength d) k1) as [tr k2]. simpl in *.
  split; simpl; [lia | exact H8].
Qed.

Lemma applySpeed_trail_ok (config : Config.t) (c : Core.t) (k : nat) :
  Forall trail_ok (Core.drops c) ->
  Forall trail_ok (Core.drops (fst (applySpeed random config c k))).
Proof.
  intros H. unfold applySpeed. destruct (Config.speed config) as [v|]; [| exact H].
  unfold bind.
  pose proof (mapM_Forall (respeedDrop random v) trail_ok trail_ok
                (respeedDrop_trail_ok v) (Core.drops c) k H) as H1.
  destruct (mapM (respeedDrop random v) (Core.drops c) k). exact H1.
Qed.

Lemma applyCharset_trail_ok (config : Config.t) (c : Core.t) (k : nat) :
  Forall trail_ok (Core.drops c) ->
  Forall trail_ok (Core.drops (fst (applyCharset random config c k))).
Proof.
  intros H. unfold applyCharset.
  destruct (Config.currentCharset config) as [v|]; [| exact H].
  unfold bind.
  pose proof (mapM_Forall (recharDrop random v) trail_ok trail_ok
                (recharDrop_trail_ok v) (Core.drops c) k H) as H1.
  destruct (mapM (recharDrop random v) (Core.drops c) k). exact H1.
Qed.

Lemma updateConfig_trail_ok (c : Core.t) (config : Config.t) (k : nat) :
  Forall trail_ok (Core.drops c) ->
  Forall trail_ok (Core.drops (fst (updateConfig random c config k))).
Proof.
  intros H. unfold updateConfig, bind.
  assert (H2 : Forall trail_ok
                 (Core.drops (applyDensity config (applyFontSize config c)))).
  { unfold applyDensity, applyFontSize.
    destruct (Config.density config), (Config.fontSize config); exact H. }
  pose proof (applySpeed_trail_ok config _ k H2) as H3.
  destruct (applySpeed random config _ k) as [c3 k3]. simpl in H3.
  pose proof (applyCharset_trail_ok config c3 k3 H3) as H4.
  destruct (applyCharset random config c3 k3) as [c4 k4]. simpl in *.
  unfold applyTheme. destruct (Config.currentTheme config); exact H4.
Qed.

Lemma runCall_trail_ok (c : Core.t) (call : CoreCall) (k : nat) :
  Forall trail_ok (Core.drops c) ->
  Forall trail_ok (Core.drops (fst (runCall random c call k))).
Proof.
  intros H. destruct call as [w | h a | config]; simpl.
  - apply initDrops_trail_ok.
  - unfold bind. pose proof (drawDrops_trail_ok c h a k H) as H1.
    destruct (drawDrops random c h a k) as [r k1]. exact H1.
  - apply updateConfig_trail_ok, H.
Qed.

Lemma unshiftPop_eq (g : Glyph) (tr : list Glyph) :
  (List.length tr <= 8)%nat ->
  unshiftPop g 8 tr
  = g :: (if (List.length tr =? 8)%nat then removelast tr else tr).
Proof.
  intros H. unfold unshiftPop. simpl List.length.
  destruct (List.length tr =? 8)%nat eqn:E.
  - apply Nat.eqb_eq in E. rewrite E. simpl Nat.ltb.
    destruct tr as [|t tr]; [discriminate | reflexivity].
  - apply Nat.eqb_neq in E.
    replace (8 <? S (List.length tr))%nat with false
      by (symmetry; apply Nat.ltb_ge; lia).
    reflexivity.
Qed.

(** C6.  After [initDrops] followed by any sequence of [drawDrops] ticks,
    [updateConfig] calls and further [initDrops] calls, every drop has
    [trailLength = 8] and a trail of at most 8 entries.  The character update
    that is due puts the current character at the front of the trail and,
    when the trail was full, drops its last (oldest) entry. *)
Theorem trail_length_bounded (canvasWidth : R) (calls : list CoreCall) (k : nat) :
  Forall (fun d => (List.length (Drop.trail d) <= 8)%nat /\ Drop.trailLength d = 8%nat)
         (Core.drops (fst (runCalls random MatrixRainCore
                                    (callInitDrops canvasWidth :: calls) k)))
  /\ (forall c d k',
        (List.length (Drop.trail d) <= 8)%nat -> Drop.trailLength d = 8%nat ->
        (Drop.updateInterval d <= Drop.updateCounter d + 1)%Z ->
        Drop.trail (fst (refreshChar random c d k'))
        = Drop.currentChar d
            :: (if (List.length (Drop.trail d) =? 8)%nat
                then removelast (Drop.trail d) else Drop.trail d)).
Proof.
  split.
  - assert (G : forall calls c k, Forall trail_ok (Core.drops c) ->
                Forall trail_ok (Core.drops (fst (runCalls random c calls k)))).
    { clear. intros calls. induction calls as [|call calls IH]; intros c k H; simpl.
      - exact H.
      - unfold bind. pose proof (runCall_trail_ok c call k H) as H1.
        destruct (runCall random c call k) as [c' k']. apply IH, H1. }
    eapply Forall_impl; [| apply G; constructor].
    intros d [Hlen H8]. split; [lia | exact H8].
  - intros c d k' Hlen H8 Hdue. unfold refreshChar.
    apply Z.leb_le in Hdue. rewrite Hdue. cbn [fst bind ret Drop.trail].
    rewrite H8. apply unshiftPop_eq, Hlen.
Qed.

(** ** Random characters *)

Lemma CHARSETS_nonempty (key : CharsetKey) : (0 < List.length (CHARSETS key))%nat.
Proof. destruct key; simpl; lia. Qed.

Lemma getRandomChar_eq (key : CharsetKey) (k : nat) :
  getRandomChar random key k
  = (charAt (CHARSETS key) (Math_floor (random k * INR (List.length (CHARSETS key)))), S k).
Proof. reflexivity. Qed.

(** A random character of a charset is a character of that charset. *)
Lemma charAt_random (key : CharsetKey) (k : nat) :
  exists g,
    charAt (CHARSETS key) (Math_floor (random k * INR (List.length (CHARSETS key)))) = Some g
    /\ In g (CHARSETS key).
Proof.
  pose proof (CHARSETS_nonempty key) as Hne.
  assert (Hidx : (0 <= Math_floor (random k * INR (List.length (CHARSETS key)))
                  < Z.of_nat (List.length (CHARSETS key)))%Z).
  { rewrite INR_length_IZR. apply floor_scaled_range; [apply random_range | lia]. }
  unfold charAt.
  destruct (Math_floor _ <? 0)%Z eqn:E; [lia |].
  destruct (nth_error (CHARSETS key) (Z.to_nat (Math_floor
              (random k * INR (List.length (CHARSETS key)))))) as [g|] eqn:Eg.
  - exists g. split; [reflexivity |]. eapply nth_error_In, Eg.
  - apply nth_error_None in Eg. lia.
Qed.

Lemma interval_range (r : R) :
  0 <= r < 1 -> (3 <= Math_floor (r * 4) + 3 <= 6)%Z.
Proof.
  intros Hr. pose proof (floor_scaled_range r 4 Hr ltac:(lia)). lia.
Qed.

(** ** The reset of a drop *)

Lemma refreshChar_keeps (c : Core.t) (d : Drop.t) (k : nat) :
  let d1 := fst (refreshChar random c d k) in
  Drop.y d1 = Drop.y d /\ Drop.speed d1 = Drop.speed d
  /\ Drop.trailLength d1 = Drop.trailLength d /\ Drop.xIndex d1 = Drop.xIndex d.
Proof.
  unfold refreshChar.
  destruct (Drop.updateInterval d <=? Drop.updateCounter d + 1)%Z; simpl; auto.
Qed.



Lemma drawDrops_nth_error (c : Core.t) (h : R) (a : bool) (k i : nat) (d : Drop.t) :
  nth_error (Core.drops c) i = Some d ->
  exists k',
    nth_error (Core.drops (fst (fst (drawDrops random c h a k)))) i
    = Some (fst (fst (drawOneDrop random c h a d k'))).
Proof.
  intros H. unfold drawDrops, bind.
  destruct (mapM_nth_error (drawOneDrop random c h a) (Core.drops c) k i d H) as [k' E].
  destruct (mapM (drawOneDrop random c h a) (Core.drops c) k) as [rs k1].
  simpl in *. exists k'. rewrite nth_error_map, E. reflexivity.
Qed.


(** ** Paused frames *)

Lemma drawDrops_paused (c : Core.t) (h : R) (k : nat) :
  drawDrops random c h false k = ((c, concat (map (drawDrop c) (Core.drops c))), k).
Proof.
  unfold drawDrops, bind.
  rewrite (mapM_pure (drawOneDrop random c h false) (fun d => (d, drawDrop c d)))
    by reflexivity.
  unfold ret. rewrite !map_map. simpl. rewrite map_id.
  destruct c; reflexivity.
Qed.

Lemma renderParticle_paused (tp : string) (ps : list Particle.t) :
  map fst (map (renderParticle tp false) ps) = ps.
Proof. rewrite map_map. simpl. apply map_id. Qed.

Lemma renderEffect_paused (tp : string) (fs : R) (cs : CharsetKey) (e : Effect.t) (k : nat) :
  fst (fst (renderEffect random tp fs cs false e k)) = Some e.
Proof.
  unfold renderEffect. destruct (Effect.type e) eqn:Et; simpl; try reflexivity.
  - destruct (Effect.particles e) as [ps|] eqn:Ep; simpl; [| reflexivity].
    rewrite renderParticle_paused. unfold setParticles. rewrite <- Ep.
    destruct e; reflexivity.
  - unfold bind. destruct (drawFollowers random tp cs e _ _ _ k). reflexivity.
Qed.

Lemma replaceAt_same {A} (i : nat) (a : A) (l : list A) :
  nth_error l i = Some a -> replaceAt i a l = l.
Proof.
  intros H. unfold replaceAt.
  apply nth_error_split in H as (l1 & l2 & -> & <-).
  assert (Hs : skipn (S (List.length l1)) (l1 ++ a :: l2) = l2).
  { rewrite skipn_app, (skipn_all2 l1) by lia.
    replace (S (List.length l1) - List.length l1)%nat with 1%nat by lia. reflexivity. }
  rewrite Hs, firstn_app, Nat.sub_diag, firstn_all. simpl. now rewrite app_nil_r.
Qed.

Lemma effectsLoop_paused (tp : string) (fs : R) (cs : CharsetKey) (i : nat) :
  forall (effs : list Effect.t) (k : nat),
  fst (fst (effectsLoop random tp fs cs false i effs k)) = effs.
Proof.
  induction i as [|i IH]; intros effs k; simpl; [reflexivity |].
  destruct (nth_error effs i) as [e|] eqn:E; [| apply IH].
  unfold bind.
  pose proof (renderEffect_paused tp fs cs e k) as H.
  destruct (renderEffect random tp fs cs false e k) as [[kept ops] k1].
  simpl in H. subst kept. simpl. rewrite (replaceAt_same i e effs E).
  specialize (IH effs k1).
  destruct (effectsLoop random tp fs cs false i effs k1) as [[effs' ops'] k2].
  exact IH.
Qed.

Lemma renderEffects_paused (r : Renderer.t) (fs : R) (cs : CharsetKey) (k : nat) :
  fst (fst (renderEffects random r fs cs false k)) = r.
Proof.
  unfold renderEffects, bind.
  pose proof (effectsLoop_paused (primary (THEMES (Renderer.currentTheme r))) fs cs
                (List.length (Renderer.effects r)) (Renderer.effects r) k) as H.
  destruct (effectsLoop random _ fs cs false _ (Renderer.effects r) k) as [[effs ops] k1].
  simpl in *. subst effs. destruct r; reflexivity.
Qed.

(** Apart from the random characters of followers, a paused draw of an
    effect reads nothing from the random stream. *)
Lemma renderEffect_paused_still (tp : string) (fs : R) (cs : CharsetKey) (e : Effect.t) :
  Effect.type e <> follow ->
  forall k k',
  renderEffect random tp fs cs false e k'
  = (fst (renderEffect random tp fs cs false e k), k').
Proof.
  intros Ht k k'. unfold renderEffect.
  destruct (Effect.type e); try reflexivity.
  - simpl. destruct (Effect.particles e); reflexivity.
  - contradiction.
Qed.

Lemma effectsLoop_paused_still (tp : string) (fs : R) (cs : CharsetKey)
    (effs : list Effect.t) :
  Forall (fun e => Effect.type e <> follow) effs ->
  forall i k k',
  effectsLoop random tp fs cs false i effs k'
  = (fst (effectsLoop random tp fs cs false i effs k), k').
Proof.
  intros Hf. induction i as [|i IH]; intros k k'; simpl; [reflexivity |].
  destruct (nth_error effs i) as [e|] eqn:E; [| apply IH].
  assert (He : Effect.type e <> follow).
  { apply nth_error_In in E. revert e E. now apply Forall_forall. }
  unfold bind.
  rewrite (renderEffect_paused_still tp fs cs e He k k').
  pose proof (renderEffect_paused tp fs cs e k) as Hk.
  destruct (renderEffect random tp fs cs false e k) as [[kept ops] k1].
  simpl in Hk. subst kept. cbn [fst snd]. rewrite (replaceAt_same i e effs E).
  rewrite (IH k1 k').
  destruct (effectsLoop random tp fs cs false i effs k1) as [[effs' ops'] k2].
  reflexivity.
Qed.

(** The glyphs of a follower are the only thing a paused draw takes from
    the random stream: with the characters left out, what is drawn does not
    depend on the position in the stream. *)
Lemma drawFollowers_blank (tp : string) (cs : CharsetKey) (e : Effect.t)
    (alpha : R) (n : Z) (js : list nat) :
  forall k k',
  map blankGlyph (fst (drawFollowers random tp cs e alpha n js k'))
  = map blankGlyph (fst (drawFollowers random tp cs e alpha n js k)).
Proof.
  induction js as [|j js IH]; intros k k'; [reflexivity |].
  simpl drawFollowers.
  destruct (num_le (alpha * (1 - INR j / IZR n)) 0); [apply IH |].
  unfold bind. rewrite !getRandomChar_eq.
  specialize (IH (S k) (S k')).
  destruct (drawFollowers random tp cs e alpha n js (S k')) as [ops' k1'].
  destruct (drawFollowers random tp cs e alpha n js (S k)) as [ops k1].
  cbn [fst ret map blankGlyph] in *. now rewrite IH.
Qed.

Lemma renderEffect_paused_blank (tp : string) (fs : R) (cs : CharsetKey) (e : Effect.t) :
  forall k k',
  map blankGlyph (snd (fst (renderEffect random tp fs cs false e k')))
  = map blankGlyph (snd (fst (renderEffect random tp fs cs false e k))).
Proof.
  intros k k'.
  destruct (Effect.type e) eqn:Et;
    try (rewrite (renderEffect_paused_still tp fs cs e ltac:(rewrite Et; discriminate) k k');
         reflexivity).
  unfold renderEffect. rewrite Et. cbn [andb]. unfold bind.
  pose proof (drawFollowers_blank tp cs e (Effect.life e / Effect.maxLife e)
                (followerCountOr10 e) (seq 0 (Z.to_nat (followerCountOr10 e))) k k') as H.
  destruct (drawFollowers random tp cs e _ _ _ k') as [ops' k1'].
  destruct (drawFollowers random tp cs e _ _ _ k) as [ops k1].
  exact H.
Qed.

Lemma effectsLoop_paused_blank (tp : string) (fs : R) (cs : CharsetKey)
    (effs : list Effect.t) :
  forall i k k',
  map blankGlyph (snd (fst (effectsLoop random tp fs cs false i effs k')))
  = map blankGlyph (snd (fst (effectsLoop random tp fs cs false i effs k))).
Proof.
  induction i as [|i IH]; intros k k'; simpl; [reflexivity |].
  destruct (nth_error effs i) as [e|] eqn:E; [| apply IH].
  unfold bind.
  pose proof (renderEffect_paused tp fs cs e k) as Hk.
  pose proof (renderEffect_paused tp fs cs e k') as Hk'.
  pose proof (renderEffect_paused_blank tp fs cs e k k') as Hb.
  destruct (renderEffect random tp fs cs false e k) as [[kept ops] k1].
  destruct (renderEffect random tp fs cs false e k') as [[kept' ops'] k1'].
  cbn [fst snd] in *. subst kept kept'. rewrite (replaceAt_same i e effs E).
  specialize (IH k1 k1').
  destruct (effectsLoop random tp fs cs false i effs k1) as [[effs1 rest] k2].
  destruct (effectsLoop random tp fs cs false i effs k1') as [[effs1' rest'] k2'].
  cbn [fst snd ret] in *. now rewrite !map_app, Hb, IH.
Qed.

(** C4 (amended).  With [isAnimating = false], [drawDrops] returns the core
    exactly as it was, reads nothing from the random stream and performs the
    drawing operations that the unchanged drops determine, so a repeated call
    draws the same; [renderEffects] returns the effect collection exactly as
    it was; what it draws is the same at every call but for the characters of
    [fillText], and an effect that is not a follower is drawn the same,
    characters included, so that a collection without followers is redrawn
    identically: the characters of follower glyphs alone are taken from the
    random stream at every draw.  After any number of paused frames both
    objects are as at the start. *)
Theorem paused_calls_mutate_nothing (c : Core.t) (r : Renderer.t)
    (canvasHeight fontSize : R) (charset : CharsetKey) (n k : nat) :
  drawDrops random c canvasHeight false k
    = ((c, concat (map (drawDrop c) (Core.drops c))), k)
  /\ fst (fst (renderEffects random r fontSize charset false k)) = r
  /\ (forall k',
      map blankGlyph (snd (fst (renderEffects random r fontSize charset false k')))
      = map blankGlyph (snd (fst (renderEffects random r fontSize charset false k))))
  /\ (forall (e : Effect.t) (tp : string) (k' : nat),
      Effect.type e <> follow ->
      renderEffect random tp fontSize charset false e k'
      = (fst (renderEffect random tp fontSize charset false e k), k'))
  /\ (Forall (fun e => Effect.type e <> follow) (Renderer.effects r) ->
      forall k',
      renderEffects random r fontSize charset false k'
      = (fst (renderEffects random r fontSize charset false k), k'))
  /\ fst (pausedFrames random n c r canvasHeight fontSize charset k) = (c, r).
Proof.
  split; [apply drawDrops_paused | split; [apply renderEffects_paused |]].
  split; [| split; [| split]].
  - intros k'. unfold renderEffects, bind.
    pose proof (effectsLoop_paused_blank (primary (THEMES (Renderer.currentTheme r)))
                  fontSize charset (Renderer.effects r)
                  (List.length (Renderer.effects r)) k k') as H.
    destruct (effectsLoop random _ fontSize charset false _ _ k) as [[effs ops] k1].
    destruct (effectsLoop random _ fontSize charset false _ _ k') as [[effs' ops'] k1'].
    exact H.
  - intros e tp k' He. now apply renderEffect_paused_still.
  - intros Hf k'. unfold renderEffects, bind.
    rewrite (effectsLoop_paused_still _ fontSize charset _ Hf _ k k').
    destruct (effectsLoop random _ fontSize charset false _ _ k) as [[effs ops] k1].
    reflexivity.
  - revert k. induction n as [|n IH]; intros k; simpl; [reflexivity |].
    unfold bind. rewrite drawDrops_paused.
    pose proof (renderEffects_paused r fontSize charset k) as H.
    destruct (renderEffects random r fontSize charset false k) as [[r' ops] k1].
    simpl in *. subst r'. apply IH.
Qed.

(** ** A change of charset *)

Lemma getRandomChar_inCharset (key : CharsetKey) (k : nat) :
  inCharset key (fst (getRandomChar random key k)).
Proof. rewrite getRandomChar_eq. apply charAt_random. Qed.

Lemma randomChars_inCharset (key : CharsetKey) (n k : nat) :
  Forall (inCharset key) (fst (randomChars random key n k)).
Proof.
  unfold randomChars.
  apply (mapM_Forall (fun _ : nat => getRandomChar random key) (fun _ => True)).
  - intros _ k' _. apply getRandomChar_inCharset.
  - apply Forall_forall. auto.
Qed.

Lemma inCharset_bin (t : Glyph) : inCharset bin t -> t = Some "0" \/ t = Some "1".
Proof.
  intros (g & -> & Hg). simpl in Hg.
  destruct Hg as [<- | [<- | []]]; auto.
Qed.

Lemma recharDrop_recharged (key : CharsetKey) (d : Drop.t) (k : nat) :
  recharged key (fst (recharDrop random key d k)).
Proof.
  unfold recharDrop, bind.
  pose proof (getRandomChar_inCharset key k) as Hg.
  destruct (getRandomChar random key k) as [g k1].
  pose proof (randomChars_inCharset key (Drop.trailLength d) k1) as Ht.
  pose proof (randomChars_length key (Drop.trailLength d) k1) as Hl.
  destruct (randomChars random key (Drop.trailLength d) k1) as [tr k2].
  repeat split; assumption.
Qed.

Lemma recharDrop_keeps (key : CharsetKey) (d : Drop.t) (k : nat) :
  Drop.xIndex (fst (recharDrop random key d k)) = Drop.xIndex d
  /\ Drop.y (fst (recharDrop random key d k)) = Drop.y d.
Proof.
  unfold recharDrop, bind.
  destruct (getRandomChar random key k) as [g k1].
  destruct (randomChars random key (Drop.trailLength d) k1) as [tr k2].
  split; reflexivity.
Qed.

Lemma applySpeed_keeps (config : Config.t) (c : Core.t) (k : nat) :
  map Drop.xIndex (Core.drops (fst (applySpeed random config c k)))
    = map Drop.xIndex (Core.drops c)
  /\ map Drop.y (Core.drops (fst (applySpeed random config c k)))
     = map Drop.y (Core.drops c).
Proof.
  unfold applySpeed. destruct (Config.speed config) as [v|]; [| split; reflexivity].
  unfold bind.
  pose proof (mapM_map (respeedDrop random v) Drop.xIndex Drop.xIndex
                (fun _ _ => eq_refl) (Core.drops c) k) as Hx.
  pose proof (mapM_map (respeedDrop random v) Drop.y Drop.y
                (fun _ _ => eq_refl) (Core.drops c) k) as Hy.
  destruct (mapM (respeedDrop random v) (Core.drops c) k). split; assumption.
Qed.

Lemma applyCharset_some (config : Config.t) (key : CharsetKey) (c : Core.t) (k : nat) :
  Config.currentCharset config = Some key ->
  let c' := fst (applyCharset random config c k) in
  Core.currentCharset c' = key
  /\ map Drop.xIndex (Core.drops c') = map Drop.xIndex (Core.drops c)
  /\ map Drop.y (Core.drops c') = map Drop.y (Core.drops c)
  /\ Forall (recharged key) (Core.drops c').
Proof.
  intros E. unfold applyCharset. rewrite E. unfold bind.
  pose proof (mapM_map (recharDrop random key) Drop.xIndex Drop.xIndex
                (fun d k => proj1 (recharDrop_keeps key d k)) (Core.drops c) k) as Hx.
  pose proof (mapM_map (recharDrop random key) Drop.y Drop.y
                (fun d k => proj2 (recharDrop_keeps key d k)) (Core.drops c) k) as Hy.
  pose proof (mapM_Forall (recharDrop random key) (fun _ => True) (recharged key)
                (fun d k _ => recharDrop_recharged key d k) (Core.drops c) k) as Hr.
  destruct (mapM (recharDrop random key) (Core.drops c) k) as [ds k1]. simpl in *.
  repeat split; auto. apply Hr, Forall_forall. auto.
Qed.

Lemma refreshChar_due (c : Core.t) (d : Drop.t) (k : nat) :
  Drop.updateCounter d = Drop.updateInterval d ->
  Drop.updateCounter (fst (refreshChar random c d k)) = 0%Z
  /\ Drop.trail (fst (refreshChar random c d k))
     = unshiftPop (Drop.currentChar d) (Drop.trailLength d) (Drop.trail d).
Proof.
  intros E. unfold refreshChar. rewrite E.
  replace (Drop.updateInterval d <=? Drop.updateInterval d + 1)%Z with true
    by (symmetry; apply Z.leb_le; lia).
  split; reflexivity.
Qed.

(** C7.  [updateConfig] with a [currentCharset] leaves, at the end of the
    call, the new charset in force and the same drops at the same columns and
    positions, each with a current character and a full trail
    ([trailLength] entries) of characters of the new charset, all in
    ['0', '1'] for charset [bin], and with
    [updateCounter = updateInterval], so that the character update of the
    next animating tick resets the counter and pushes the current character
    on the trail. *)
Theorem updateConfig_charset (c : Core.t) (config : Config.t) (key : CharsetKey) (k : nat) :
  Config.currentCharset config = Some key ->
  let c' := fst (updateConfig random c config k) in
  Core.currentCharset c' = key
  /\ map Drop.xIndex (Core.drops c') = map Drop.xIndex (Core.drops c)
  /\ map Drop.y (Core.drops c') = map Drop.y (Core.drops c)
  /\ Forall (fun d' =>
       inCharset key (Drop.currentChar d')
       /\ Forall (inCharset key) (Drop.trail d')
       /\ List.length (Drop.trail d') = Drop.trailLength d'
       /\ Drop.updateCounter d' = Drop.updateInterval d'
       /\ (key = bin ->
           (Drop.currentChar d' = Some "0" \/ Drop.currentChar d' = Some "1")
           /\ Forall (fun t => t = Some "0" \/ t = Some "1") (Drop.trail d'))
       /\ (forall k',
             Drop.updateCounter (fst (refreshChar random c' d' k')) = 0%Z
             /\ Drop.trail (fst (refreshChar random c' d' k'))
                = unshiftPop (Drop.currentChar d') (Drop.trailLength d') (Drop.trail d')))
     (Core.drops c').
Proof.
  intros E c'. unfold updateConfig, bind in c'.
  destruct (applySpeed_keeps config (applyDensity config (applyFontSize config c)) k)
    as [Hx3 Hy3].
  destruct (applySpeed random config _ k) as [c3 k3]. simpl in Hx3, Hy3.
  destruct (applyCharset_some config key c3 k3 E) as (Hk & Hx4 & Hy4 & Hr).
  destruct (applyCharset random config c3 k3) as [c4 k4]. simpl in *.
  assert (Hd : Core.drops c' = Core.drops c4)
    by (unfold c', applyTheme; destruct (Config.currentTheme config); reflexivity).
  assert (Hd0 : Core.drops (applyDensity config (applyFontSize config c)) = Core.drops c)
    by (unfold applyDensity, applyFontSize;
        destruct (Config.density config), (Config.fontSize config); reflexivity).
  rewrite Hd0 in Hx3, Hy3.
  split; [| split; [| split]].
  - unfold c', applyTheme. destruct (Config.currentTheme config); exact Hk.
  - rewrite Hd, Hx4. exact Hx3.
  - rewrite Hd, Hy4. exact Hy3.
  - rewrite Hd. eapply Forall_impl; [| exact Hr].
    intros d' (Hc & Ht & Hl & Hu).
    split; [exact Hc | split; [exact Ht | split; [exact Hl | split; [exact Hu | split]]]].
    + intros ->. split; [apply inCharset_bin, Hc |].
      eapply Forall_impl; [| exact Ht]. apply inCharset_bin.
    + intros k'. apply refreshChar_due, Hu.
Qed.

(** ** The effect layer *)

Lemma flat_map_seq_S {B} (f : nat -> list B) (a m : nat) :
  flat_map f (seq (S a) m) = flat_map (fun i => f (S i)) (seq a m).
Proof.
  rewrite <- seq_shift, flat_map_concat_map, map_map, <- flat_map_concat_map.
  reflexivity.
Qed.

Lemma follower_fade_sign (alpha : R) (n : Z) (j : nat) :
  (Z.of_nat j < n)%Z ->
  (0 < alpha -> 0 < alpha * (1 - INR j / IZR n))
  /\ (alpha <= 0 -> alpha * (1 - INR j / IZR n) <= 0).
Proof.
  intros Hj.
  assert (Hn : 0 < IZR n) by (apply IZR_lt; lia).
  assert (Hjn : INR j < IZR n) by (rewrite INR_IZR_INZ; apply IZR_lt; exact Hj).
  assert (H1 : 0 < 1 - INR j / IZR n).
  { apply Rlt_0_minus. apply Rmult_lt_reg_r with (IZR n); [exact Hn |].
    unfold Rdiv. rewrite Rmult_assoc, Rinv_l by lra. lra. }
  split; intros Ha; nra.
Qed.

(** With a positive effect-level fade every follower glyph is drawn, one
    random character each. *)
Lemma drawFollowers_positive (tp : string) (cs : CharsetKey) (e : Effect.t)
    (alpha : R) (n : Z) :
  0 < alpha ->
  forall (m a k : nat), (Z.of_nat (a + m) <= n)%Z ->
  drawFollowers random tp cs e alpha n (seq a m) k
  = (flat_map (fun i => followerOps random tp cs e alpha n (k + i) (a + i)) (seq 0 m),
     (k + m)%nat).
Proof.
  intros Ha m. induction m as [|m IH]; intros a k Hm.
  - simpl. now rewrite Nat.add_0_r.
  - simpl seq. simpl drawFollowers.
    destruct (follower_fade_sign alpha n a ltac:(lia)) as [Hpos _].
    apply Hpos, num_le_false in Ha. rewrite Ha.
    unfold bind. rewrite getRandomChar_eq.
    rewrite (IH (S a) (S k)) by lia.
    unfold ret. f_equal; [| lia].
    simpl flat_map. rewrite flat_map_seq_S.
    unfold followerOps at 2. simpl app. rewrite !Nat.add_0_r. do 2 f_equal.
    apply flat_map_ext. intros i.
    now rewrite <- !plus_n_Sm.
Qed.


(** The follow branch of the loop body. *)
Lemma renderEffect_follow (tp : string) (fs : R) (cs : CharsetKey) (a : bool)
    (e : Effect.t) (k : nat) :
  Effect.type e = follow ->
  let alpha := Effect.life e / Effect.maxLife e in
  let e1 := if a then setLife e (Effect.life e - 0.01) else e in
  renderEffect random tp fs cs a e k
  = if a && num_le alpha 0 then ((None, []), k)
    else
      let (ops, k') := drawFollowers random tp cs e1 alpha (followerCountOr10 e)
                         (seq 0 (Z.to_nat (followerCountOr10 e))) k in
      ((Some e1, ops), k').
Proof.
  intros Et alpha e1. unfold renderEffect. rewrite Et. fold alpha.
  destruct (a && num_le alpha 0); [reflexivity |].
  unfold bind.
  replace (followerCountOr10 (if a then setLife e (Effect.life e - 0.01) else e))
    with (followerCountOr10 e) by (destruct a; reflexivity).
  fold e1. destruct (drawFollowers random tp cs e1 alpha _ _ k). reflexivity.
Qed.

Lemma fade_positive (l m : R) : 0 < l -> 0 < m -> 0 < l / m.
Proof. intros. now apply Rdiv_lt_0_compat. Qed.

Lemma fade_nonpositive (l m : R) : l <= 0 -> 0 < m -> l / m <= 0.
Proof.
  intros Hl Hm. unfold Rdiv.
  assert (0 < / m) by now apply Rinv_0_lt_compat. nra.
Qed.

(** A follower effect that is alive is kept and drawn with
    [effect.followerCount || 10] glyphs. *)
Lemma renderEffect_follow_alive (tp : string) (fs : R) (cs : CharsetKey) (a : bool)
    (e : Effect.t) (k : nat) :
  Effect.type e = follow -> 0 < Effect.life e -> 0 < Effect.maxLife e ->
  (0 < followerCountOr10 e)%Z ->
  let alpha := Effect.life e / Effect.maxLife e in
  let e1 := if a then setLife e (Effect.life e - 0.01) else e in
  let n := followerCountOr10 e in
  renderEffect random tp fs cs a e k
  = ((Some e1,
      flat_map (fun j => followerOps random tp cs e alpha n (k + j) j) (seq 0 (Z.to_nat n))),
     (k + Z.to_nat n)%nat).
Proof.
  intros Et Hl Hm Hn alpha e1 n.
  rewrite renderEffect_follow by exact Et. fold alpha e1 n.
  assert (Ha : 0 < alpha) by (apply fade_positive; assumption).
  pose proof Ha as Ha'. apply num_le_false in Ha'. rewrite Ha', andb_false_r.
  rewrite (drawFollowers_positive tp cs e1 alpha n Ha) by (simpl; lia).
  f_equal. f_equal. apply flat_map_ext. intros j. simpl.
  unfold followerOps, e1. destruct a; reflexivity.
Qed.





(** ** Expiry *)

Lemma renderEffect_ripple (tp : string) (fs : R) (cs : CharsetKey) (a : bool)
    (e : Effect.t) (k : nat) :
  Effect.type e = ripple ->
  let alpha := Effect.life e / Effect.maxLife e in
  let e1 := if a then setRadius (setLife e (Effect.life e - 0.02)) (Effect.radius e + 3)
            else e in
  renderEffect random tp fs cs a e k
  = if a && num_le alpha 0 then ((None, []), k)
    else ((Some e1,
           [setStrokeStyle (withAlpha tp alpha); setLineWidth 2; beginPath;
            arc (Effect.x e1) (Effect.y e1) (Effect.radius e1) 0 (Math_PI * 2);
            stroke]), k).
Proof.
  intros Et alpha e1. unfold renderEffect. rewrite Et. fold alpha.
  destruct (a && num_le alpha 0); reflexivity.
Qed.

(** What an animating tick decides the removal on: the fade read at the
    start of the tick, before the decrement (and, for text, the payload). *)
Lemma renderEffect_removed_iff (tp : string) (fs : R) (cs : CharsetKey)
    (e : Effect.t) (k : nat) :
  fst (fst (renderEffect random tp fs cs true e k)) = None
  <-> (Effect.life e / Effect.maxLife e <= 0
       \/ (Effect.type e = text /\ noText (Effect.text e) = true)).
Proof.
  unfold renderEffect.
  destruct (Effect.type e) eqn:Et; simpl andb;
    destruct (num_le (Effect.life e / Effect.maxLife e) 0) eqn:Ea; simpl.
  all: try (apply num_le_true in Ea).
  all: try (apply num_le_false in Ea).
  all: try (split; [intros _; left; exact Ea | reflexivity]).
  all: try (split; [discriminate | intros [H | [H _]]; [lra | discriminate]]).
  - destruct (Effect.particles e); simpl;
      (split; [discriminate | intros [H | [H _]]; [lra | discriminate]]).
  - change (Effect.text (setLife e (Effect.life e - 0.015))) with (Effect.text e).
    destruct (noText (Effect.text e)); simpl.
    + split; [intros _; right; auto | reflexivity].
    + split; [discriminate | intros [H | [_ H]]; [lra | discriminate]].
  - unfold bind. destruct (drawFollowers random tp cs _ _ _ _ k). simpl.
    split; [discriminate | intros [H | [H _]]; [lra | discriminate]].
Qed.

Lemma effectsLoop_single (tp : string) (fs : R) (cs : CharsetKey) (a : bool)
    (e : Effect.t) (k : nat) :
  effectsLoop random tp fs cs a 1 [e] k
  = (let (r, k') := renderEffect random tp fs cs a e k in
     ((match fst r with Some e1 => [e1] | None => [] end, snd r ++ []), k')).
Proof.
  simpl. unfold bind. destruct (renderEffect random tp fs cs a e k) as [[kept ops] k'].
  simpl. destruct kept; reflexivity.
Qed.

(** ** The click burst *)

Lemma makeParticles_spec (x y : R) (cs : CharsetKey) (n : nat) :
  forall (m a k : nat),
  makeParticles random x y cs n (seq a m) k
  = (map (fun i => particleOf random x y cs n (k + 2 * i) (a + i)) (seq 0 m), (k + 2 * m)%nat).
Proof.
  induction m as [|m IH]; intros a k.
  - simpl. now rewrite Nat.add_0_r.
  - simpl seq. simpl makeParticles. unfold bind, Math_random.
    rewrite getRandomChar_eq, (IH (S a) (S (S k))). unfold ret.
    f_equal; [| lia].
    simpl map. rewrite <- seq_shift, map_map.
    rewrite !Nat.add_0_r. f_equal.
    apply map_ext. intros i.
    f_equal; lia.
Qed.

Lemma handleClick_eq (h : Handler.t) (x y : R) (cs : CharsetKey) (k : nat) :
  let n := particleCountOf isMobileDevice in
  handleClick random isMobileDevice h x y cs k
  = ((h, [Effect.mk x y explosion 1 1 10 None
            (Some (map (fun i => particleOf random x y cs n (k + 2 * i) i) (seq 0 n))) None]),
     (k + 2 * n)%nat).
Proof.
  intros n. unfold handleClick, bind. fold n.
  rewrite makeParticles_spec. reflexivity.
Qed.

Lemma particleCount_cases :
  particleCountOf isMobileDevice = 10%nat \/ particleCountOf isMobileDevice = 20%nat.
Proof. unfold particleCountOf. destruct isMobileDevice; auto. Qed.

(** The second particle of a burst of 10 or 20 rises or falls; the first
    does not. *)
Lemma second_particle_vy (n : nat) (s : R) :
  n = 10%nat \/ n = 20%nat -> 2 <= s ->
  0 < Math_sin ((Math_PI * 2 * INR 1) / INR n) * s.
Proof.
  intros Hn Hs. unfold Math_sin, Math_PI.
  pose proof PI_RGT_0 as Hpi.
  assert (0 < sin (PI * 2 * INR 1 / INR n)).
  { apply sin_gt_0; destruct Hn as [-> | ->]; simpl INR; lra. }
  nra.
Qed.

Lemma first_particle_vy (n : nat) (s : R) :
  Math_sin ((Math_PI * 2 * INR 0) / INR n) * s = 0.
Proof.
  unfold Math_sin, Math_PI. simpl INR.
  replace (PI * 2 * 0 / INR n) with 0 by (unfold Rdiv; ring).
  rewrite sin_0. ring.
Qed.

(** C8.  [handleClick(x, y, charset)] leaves the handler as it is and hands
    over exactly one effect: an [explosion] at [(x, y)] with
    [life = maxLife = 1] and [particleCount] particles (10 on a mobile
    device, 20 otherwise).  Particle [i] starts at [(x, y)] with
    [life = maxLife = 1], velocity [(cos(angle) * speed, sin(angle) * speed)]
    for [angle = 2 * PI * i / particleCount] and [speed = r * 5 + 2] with [r]
    a fresh random number, so [speed] in [[2, 7)], and a character of the
    charset (one of ['0', '1'] for [bin]).  Two of the particles differ in
    velocity. *)
Theorem handleClick_burst (h : Handler.t) (x y : R) (charset : CharsetKey) (k : nat) :
  let res := fst (handleClick random isMobileDevice h x y charset k) in
  let particleCount := if isMobileDevice then 10%nat else 20%nat in
  fst res = h
  /\ exists ps,
       snd res = [Effect.mk x y explosion 1 1 10 None (Some ps) None]
       /\ List.length ps = particleCount
       /\ (forall i, (i < particleCount)%nat ->
           exists p,
             nth_error ps i = Some p
             /\ let angle := (Math_PI * 2 * INR i) / INR particleCount in
                let speed := random (k + 2 * i) * 5 + 2 in
                2 <= speed < 7
                /\ Particle.vx p = Math_cos angle * speed
                /\ Particle.vy p = Math_sin angle * speed
                /\ Particle.x p = x /\ Particle.y p = y
                /\ Particle.life p = 1 /\ Particle.maxLife p = 1
                /\ inCharset charset (Particle.char p)
                /\ (charset = bin ->
                    Particle.char p = Some "0" \/ Particle.char p = Some "1"))
       /\ (exists p q,
             In p ps /\ In q ps
             /\ (Particle.vx p, Particle.vy p) <> (Particle.vx q, Particle.vy q)).
Proof.
  intros res particleCount.
  change particleCount with (particleCountOf isMobileDevice) in *.
  set (n := particleCountOf isMobileDevice) in *.
  unfold res. rewrite handleClick_eq. fold n. simpl fst. simpl snd.
  split; [reflexivity |].
  set (ps := map (fun i => particleOf random x y charset n (k + 2 * i) i) (seq 0 n)).
  assert (Hnth : forall i, (i < n)%nat ->
            nth_error ps i = Some (particleOf random x y charset n (k + 2 * i) i)).
  { intros i Hi. unfold ps. rewrite nth_error_map, nth_error_seq.
    apply Nat.ltb_lt in Hi. rewrite Hi. reflexivity. }
  exists ps. split; [reflexivity | split; [| split]].
  - unfold ps. now rewrite length_map, length_seq.
  - intros i Hi. eexists. split; [apply Hnth, Hi |].
    unfold particleOf.
    cbn [Particle.x Particle.y Particle.vx Particle.vy Particle.life Particle.maxLife
         Particle.char].
    pose proof (random_range (k + 2 * i)) as Hr.
    assert (Hc : inCharset charset
              (charAt (CHARSETS charset)
                 (Math_floor (random (S (k + 2 * i))
                              * INR (List.length (CHARSETS charset))))))
      by apply charAt_random.
    repeat match goal with |- _ /\ _ => split end; try reflexivity; try lra.
    + exact Hc.
    + intros ->. apply inCharset_bin, Hc.
  - pose proof particleCount_cases as Hn. fold n in Hn.
    assert (H0 : (0 < n)%nat) by (destruct Hn; lia).
    assert (H1 : (1 < n)%nat) by (destruct Hn; lia).
    exists (particleOf random x y charset n (k + 2 * 0) 0),
           (particleOf random x y charset n (k + 2 * 1) 1).
    split; [eapply nth_error_In, Hnth, H0 | split; [eapply nth_error_In, Hnth, H1 |]].
    unfold particleOf. cbn [Particle.vx Particle.vy]. intros E.
    apply (f_equal snd) in E. cbn [snd] in E.
    rewrite first_particle_vy in E.
    pose proof (random_range (k + 2 * 1)) as Hr.
    assert (Hs : 2 <= random (k + 2 * 1) * 5 + 2) by lra.
    pose proof (second_particle_vy n _ Hn Hs) as Hpos.
    lra.
Qed.

Lemma renderEffects_single (theme : ThemeKey) (fs : R) (cs : CharsetKey) (a : bool)
    (e : Effect.t) (k : nat) :
  renderEffects random (Renderer.mk [e] theme) fs cs a k
  = (let (r, k') := renderEffect random (primary (THEMES theme)) fs cs a e k in
     ((Renderer.mk (match fst r with Some e1 => [e1] | None => [] end) theme,
       snd r ++ []), k')).
Proof.
  unfold renderEffects, bind.
  cbn [Renderer.effects Renderer.currentTheme List.length].
  rewrite effectsLoop_single.
  destruct (renderEffect random _ fs cs a e k) as [r k']. reflexivity.
Qed.

End Properties.

(** * Concrete runs *)

Lemma random0_range : forall k, 0 <= random0 k < 1.
Proof. intros k. unfold random0. lra. Defined.

Lemma columnsOf_0 : columnsOf MatrixRainCore 0 = 0%Z.
Proof.
  unfold columnsOf. simpl Core.fontSize.
  replace (0 / 24) with 0 by lra. rewrite double_0.
  apply Math_ceil_eq. lra.
Qed.

(** [1000 / 24] is rounded to a double between 41 and 42. *)
Lemma columnsOf_1000 (d : R) : columnsOf (coreWithDensity d) 1000 = 42%Z.
Proof.
  unfold columnsOf. simpl Core.fontSize. apply Math_ceil_eq.
  pose proof (double_near (1000 / 24) ltac:(lra)) as [Hlo _].
  pose proof (double_le_Z (1000 / 24) 42 ltac:(lra) ltac:(lia)) as Hhi.
  lra.
Qed.

(** [2400 / 24] is 100 exactly. *)
Lemma columnsOf_2400 (d : R) : columnsOf (coreWithDensity d) 2400 = 100%Z.
Proof.
  unfold columnsOf. simpl Core.fontSize.
  replace (2400 / 24) with (IZR 100) by lra. rewrite double_Z by lia.
  apply Math_ceil_eq. lra.
Qed.

Lemma actualColumnsOf_0 : actualColumnsOf MatrixRainCore 0 = 1%Z.
Proof.
  unfold actualColumnsOf. rewrite columnsOf_0, Rmult_0_l, double_0.
  rewrite (Math_floor_eq 0); [reflexivity | lra].
Qed.

(** [42 * (101 / 100)] stays between 42 and 43 through both roundings. *)
Lemma actualColumnsOf_101 : actualColumnsOf (coreWithDensity 101) 1000 = 42%Z.
Proof.
  unfold actualColumnsOf. rewrite columnsOf_1000. simpl Core.density.
  pose proof (double_near (101 / 100) ltac:(lra)) as Hq.
  set (q := double (101 / 100)) in *.
  pose proof (double_near (42 * q) ltac:(lra)) as Hp.
  rewrite (Math_floor_eq 42); [reflexivity | lra].
Qed.

(** With 100 columns and density 29 the product [100 * (29 / 100)] is, in
    doubles, the double just below 29, and its floor is 28. *)
Lemma actualColumnsOf_29 : actualColumnsOf (coreWithDensity 29) 2400 = 28%Z.
Proof.
  unfold actualColumnsOf. rewrite columnsOf_2400. simpl Core.density.
  rewrite double_100_029.
  rewrite (Math_floor_eq 28); [reflexivity | lra].
Qed.

(** With 100 columns and density 115 the product [100 * (115 / 100)] is
    below 115 in doubles, and its floor is 114. *)
Lemma actualColumnsOf_115 : actualColumnsOf (coreWithDensity 115) 2400 = 114%Z.
Proof.
  unfold actualColumnsOf. rewrite columnsOf_2400. simpl Core.density.
  rewrite double_100_115.
  rewrite (Math_floor_eq 114); [reflexivity | lra].
Qed.

(** With cell size 24, width 2400 and density 115, [initDrops] makes 114
    drops, one fewer than [floor(100 * 115 / 100) = 115]. *)
Lemma initDrops_density_115_makes_114 :
  columnsOf (coreWithDensity 115) 2400 = 100%Z
  /\ Math_floor (100 * 115 / 100) = 115%Z
  /\ List.length (Core.drops (fst (initDrops random0 (coreWithDensity 115) 2400 0%nat)))
     = 114%nat.
Proof.
  split; [apply columnsOf_2400 | split].
  - apply Math_floor_eq. lra.
  - rewrite (initDrops_length random0 random0_range), actualColumnsOf_115. reflexivity.
Qed.

(** With cell size 24, width 2400 and density 29, [initDrops] makes 28
    drops, one fewer than [floor(100 * 29 / 100) = 29]. *)
Lemma initDrops_density_29_makes_28 :
  columnsOf (coreWithDensity 29) 2400 = 100%Z
  /\ Math_floor (100 * 29 / 100) = 29%Z
  /\ List.length (Core.drops (fst (initDrops random0 (coreWithDensity 29) 2400 0%nat)))
     = 28%nat.
Proof.
  split; [apply columnsOf_2400 | split].
  - apply Math_floor_eq. lra.
  - rewrite (initDrops_length random0 random0_range), actualColumnsOf_29. reflexivity.
Qed.

(** C3, counterexample.  With the default configuration (cell size 24,
    density 100) and surface width 0 there are no columns, yet [initDrops]
    makes one drop, and its column index is [undefined]: the drops do not
    have indices in [[0, columns)]. *)
Lemma initDrops_zero_width_counterexample :
  let c' := fst (initDrops random0 MatrixRainCore 0 0%nat) in
  let columns := Math_ceil (double (0 / Core.fontSize MatrixRainCore)) in
  0 < Core.fontSize MatrixRainCore
  /\ 0 < Core.density MatrixRainCore <= 100
  /\ columns = 0%Z
  /\ map Drop.xIndex (Core.drops c') = [None]
  /\ ~ (exists idxs,
          map Drop.xIndex (Core.drops c') = map Some idxs
          /\ NoDup idxs
          /\ Forall (fun i => (0 <= i < columns)%Z) idxs).
Proof.
  intros c' columns.
  assert (Hx : map Drop.xIndex (Core.drops c') = [None]).
  { destruct (initDrops_columns random0 random0_range MatrixRainCore 0 0%nat)
      as (picks & Hx & Hlen & _ & _).
    rewrite actualColumnsOf_0, columnsOf_0 in Hx, Hlen. simpl in Hx, Hlen.
    destruct picks; [exact Hx | discriminate]. }
  split; [simpl; lra | split; [simpl; lra | split; [exact columnsOf_0 | split]]].
  - exact Hx.
  - intros (idxs & E & _). rewrite Hx in E.
    destruct idxs as [|i idxs]; discriminate.
Qed.

(** C9, counterexample.  With density 101, cell size 24 and width 1000,
    [columns = 42] and [activeCount = 42], the floor of the double nearest to
    [42 * 1.01]: the density is above
    100 and [activeCount] is not above [columns]; all 42 drops have a defined
    column index. *)
Lemma initDrops_density_101_counterexample :
  let c := coreWithDensity 101 in
  let c' := fst (initDrops random0 c 1000 0%nat) in
  let columns := Math_ceil (double (1000 / Core.fontSize c)) in
  let activeCount :=
    Z.max 1 (Math_floor (double (IZR columns * double (Core.density c / 100)))) in
  100 < Core.density c
  /\ columns = 42%Z /\ activeCount = 42%Z
  /\ ~ (columns < activeCount)%Z
  /\ Forall (fun d => Drop.xIndex d <> None) (Core.drops c').
Proof.
  intros c c' columns activeCount.
  assert (Ec : columns = 42%Z) by apply (columnsOf_1000 101).
  assert (Ea : activeCount = 42%Z) by apply actualColumnsOf_101.
  split; [simpl; lra | split; [exact Ec | split; [exact Ea | split; [lia |]]]].
  destruct (initDrops_columns random0 random0_range c 1000 0%nat)
    as (picks & Hx & _).
  unfold c in Hx. rewrite actualColumnsOf_101, columnsOf_1000 in Hx.
  simpl repeat in Hx. rewrite app_nil_r in Hx. fold c c' in Hx.
  apply Forall_forall. intros d Hd E.
  apply (in_map Drop.xIndex) in Hd. rewrite Hx, E in Hd.
  apply in_map_iff in Hd as (i & Hi & _). discriminate.
Qed.


Lemma randomAlternating_range : forall k, 0 <= randomAlternating k < 1.
Proof. intros k. unfold randomAlternating. destruct (Nat.even k); lra. Defined.

(** One paused draw of a renderer that holds the follow effect of
    [createFollowEffect] with the pointer at its initial position, from
    position [k] of the alternating stream. *)
Lemma paused_follower_frame (k : nat) :
  renderEffects randomAlternating (addEffect EffectRenderer (followerAtOrigin (Some 15%Z)))
                24 bin false k
  = ((addEffect EffectRenderer (followerAtOrigin (Some 15%Z)),
      flat_map (fun j => followerOps randomAlternating "#00ff00" bin
                           (followerAtOrigin (Some 15%Z)) (1 / 1) 15 (k + j) j)
               (seq 0 15) ++ []),
     (k + 15)%nat).
Proof.
  change (addEffect EffectRenderer (followerAtOrigin (Some 15%Z)))
    with (Renderer.mk [followerAtOrigin (Some 15%Z)] green).
  rewrite renderEffects_single.
  rewrite (renderEffect_follow_alive randomAlternating (primary (THEMES green)) 24 bin
             false (followerAtOrigin (Some 15%Z)) k eq_refl)
    by (cbv [followerAtOrigin followerCountOr10 Effect.life Effect.maxLife
             Effect.followerCount Z.eqb]; first [lra | lia]).
  reflexivity.
Qed.

(** C4, counterexample.  A renderer holds the follow effect that
    [createFollowEffect] makes with the pointer at its initial position; the
    charset is 'bin' and [Math.random()] returns 0, 1/2, 0, 1/2, ...  Two
    paused draws in a row leave the renderer as it was, and the first glyph
    they draw is '0' the first time and '1' the second: the frozen frame is
    not redrawn identically. *)
Lemma paused_follower_redrawn_counterexample :
  let follower := followerAtOrigin (Some 15%Z) in
  let r := addEffect EffectRenderer follower in
  let frame1 := renderEffects randomAlternating r 24 bin false 0%nat in
  let frame2 :=
    renderEffects randomAlternating (fst (fst frame1)) 24 bin false (snd frame1) in
  snd (createFollowEffect InteractionHandler) = [follower]
  /\ fst (fst frame1) = r
  /\ fst (fst frame2) = r
  /\ nth_error (snd (fst frame1)) 1
     = Some (fillText (Some "0") (Some (0 + Math_sin (INR 0) * 10)) (0 + INR 0 * 15))
  /\ nth_error (snd (fst frame2)) 1
     = Some (fillText (Some "1") (Some (0 + Math_sin (INR 0) * 10)) (0 + INR 0 * 15))
  /\ snd (fst frame2) <> snd (fst frame1).
Proof.
  intros follower r frame1 frame2.
  assert (E1 : frame1 = ((r, flat_map (fun j => followerOps randomAlternating "#00ff00" bin
                                         follower (1 / 1) 15 (0 + j) j) (seq 0 15) ++ []),
                         15%nat))
    by apply (paused_follower_frame 0).
  assert (E2 : frame2 = ((r, flat_map (fun j => followerOps randomAlternating "#00ff00" bin
                                         follower (1 / 1) 15 (15 + j) j) (seq 0 15) ++ []),
                         30%nat)).
  { unfold frame2. rewrite E1. apply (paused_follower_frame 15). }
  assert (G1 : nth_error (snd (fst frame1)) 1
               = Some (fillText (Some "0") (Some (0 + Math_sin (INR 0) * 10)) (0 + INR 0 * 15))).
  { rewrite E1. cbn [fst snd seq flat_map app followerOps nth_error Nat.add
                     followerAtOrigin follower Effect.x Effect.y].
    do 2 f_equal. unfold randomAlternating. cbn [Nat.even CHARSETS CHARSET_bin List.length].
    rewrite (Math_floor_eq 0); [reflexivity | simpl; lra]. }
  assert (G2 : nth_error (snd (fst frame2)) 1
               = Some (fillText (Some "1") (Some (0 + Math_sin (INR 0) * 10)) (0 + INR 0 * 15))).
  { rewrite E2. cbn [fst snd seq flat_map app followerOps nth_error Nat.add
                     followerAtOrigin follower Effect.x Effect.y].
    do 2 f_equal. unfold randomAlternating. cbn [Nat.even CHARSETS CHARSET_bin List.length].
    rewrite (Math_floor_eq 1); [reflexivity | simpl; lra]. }
  split; [reflexivity | split; [now rewrite E1 | split; [now rewrite E2 |]]].
  split; [exact G1 | split; [exact G2 |]].
  intros E. rewrite E, G1 in G2. discriminate.
Qed.

(** C1, the code at the failing input.  A renderer holding one ripple with
    [life = 0.01], [maxLife = 1] runs an animating tick: the life goes to
    [0.01 - 0.02], so the fade after the decrement is not positive, and still
    the ripple is stroked in that tick and is in the collection when the tick
    ends; a paused frame then strokes it again.  It is the next animating
    tick that removes it, drawing nothing. *)
Theorem renderEffects_expired_ripple_drawn :
  let r := addEffect EffectRenderer dyingRipple in
  let tick1 := fst (renderEffects random0 r 24 en true 0%nat) in
  let paused := fst (renderEffects random0 (fst tick1) 24 en false 0%nat) in
  let tick2 := fst (renderEffects random0 (fst tick1) 24 en true 0%nat) in
  (exists e',
     Renderer.effects (fst tick1) = [e']
     /\ Effect.life e' = 0.01 - 0.02
     /\ Effect.life e' / Effect.maxLife e' <= 0)
  /\ In stroke (snd tick1)
  /\ In stroke (snd paused)
  /\ Renderer.effects (fst tick2) = []
  /\ snd tick2 = [].
Proof.
  intros r tick1 paused tick2.
  assert (E1 : tick1
           = (Renderer.mk [setRadius (setLife dyingRipple (0.01 - 0.02)) (5 + 3)] green,
              [setStrokeStyle (withAlpha "#00ff00" (0.01 / 1)); setLineWidth 2; beginPath;
               arc 100 100 (5 + 3) 0 (Math_PI * 2); stroke])).
  { unfold tick1. change r with (Renderer.mk [dyingRipple] green).
    rewrite renderEffects_single, renderEffect_ripple by reflexivity.
    cbn [andb Effect.life Effect.maxLife dyingRipple].
    replace (num_le (0.01 / 1) 0) with false
      by (symmetry; apply num_le_false; lra).
    reflexivity. }
  assert (E2 : tick2 = (Renderer.mk [] green, [])).
  { unfold tick2. rewrite E1. cbn [fst].
    rewrite renderEffects_single, renderEffect_ripple by reflexivity.
    cbn [andb Effect.life Effect.maxLife setRadius setLife dyingRipple].
    replace (num_le ((0.01 - 0.02) / 1) 0) with true
      by (symmetry; apply num_le_true; lra).
    reflexivity. }
  assert (Ep : In stroke (snd paused)).
  { unfold paused. rewrite E1. cbn [fst].
    rewrite renderEffects_single, renderEffect_ripple by reflexivity.
    cbn [andb fst snd]. rewrite app_nil_r. simpl. intuition. }
  rewrite E1, E2. simpl.
  split; [| split; [| split; [| split]]]; auto.
  - eexists. split; [reflexivity |]. simpl. split; [reflexivity | lra].
  - intuition.
Qed.

(** ** Witnesses *)

Lemma initDrops_distinct_columns_witness :
  (forall k, 0 <= random0 k < 1)
  /\ 0 < Core.fontSize MatrixRainCore
  /\ 0 < Core.density MatrixRainCore <= 100
  /\ (1 <= Math_ceil (double (1000 / Core.fontSize MatrixRainCore)) <= 4294967295)%Z
  /\ Z.of_nat (List.length (Core.drops (fst (initDrops random0 MatrixRainCore 1000 0%nat))))
     = 42%Z
  /\ (forall i, (0 <= i < 42)%Z ->
      In (Some i) (map Drop.xIndex
                       (Core.drops (fst (initDrops random0 MatrixRainCore 1000 0%nat)))))
  /\ 0 < Core.density (coreWithDensity 29) <= 100
  /\ (1 <= Math_ceil (double (2400 / Core.fontSize (coreWithDensity 29))) <= 4294967295)%Z
  /\ Z.of_nat (List.length
                 (Core.drops (fst (initDrops random0 (coreWithDensity 29) 2400 0%nat))))
     = 28%Z.
Proof.
  assert (H1 : 0 < Core.fontSize MatrixRainCore) by (simpl; lra).
  assert (H2 : 0 < Core.density MatrixRainCore <= 100) by (simpl; lra).
  assert (H3 : (1 <= Math_ceil (double (1000 / Core.fontSize MatrixRainCore))
                <= 4294967295)%Z).
  { change (Math_ceil (double (1000 / Core.fontSize MatrixRainCore)))
      with (columnsOf (coreWithDensity 100) 1000).
    rewrite columnsOf_1000. lia. }
  assert (H4 : 0 < Core.density (coreWithDensity 29) <= 100) by (simpl; lra).
  assert (H5 : (1 <= Math_ceil (double (2400 / Core.fontSize (coreWithDensity 29)))
                <= 4294967295)%Z).
  { change (Math_ceil (double (2400 / Core.fontSize (coreWithDensity 29))))
      with (columnsOf (coreWithDensity 29) 2400).
    rewrite columnsOf_2400. lia. }
  pose proof (initDrops_distinct_columns random0 random0_range MatrixRainCore 1000 0%nat
                H1 H2 H3) as H.
  pose proof (initDrops_distinct_columns random0 random0_range (coreWithDensity 29) 2400
                0%nat H1 H4 H5) as H'.
  cbv zeta in H, H'. destruct H as (Hn & _ & _ & _ & Hc & Hs). destruct H' as (Hn' & _).
  destruct (Hs eq_refl eq_refl eq_refl) as [Ec Ea].
  rewrite Ec in *. rewrite Ea in Hn, Hc.
  change (Z.max 1 (Math_floor
            (double (IZR (Math_ceil (double (2400 / Core.fontSize (coreWithDensity 29))))
                     * double (Core.density (coreWithDensity 29) / 100)))))
    with (actualColumnsOf (coreWithDensity 29) 2400) in Hn'.
  rewrite actualColumnsOf_29 in Hn'.
  split; [exact random0_range | split; [exact H1 | split; [exact H2 | split; [exact H3 |]]]].
  split; [exact Hn | split; [exact (Hc eq_refl) |]].
  split; [exact H4 | split; [exact H5 | exact Hn']].
Defined.

Lemma initDrops_overfull_density_witness :
  (forall k, 0 <= random0 k < 1)
  /\ 0 < Core.fontSize (coreWithDensity 115)
  /\ 100 < Core.density (coreWithDensity 115)
  /\ columnsOf (coreWithDensity 115) 2400 = 100%Z
  /\ actualColumnsOf (coreWithDensity 115) 2400 = 114%Z
  /\ Z.of_nat (List.length
                 (Core.drops (fst (initDrops random0 (coreWithDensity 115) 2400 0%nat))))
     = 114%Z
  /\ exists picks,
       map Drop.xIndex (Core.drops (fst (initDrops random0 (coreWithDensity 115) 2400 0%nat)))
       = map Some picks ++ repeat None 14
       /\ List.length picks = 100%nat.
Proof.
  assert (H0 : 0 < Core.fontSize (coreWithDensity 115)) by (simpl; lra).
  assert (H1 : 100 < Core.density (coreWithDensity 115)) by (simpl; lra).
  assert (H2 : (columnsOf (coreWithDensity 115) 2400 <= 4294967295)%Z)
    by (rewrite columnsOf_2400; lia).
  assert (H3 : (actualColumnsOf (coreWithDensity 115) 2400 <= 4294967295)%Z)
    by (rewrite actualColumnsOf_115; lia).
  pose proof (initDrops_overfull_density random0 random0_range (coreWithDensity 115)
                2400 0%nat H0 H1 H2 H3) as H.
  cbv zeta in H.
  change (Math_ceil (double (2400 / Core.fontSize (coreWithDensity 115))))
    with (columnsOf (coreWithDensity 115) 2400) in H.
  change (Z.max 1 (Math_floor (double (IZR (columnsOf (coreWithDensity 115) 2400)
                                       * double (Core.density (coreWithDensity 115) / 100)))))
    with (actualColumnsOf (coreWithDensity 115) 2400) in H.
  rewrite actualColumnsOf_115, columnsOf_2400 in H.
  destruct H as (_ & Hn & picks & Hx & Hl & _).
  split; [exact random0_range | split; [exact H0 | split; [exact H1 |]]].
  split; [apply columnsOf_2400 | split; [apply actualColumnsOf_115 | split; [exact Hn |]]].
  exists picks. split; [exact Hx | exact Hl].
Defined.


Lemma updateConfig_charset_witness :
  (forall k, 0 <= random0 k < 1)
  /\ Config.currentCharset configBin = Some bin
  /\ Core.currentCharset (fst (updateConfig random0 coreWithLeavingDrop configBin 0%nat)) = bin
  /\ Forall (fun d' =>
       Drop.updateCounter d' = Drop.updateInterval d'
       /\ (Drop.currentChar d' = Some "0" \/ Drop.currentChar d' = Some "1")
       /\ Forall (fun t => t = Some "0" \/ t = Some "1") (Drop.trail d'))
     (Core.drops (fst (updateConfig random0 coreWithLeavingDrop configBin 0%nat))).
Proof.
  pose proof (updateConfig_charset random0 random0_range coreWithLeavingDrop configBin bin
                0%nat eq_refl) as H.
  cbv zeta in H. destruct H as (Hk & _ & _ & Hd).
  split; [exact random0_range | split; [reflexivity | split; [exact Hk |]]].
  eapply Forall_impl; [| exact Hd].
  intros d' (_ & _ & _ & Hu & Hb & _).
  destruct (Hb eq_refl) as [Hc Ht].
  split; [exact Hu | split; [exact Hc | exact Ht]].
Defined.

Lemma handleClick_burst_witness :
  (forall k, 0 <= random0 k < 1)
  /\ exists ps,
       snd (fst (handleClick random0 false InteractionHandler 100 200 bin 0%nat))
       = [Effect.mk 100 200 explosion 1 1 10 None (Some ps) None]
       /\ List.length ps = 20%nat
       /\ (forall p, In p ps ->
           Particle.char p = Some "0" \/ Particle.char p = Some "1")
       /\ (exists p q,
             In p ps /\ In q ps
             /\ (Particle.vx p, Particle.vy p) <> (Particle.vx q, Particle.vy q)).
Proof.
  pose proof (handleClick_burst random0 false random0_range InteractionHandler 100 200 bin
                0%nat) as H.
  cbv zeta in H. destruct H as (_ & ps & He & Hl & Hp & Hv).
  split; [exact random0_range |].
  exists ps. split; [exact He | split; [exact Hl | split; [| exact Hv]]].
  intros p Hin. apply In_nth_error in Hin as [i Hi].
  assert (Hlt : (i < 20)%nat).
  { rewrite <- Hl. apply nth_error_Some. rewrite Hi. discriminate. }
  destruct (Hp i Hlt) as (p' & Hi' & _ & _ & _ & _ & _ & _ & _ & _ & Hb).
  rewrite Hi in Hi'. injection Hi' as <-. exact (Hb eq_refl).
Defined.



Lemma trail_length_bounded_witness :
  (List.length (Drop.trail dueDrop) <= 8)%nat
  /\ Drop.trailLength dueDrop = 8%nat
  /\ (Drop.updateInterval dueDrop <= Drop.updateCounter dueDrop + 1)%Z
  /\ Drop.trail (fst (refreshChar random0 coreWithLeavingDrop dueDrop 0%nat))
     = Some "A" :: repeat (Some "B") 7
  /\ Forall (fun d => (List.length (Drop.trail d) <= 8)%nat)
       (Core.drops (fst (runCalls random0 MatrixRainCore
                           [callInitDrops 1000; callDrawDrops 600 true;
                            callUpdateConfig configBin; callDrawDrops 600 true] 0%nat))).
Proof.
  assert (H1 : (List.length (Drop.trail dueDrop) <= 8)%nat) by (simpl; lia).
  assert (H2 : (Drop.updateInterval dueDrop <= Drop.updateCounter dueDrop + 1)%Z)
    by (simpl; lia).
  pose proof (trail_length_bounded random0 1000
                [callDrawDrops 600 true; callUpdateConfig configBin; callDrawDrops 600 true]
                0%nat) as [H Hr].
  split; [exact H1 | split; [reflexivity | split; [exact H2 | split]]].
  - exact (Hr coreWithLeavingDrop dueDrop 0%nat H1 eq_refl H2).
  - eapply Forall_impl; [| exact H]. intros d [Hd _]. exact Hd.
Defined.

Lemma paused_calls_mutate_nothing_witness :
  Forall (fun e => Effect.type e <> follow)
         (Renderer.effects (addEffect EffectRenderer dyingRipple))
  /\ renderEffects random0 (addEffect EffectRenderer dyingRipple) 24 en false 7%nat
     = (fst (renderEffects random0 (addEffect EffectRenderer dyingRipple) 24 en false 0%nat),
        7%nat)
  /\ fst (pausedFrames random0 3 coreWithLeavingDrop (addEffect EffectRenderer dyingRipple)
                       50 24 en 0%nat)
     = (coreWithLeavingDrop, addEffect EffectRenderer dyingRipple)
  /\ map blankGlyph
         (snd (fst (renderEffects randomAlternating
                      (addEffect EffectRenderer (followerAtOrigin (Some 15%Z)))
                      24 bin false 15%nat)))
     = map blankGlyph
         (snd (fst (renderEffects randomAlternating
                      (addEffect EffectRenderer (followerAtOrigin (Some 15%Z)))
                      24 bin false 0%nat))).
Proof.
  assert (H1 : Forall (fun e => Effect.type e <> follow)
                      (Renderer.effects (addEffect EffectRenderer dyingRipple))).
  { repeat constructor. discriminate. }
  pose proof (paused_calls_mutate_nothing random0 coreWithLeavingDrop
                (addEffect EffectRenderer dyingRipple) 50 24 en 3 0%nat)
    as (_ & _ & _ & _ & Hs & Hn).
  pose proof (paused_calls_mutate_nothing randomAlternating coreWithLeavingDrop
                (addEffect EffectRenderer (followerAtOrigin (Some 15%Z))) 50 24 bin 0 0%nat)
    as (_ & _ & Hb & _).
  split; [exact H1 | split; [exact (Hs H1 7%nat) | split; [exact Hn | exact (Hb 15%nat)]]].
Defined.

(** * Further properties *)

Section MoreProperties.

Variable random : nat -> R.
Variable isMobileDevice : bool.
Hypothesis random_range : forall k, 0 <= random k < 1.

(** ** Reachable states of the core *)

Lemma speed_factor_range (r : R) : 0 <= r < 1 -> 1.5 <= r * 2 + 1.5 < 3.5.
Proof. intros. lra. Qed.

Lemma pushRandomChars_inCharset (key : CharsetKey) (n : nat) :
  forall (tr : list Glyph) (k : nat),
  Forall (inCharset key) tr ->
  Forall (inCharset key) (fst (pushRandomChars random key n tr k)).
Proof.
  induction n as [|n IH]; intros tr k H; simpl; [exact H |].
  unfold bind. rewrite getRandomChar_eq. apply IH.
  apply Forall_app. split; [exact H |].
  constructor; [apply (charAt_random random random_range) | constructor].
Qed.

Lemma Forall_removelast {A} (P : A -> Prop) (l : list A) :
  Forall P l -> Forall P (removelast l).
Proof.
  intros H. destruct l as [|a l]; [exact H |].
  destruct (@exists_last _ (a :: l)) as (l' & b & El); [discriminate |].
  rewrite El in *. rewrite removelast_last.
  apply Forall_app in H. apply H.
Qed.

Lemma newDrop_inv (c : Core.t) (w : R) (index : option Z) (k : nat) :
  let d := fst (newDrop random c w index k) in
  dropInv (Core.currentCharset c) (Core.speed c) d
  /\ Drop.trail d = [] /\ Drop.trailLength d = 8%nat
  /\ Drop.updateCounter d = 0%Z
  /\ Drop.y d = random k * w.
Proof.
  unfold newDrop, bind, Math_random. rewrite getRandomChar_eq. cbn [fst ret].
  pose proof (interval_range _ (random_range (S (S k)))) as Hi.
  split; [| repeat split].
  unfold dropInv. cbn [Drop.currentChar Drop.trail Drop.updateCounter Drop.updateInterval
                       Drop.speed].
  split; [apply (charAt_random random random_range) |].
  split; [constructor |].
  split; [lia |]. split; [exact Hi |].
  eexists. split; [apply speed_factor_range, (random_range (S k)) | reflexivity].
Qed.

Lemma prefillTrail_inv (c : Core.t) (d : Drop.t) (k : nat) :
  dropInv (Core.currentCharset c) (Core.speed c) d ->
  let d' := fst (prefillTrail random c d k) in
  dropInv (Core.currentCharset c) (Core.speed c) d'
  /\ Drop.y d' = Drop.y d /\ Drop.updateCounter d' = Drop.updateCounter d.
Proof.
  intros (Hc & Ht & Hn & Hi & Hs). unfold prefillTrail, bind.
  pose proof (pushRandomChars_inCharset (Core.currentCharset c) (Drop.trailLength d)
                (Drop.trail d) k Ht) as H.
  destruct (pushRandomChars random _ _ _ k) as [tr k1]. cbn [fst ret] in *.
  split; [| split; reflexivity].
  unfold dropInv. cbn [Drop.currentChar Drop.trail Drop.updateCounter Drop.updateInterval
                       Drop.speed].
  repeat split; try assumption; lia.
Qed.

Lemma refreshChar_inv (cs : CharsetKey) (c : Core.t) (d : Drop.t) (k : nat) :
  Core.currentCharset c = cs ->
  dropInv cs (Core.speed c) d ->
  dropInv cs (Core.speed c) (fst (refreshChar random c d k))
  /\ (Drop.updateCounter (fst (refreshChar random c d k))
      < Drop.updateInterval (fst (refreshChar random c d k)))%Z.
Proof.
  intros <- (Hc & Ht & Hn & Hi & Hs). unfold refreshChar.
  destruct (Drop.updateInterval d <=? Drop.updateCounter d + 1)%Z eqn:E.
  - unfold bind. rewrite getRandomChar_eq. cbn [fst ret].
    split; [| cbn; lia]. unfold dropInv. cbn.
    split; [apply (charAt_random random random_range) |].
    split; [| repeat split; try assumption; lia].
    unfold unshiftPop.
    destruct (Drop.trailLength d <? List.length (Drop.currentChar d :: Drop.trail d))%nat.
    + apply Forall_removelast. constructor; assumption.
    + constructor; assumption.
  - apply Z.leb_gt in E. cbn [fst ret].
    split; [| cbn; lia]. unfold dropInv. cbn.
    repeat split; try assumption; lia.
Qed.

Lemma moveDrop_inv (cs : CharsetKey) (c : Core.t) (h : R) (d : Drop.t) (k : nat) :
  Core.currentCharset c = cs ->
  dropInv cs (Core.speed c) d ->
  (Drop.updateCounter d < Drop.updateInterval d)%Z ->
  dropInv cs (Core.speed c) (fst (moveDrop random c h d k))
  /\ (Drop.updateCounter (fst (moveDrop random c h d k))
      < Drop.updateInterval (fst (moveDrop random c h d k)))%Z.
Proof.
  intros <- (Hc & Ht & Hn & Hi & Hs) Hlt. unfold moveDrop.
  destruct (num_gt (Drop.y d + Drop.speed d) h).
  - unfold bind, Math_random. rewrite getRandomChar_eq. cbn [fst ret].
    pose proof (interval_range _ (random_range (S k))) as Hi'.
    split; [| cbn; lia]. unfold dropInv. cbn.
    split; [apply (charAt_random random random_range) |].
    split; [constructor |]. split; [lia |]. split; [exact Hi' |].
    eexists. split; [apply speed_factor_range, (random_range k) | reflexivity].
  - cbn [fst ret]. split; [| cbn; lia]. unfold dropInv. cbn.
    repeat split; try assumption; lia.
Qed.

Lemma drawOneDrop_inv (cs : CharsetKey) (c : Core.t) (h : R) (a : bool) (d : Drop.t)
    (k : nat) :
  Core.currentCharset c = cs ->
  dropInv cs (Core.speed c) d ->
  dropInv cs (Core.speed c) (fst (fst (drawOneDrop random c h a d k))).
Proof.
  intros Hcs H. unfold drawOneDrop. destruct a; [| exact H].
  unfold bind.
  destruct (refreshChar_inv cs c d k Hcs H) as [H1 Hlt].
  destruct (refreshChar random c d k) as [d1 k1]. cbn [fst] in *.
  destruct (moveDrop_inv cs c h d1 k1 Hcs H1 Hlt) as [H2 _].
  destruct (moveDrop random c h d1 k1) as [d2 k2]. exact H2.
Qed.

Lemma setDrops_fields (c : Core.t) (ds : list Drop.t) :
  Core.currentCharset (setDrops c ds) = Core.currentCharset c
  /\ Core.speed (setDrops c ds) = Core.speed c
  /\ Core.drops (setDrops c ds) = ds.
Proof. repeat split. Qed.

Lemma drawDrops_inv (c : Core.t) (h : R) (a : bool) (k : nat) :
  coreInv c -> coreInv (fst (fst (drawDrops random c h a k))).
Proof.
  intros H. unfold coreInv, drawDrops, bind in *.
  pose proof (mapM_Forall (drawOneDrop random c h a)
                (dropInv (Core.currentCharset c) (Core.speed c))
                (fun r => dropInv (Core.currentCharset c) (Core.speed c) (fst r))
                (fun d k => drawOneDrop_inv _ c h a d k eq_refl) (Core.drops c) k H) as H1.
  destruct (mapM (drawOneDrop random c h a) (Core.drops c) k) as [rs k1].
  cbn [fst ret setDrops Core.currentCharset Core.speed Core.drops] in *.
  apply Forall_map. exact H1.
Qed.

Lemma initDrops_inv (c : Core.t) (w : R) (k : nat) :
  coreInv (fst (initDrops random c w k)).
Proof.
  unfold coreInv, initDrops, bind.
  destruct (selectIndices random _ _ k) as [sel k1].
  pose proof (mapM_Forall (newDrop random c w) (fun _ => True)
                (dropInv (Core.currentCharset c) (Core.speed c))
                (fun a k _ => proj1 (newDrop_inv c w a k)) sel k1) as H1.
  destruct (mapM (newDrop random c w) sel k1) as [ds k2].
  pose proof (mapM_Forall (prefillTrail random c) _
                (dropInv (Core.currentCharset c) (Core.speed c))
                (fun a k H => proj1 (prefillTrail_inv c a k H)) ds k2) as H2.
  destruct (mapM (prefillTrail random c) ds k2) as [ds' k3].
  cbn [fst ret setDrops Core.currentCharset Core.speed Core.drops] in *.
  apply H2, H1. apply Forall_forall. auto.
Qed.

Lemma applySpeed_inv (config : Config.t) (c : Core.t) (k : nat) :
  coreInv c -> coreInv (fst (applySpeed random config c k)).
Proof.
  intros H. unfold applySpeed. destruct (Config.speed config) as [v|]; [| exact H].
  unfold coreInv, bind in *.
  pose proof (mapM_Forall (respeedDrop random v)
                (dropInv (Core.currentCharset c) (Core.speed c))
                (dropInv (Core.currentCharset c) v)) as H1.
  specialize (H1 (fun d k' Hd =>
    match Hd with
    | conj Hc (conj Ht (conj Hn (conj Hi _))) =>
        conj Hc (conj Ht (conj Hn (conj Hi
          (ex_intro _ (random k' * 2 + 1.5)
             (conj (speed_factor_range _ (random_range k')) eq_refl)))))
    end) (Core.drops c) k H).
  destruct (mapM (respeedDrop random v) (Core.drops c) k) as [ds k1]. exact H1.
Qed.

Lemma recharDrop_inv (key cs : CharsetKey) (sp : R) (d : Drop.t) (k : nat) :
  dropInv cs sp d -> dropInv key sp (fst (recharDrop random key d k)).
Proof.
  intros (_ & _ & Hn & Hi & Hs).
  destruct (recharDrop_recharged random random_range key d k) as (Hc & Ht & _ & Hu).
  unfold recharDrop, bind in *.
  destruct (getRandomChar random key k) as [g k1].
  destruct (randomChars random key (Drop.trailLength d) k1) as [tr k2].
  cbn [fst ret] in *. unfold dropInv. cbn in *.
  repeat split; try assumption; lia.
Qed.

Lemma applyCharset_inv (config : Config.t) (c : Core.t) (k : nat) :
  coreInv c -> coreInv (fst (applyCharset random config c k)).
Proof.
  intros H. unfold applyCharset.
  destruct (Config.currentCharset config) as [v|]; [| exact H].
  unfold coreInv, bind in *.
  pose proof (mapM_Forall (recharDrop random v)
                (dropInv (Core.currentCharset c) (Core.speed c))
                (dropInv v (Core.speed c))
                (fun d k' => recharDrop_inv v _ _ d k') (Core.drops c) k H) as H1.
  destruct (mapM (recharDrop random v) (Core.drops c) k) as [ds k1]. exact H1.
Qed.

Lemma updateConfig_inv (c : Core.t) (config : Config.t) (k : nat) :
  coreInv c -> coreInv (fst (updateConfig random c config k)).
Proof.
  intros H. unfold updateConfig, bind.
  assert (H2 : coreInv (applyDensity config (applyFontSize config c))).
  { unfold applyDensity, applyFontSize.
    destruct (Config.density config), (Config.fontSize config); exact H. }
  pose proof (applySpeed_inv config _ k H2) as H3.
  destruct (applySpeed random config _ k) as [c3 k3]. cbn [fst] in H3.
  pose proof (applyCharset_inv config c3 k3 H3) as H4.
  destruct (applyCharset random config c3 k3) as [c4 k4]. cbn [fst ret] in *.
  unfold applyTheme. destruct (Config.currentTheme config); exact H4.
Qed.

Lemma runCalls_inv (calls : list CoreCall) :
  forall (c : Core.t) (k : nat),
  coreInv c -> coreInv (fst (runCalls random c calls k)).
Proof.
  induction calls as [|call calls IH]; intros c k H; simpl; [exact H |].
  unfold bind.
  assert (H1 : coreInv (fst (runCall random c call k))).
  { destruct call as [w | h a | config]; simpl.
    - apply initDrops_inv.
    - unfold bind. pose proof (drawDrops_inv c h a k H) as H1.
      destruct (drawDrops random c h a k) as [r k1]. exact H1.
    - apply updateConfig_inv, H. }
  destruct (runCall random c call k) as [c' k']. apply IH, H1.
Qed.

Lemma drawTrail_glyphs (c : Core.t) (d : Drop.t) (x : option R) (P : Glyph -> Prop)
    (tr : list Glyph) :
  Forall P tr ->
  forall j,
  Forall (fun op => match op with fillText g _ _ => P g | _ => True end)
         (drawTrail c d x j tr).
Proof.
  intros H. induction H as [|g tr Hg _ IH]; intros j; simpl; [constructor |].
  apply Forall_app. split; [| apply IH].
  destruct (num_lt _ 0); repeat constructor. exact Hg.
Qed.

Lemma drawDrops_ops (c : Core.t) (h : R) (a : bool) (k : nat) :
  snd (fst (drawDrops random c h a k)) = concat (map (drawDrop c) (Core.drops c)).
Proof.
  unfold drawDrops, bind.
  pose proof (mapM_map (drawOneDrop random c h a) (drawDrop c) snd) as H.
  specialize (H (fun d k' => ltac:(unfold drawOneDrop, bind; destruct a;
    [destruct (refreshChar random c d k') as [d1 k1];
     destruct (moveDrop random c h d1 k1); reflexivity | reflexivity]))
    (Core.drops c) k).
  destruct (mapM (drawOneDrop random c h a) (Core.drops c) k) as [rs k1].
  cbn [fst snd ret] in *. now rewrite H.
Qed.

(** X1.  In every state the core reaches from its construction, by any
    calls of [initDrops], [drawDrops] and [updateConfig], the current
    character and every trail entry of every drop is a character of the
    charset in force (never [undefined], never a character of a charset that
    was replaced); so whatever [drawDrops] writes with [fillText] is a
    character of that charset. *)
Theorem reachable_glyphs_in_charset (calls : list CoreCall) (k : nat)
    (canvasHeight : R) (isAnimating : bool) (k' : nat) :
  let c := fst (runCalls random MatrixRainCore calls k) in
  Forall (fun d => inCharset (Core.currentCharset c) (Drop.currentChar d)
                   /\ Forall (inCharset (Core.currentCharset c)) (Drop.trail d))
         (Core.drops c)
  /\ Forall (fun op => match op with
                       | fillText g _ _ => inCharset (Core.currentCharset c) g
                       | _ => True
                       end)
            (snd (fst (drawDrops random c canvasHeight isAnimating k'))).
Proof.
  intros c.
  assert (H : coreInv c) by (apply runCalls_inv; constructor).
  split.
  - eapply Forall_impl; [| exact H]. intros d (Hc & Ht & _). split; assumption.
  - rewrite drawDrops_ops. apply Forall_concat, Forall_map.
    eapply Forall_impl; [| exact H]. intros d (Hc & Ht & _).
    unfold drawDrop. apply Forall_app. split.
    + apply drawTrail_glyphs, Ht.
    + repeat constructor. exact Hc.
Qed.

(** X2.  In every reachable state of the core each drop's update interval is
    one of 3, 4, 5, 6 and its update counter lies between 0 and the
    interval. *)
Theorem reachable_update_schedule (calls : list CoreCall) (k : nat) :
  Forall (fun d => (3 <= Drop.updateInterval d <= 6)%Z
                   /\ (0 <= Drop.updateCounter d <= Drop.updateInterval d)%Z)
         (Core.drops (fst (runCalls random MatrixRainCore calls k))).
Proof.
  eapply Forall_impl; [| apply runCalls_inv; constructor].
  intros d (_ & _ & Hn & Hi & _). split; assumption.
Qed.

(** X3.  In every reachable state of the core each drop's speed is the
    speed setting in force, as a fraction of 100, times a factor in
    [[1.5, 3.5)]: a change of the setting reaches every drop at once.  With a
    positive setting every drop moves down. *)
Theorem reachable_speed_follows_setting (calls : list CoreCall) (k : nat) :
  let c := fst (runCalls random MatrixRainCore calls k) in
  Forall (fun d => exists f, 1.5 <= f < 3.5 /\ Drop.speed d = f * (Core.speed c / 100))
         (Core.drops c)
  /\ (0 < Core.speed c -> Forall (fun d => 0 < Drop.speed d) (Core.drops c)).
Proof.
  intros c.
  assert (H : coreInv c) by (apply runCalls_inv; constructor).
  split.
  - eapply Forall_impl; [| exact H]. intros d (_ & _ & _ & _ & Hs). exact Hs.
  - intros Hpos. eapply Forall_impl; [| exact H].
    intros d (_ & _ & _ & _ & f & Hf & ->).
    assert (0 < Core.speed c / 100) by lra. nra.
Qed.

Lemma newDrop_fresh (c : Core.t) (w : R) (index : option Z) (k : nat) :
  0 < w ->
  let d := fst (newDrop random c w index k) in
  dropInv (Core.currentCharset c) (Core.speed c) d
  /\ Drop.trail d = [] /\ Drop.trailLength d = 8%nat
  /\ Drop.updateCounter d = 0%Z
  /\ 0 <= Drop.y d < w.
Proof.
  intros Hw d. destruct (newDrop_inv c w index k) as (Hi & Ht & Hl & Hu & Hy).
  fold d in Hi, Ht, Hl, Hu, Hy.
  split; [exact Hi | split; [exact Ht | split; [exact Hl | split; [exact Hu |]]]].
  rewrite Hy. pose proof (random_range k). split; nra.
Qed.

Lemma prefillTrail_fresh (c : Core.t) (w : R) (d : Drop.t) (k : nat) :
  dropInv (Core.currentCharset c) (Core.speed c) d
  /\ Drop.trail d = [] /\ Drop.trailLength d = 8%nat
  /\ Drop.updateCounter d = 0%Z
  /\ 0 <= Drop.y d < w ->
  let d' := fst (prefillTrail random c d k) in
  0 <= Drop.y d' < w
  /\ Drop.updateCounter d' = 0%Z
  /\ Drop.trailLength d' = 8%nat
  /\ List.length (Drop.trail d') = 8%nat
  /\ Forall (inCharset (Core.currentCharset c)) (Drop.trail d')
  /\ inCharset (Core.currentCharset c) (Drop.currentChar d').
Proof.
  intros (Hi & Ht & Hl & Hu & Hy) d'.
  destruct (prefillTrail_inv c d k Hi) as ((Hc' & Ht' & _) & Ey & Eu).
  destruct (prefillTrail_ok random c d k (conj Ht Hl)) as [[_ H8] Hlen].
  fold d' in Hc', Ht', Ey, Eu, H8, Hlen.
  rewrite Ey, Eu.
  split; [exact Hy | split; [exact Hu | split; [exact H8 | split; [exact Hlen |]]]].
  split; [exact Ht' | exact Hc'].
Qed.

(** X4.  What [initDrops] makes, for a positive width: every drop starts at
    a position in [[0, canvasWidth)], with counter 0, [trailLength = 8] and a
    trail of exactly 8 characters of the charset. *)
Theorem initDrops_fresh_drops (c : Core.t) (canvasWidth : R) (k : nat) :
  0 < canvasWidth ->
  Forall (fun d => 0 <= Drop.y d < canvasWidth
                   /\ Drop.updateCounter d = 0%Z
                   /\ Drop.trailLength d = 8%nat
                   /\ List.length (Drop.trail d) = 8%nat
                   /\ Forall (inCharset (Core.currentCharset c)) (Drop.trail d)
                   /\ inCharset (Core.currentCharset c) (Drop.currentChar d))
         (Core.drops (fst (initDrops random c canvasWidth k))).
Proof.
  intros Hw. unfold initDrops, bind.
  destruct (selectIndices random _ _ k) as [sel k1].
  pose proof (mapM_Forall (newDrop random c canvasWidth) (fun _ => True)
                (fun d => dropInv (Core.currentCharset c) (Core.speed c) d
                          /\ Drop.trail d = [] /\ Drop.trailLength d = 8%nat
                          /\ Drop.updateCounter d = 0%Z
                          /\ 0 <= Drop.y d < canvasWidth)
                (fun a k' _ => newDrop_fresh c canvasWidth a k' Hw) sel k1) as H1.
  destruct (mapM (newDrop random c canvasWidth) sel k1) as [ds k2].
  cbn [fst] in H1.
  pose proof (mapM_Forall (prefillTrail random c) _
                (fun d' => 0 <= Drop.y d' < canvasWidth
                   /\ Drop.updateCounter d' = 0%Z
                   /\ Drop.trailLength d' = 8%nat
                   /\ List.length (Drop.trail d') = 8%nat
                   /\ Forall (inCharset (Core.currentCharset c)) (Drop.trail d')
                   /\ inCharset (Core.currentCharset c) (Drop.currentChar d'))
                (fun d k' H => prefillTrail_fresh c canvasWidth d k' H) ds k2) as H2.
  destruct (mapM (prefillTrail random c) ds k2) as [ds' k3].
  apply H2, H1. apply Forall_forall. auto.
Qed.

(** ** Columns and positions *)

Lemma moveDrop_xIndex (c : Core.t) (h : R) (d : Drop.t) (k : nat) :
  Drop.xIndex (fst (moveDrop random c h d k)) = Drop.xIndex d.
Proof.
  unfold moveDrop. destruct (num_gt (Drop.y d + Drop.speed d) h); reflexivity.
Qed.

Lemma drawOneDrop_xIndex (c : Core.t) (h : R) (a : bool) (d : Drop.t) (k : nat) :
  Drop.xIndex (fst (fst (drawOneDrop random c h a d k))) = Drop.xIndex d.
Proof.
  unfold drawOneDrop. destruct a; [| reflexivity]. unfold bind.
  destruct (refreshChar_keeps random c d k) as (_ & _ & _ & Ex).
  destruct (refreshChar random c d k) as [d1 k1]. cbn [fst] in Ex.
  pose proof (moveDrop_xIndex c h d1 k1) as Em.
  destruct (moveDrop random c h d1 k1) as [d2 k2]. cbn [fst ret] in *. congruence.
Qed.

Lemma drawDrops_xIndex (c : Core.t) (h : R) (a : bool) (k : nat) :
  map Drop.xIndex (Core.drops (fst (fst (drawDrops random c h a k))))
  = map Drop.xIndex (Core.drops c).
Proof.
  unfold drawDrops, bind.
  pose proof (mapM_map (drawOneDrop random c h a) Drop.xIndex
                (fun r => Drop.xIndex (fst r))
                (drawOneDrop_xIndex c h a) (Core.drops c) k) as H.
  destruct (mapM (drawOneDrop random c h a) (Core.drops c) k) as [rs k1].
  cbn [fst ret setDrops Core.drops] in *. now rewrite map_map.
Qed.

Lemma applyCharset_xIndex (config : Config.t) (c : Core.t) (k : nat) :
  map Drop.xIndex (Core.drops (fst (applyCharset random config c k)))
  = map Drop.xIndex (Core.drops c).
Proof.
  unfold applyCharset. destruct (Config.currentCharset config) as [v|]; [| reflexivity].
  unfold bind.
  pose proof (mapM_map (recharDrop random v) Drop.xIndex Drop.xIndex
                (fun d k => proj1 (recharDrop_keeps random v d k)) (Core.drops c) k) as H.
  destruct (mapM (recharDrop random v) (Core.drops c) k). exact H.
Qed.

Lemma updateConfig_xIndex (c : Core.t) (config : Config.t) (k : nat) :
  map Drop.xIndex (Core.drops (fst (updateConfig random c config k)))
  = map Drop.xIndex (Core.drops c).
Proof.
  unfold updateConfig, bind.
  destruct (applySpeed_keeps random config (applyDensity config (applyFontSize config c)) k)
    as [H3 _].
  destruct (applySpeed random config _ k) as [c3 k3]. cbn [fst] in H3.
  pose proof (applyCharset_xIndex config c3 k3) as H4.
  destruct (applyCharset random config c3 k3) as [c4 k4]. cbn [fst ret] in *.
  replace (Core.drops (applyTheme config c4)) with (Core.drops c4)
    by (unfold applyTheme; destruct (Config.currentTheme config); reflexivity).
  rewrite H4, H3. unfold applyDensity, applyFontSize.
  destruct (Config.density config), (Config.fontSize config); reflexivity.
Qed.

(** X5.  Only [initDrops] changes the set of drops: after any sequence of
    [drawDrops] and [updateConfig] calls - a change of cell size or density
    included, and every reset of a drop that left the surface - the core
    holds as many drops as before, at the same column indices, in the same
    order. *)
Theorem columns_change_only_by_initDrops (calls : list CoreCall) (c : Core.t) (k : nat) :
  forallb (fun call => negb (isInit call)) calls = true ->
  map Drop.xIndex (Core.drops (fst (runCalls random c calls k)))
  = map Drop.xIndex (Core.drops c).
Proof.
  revert c k. induction calls as [|call calls IH]; intros c k H; simpl; [reflexivity |].
  simpl in H. apply andb_true_iff in H as [Hc Hr]. unfold bind.
  assert (H1 : map Drop.xIndex (Core.drops (fst (runCall random c call k)))
               = map Drop.xIndex (Core.drops c)).
  { destruct call as [w | h a | config]; simpl in *; [discriminate | |].
    - unfold bind. pose proof (drawDrops_xIndex c h a k) as H1.
      destruct (drawDrops random c h a k) as [r k1]. exact H1.
    - apply updateConfig_xIndex. }
  destruct (runCall random c call k) as [c' k']. cbn [fst] in H1.
  rewrite (IH c' k' Hr). exact H1.
Qed.

Lemma moveDrop_below (c : Core.t) (h : R) (d : Drop.t) (k : nat) :
  0 <= Core.fontSize c -> 0 <= h ->
  Drop.y (fst (moveDrop random c h d k)) <= h.
Proof.
  intros Hf Hh. unfold moveDrop.
  destruct (num_gt (Drop.y d + Drop.speed d) h) eqn:E.
  - cbn. pose proof (pos_INR (Drop.trailLength d)). nra.
  - apply num_gt_false in E. exact E.
Qed.

(** X6.  With a cell size and a surface height that are not negative, an
    animating [drawDrops] tick leaves no drop below the bottom edge: every
    drop's position is at most the surface height when the tick ends. *)
Theorem drawDrops_keeps_drops_on_surface (c : Core.t) (canvasHeight : R) (k : nat) :
  0 <= Core.fontSize c -> 0 <= canvasHeight ->
  Forall (fun d => Drop.y d <= canvasHeight)
         (Core.drops (fst (fst (drawDrops random c canvasHeight true k)))).
Proof.
  intros Hf Hh. unfold drawDrops, bind.
  pose proof (mapM_Forall (drawOneDrop random c canvasHeight true) (fun _ => True)
                (fun r => Drop.y (fst r) <= canvasHeight)) as H.
  specialize (H (fun d k' _ => ltac:(unfold drawOneDrop, bind;
    destruct (refreshChar random c d k') as [d1 k1];
    pose proof (moveDrop_below c canvasHeight d1 k1 Hf Hh);
    destruct (moveDrop random c canvasHeight d1 k1); assumption))
    (Core.drops c) k ltac:(apply Forall_forall; auto)).
  destruct (mapM (drawOneDrop random c canvasHeight true) (Core.drops c) k) as [rs k1].
  cbn [fst ret setDrops Core.drops] in *. apply Forall_map. exact H.
Qed.

(** ** The loop of [renderEffects] *)

Lemma renderEffect_animating_state (tp : string) (fs : R) (cs : CharsetKey)
    (e : Effect.t) (k : nat) :
  fst (fst (renderEffect random tp fs cs true e k))
  = if expired e then None else Some (aged e).
Proof.
  unfold renderEffect, expired, aged, decrementOf.
  destruct e as [x y t l m rad txt ps fc]. cbn.
  destruct t; cbn; destruct (num_le (l / m) 0); cbn; try reflexivity.
  - destruct ps as [ps|]; cbn; [| reflexivity].
    unfold setParticles. cbn. do 3 f_equal. rewrite map_map. reflexivity.
  - destruct (noText txt); reflexivity.
  - unfold bind. destruct (drawFollowers random tp cs _ _ _ _ k). reflexivity.
Qed.

Lemma nth_error_middle {A} (l1 l2 : list A) (a : A) :
  nth_error (l1 ++ a :: l2) (List.length l1) = Some a.
Proof. rewrite nth_error_app2, Nat.sub_diag by lia. reflexivity. Qed.

Lemma replaceAt_middle {A} (l1 l2 : list A) (a b : A) :
  replaceAt (List.length l1) b (l1 ++ a :: l2) = l1 ++ b :: l2.
Proof.
  unfold replaceAt.
  assert (Hs : skipn (S (List.length l1)) (l1 ++ a :: l2) = l2).
  { rewrite skipn_app, (skipn_all2 l1) by lia.
    replace (S (List.length l1) - List.length l1)%nat with 1%nat by lia. reflexivity. }
  rewrite Hs, firstn_app, Nat.sub_diag, firstn_all. simpl. now rewrite app_nil_r.
Qed.

Lemma removeAt_middle {A} (l1 l2 : list A) (a : A) :
  removeAt (List.length l1) (l1 ++ a :: l2) = l1 ++ l2.
Proof.
  unfold removeAt.
  assert (Hs : skipn (S (List.length l1)) (l1 ++ a :: l2) = l2).
  { rewrite skipn_app, (skipn_all2 l1) by lia.
    replace (S (List.length l1) - List.length l1)%nat with 1%nat by lia. reflexivity. }
  rewrite Hs, firstn_app, Nat.sub_diag, firstn_all. simpl. now rewrite app_nil_r.
Qed.

(** One iteration of the loop, at the last index of the part still to do. *)
Lemma effectsLoop_step (tp : string) (fs : R) (cs : CharsetKey) (a : bool)
    (l1 l2 : list Effect.t) (e : Effect.t) (k : nat) :
  effectsLoop random tp fs cs a (List.length (l1 ++ [e])) (l1 ++ e :: l2) k
  = (let (r, k1) := renderEffect random tp fs cs a e k in
     let (rest, k2) :=
       effectsLoop random tp fs cs a (List.length l1)
         (l1 ++ match fst r with Some e1 => e1 :: l2 | None => l2 end) k1 in
     ((fst rest, snd r ++ snd rest), k2)).
Proof.
  rewrite length_app. simpl List.length. rewrite Nat.add_1_r.
  simpl effectsLoop. rewrite nth_error_middle. unfold bind.
  destruct (renderEffect random tp fs cs a e k) as [[kept ops] k1]. cbn [fst snd].
  destruct kept as [e1|].
  - rewrite replaceAt_middle. destruct (effectsLoop random _ _ _ _ _ _ k1). reflexivity.
  - rewrite removeAt_middle. destruct (effectsLoop random _ _ _ _ _ _ k1). reflexivity.
Qed.

Lemma effectsLoop_animating_state (tp : string) (fs : R) (cs : CharsetKey)
    (l1 : list Effect.t) :
  forall (l2 : list Effect.t) (k : nat),
  fst (fst (effectsLoop random tp fs cs true (List.length l1) (l1 ++ l2) k))
  = map aged (filter (fun e => negb (expired e)) l1) ++ l2.
Proof.
  induction l1 as [|e l1 IH] using rev_ind; intros l2 k; [reflexivity |].
  rewrite <- app_assoc. simpl app. rewrite effectsLoop_step.
  pose proof (renderEffect_animating_state tp fs cs e k) as He.
  destruct (renderEffect random tp fs cs true e k) as [[kept ops] k1].
  cbn [fst snd] in *. subst kept.
  rewrite filter_app, map_app. simpl filter.
  destruct (expired e); cbn [negb].
  - specialize (IH l2 k1).
    destruct (effectsLoop random tp fs cs true (List.length l1) (l1 ++ l2) k1)
      as [rest k2]. cbn [fst] in *. rewrite IH. simpl. now rewrite app_nil_r.
  - specialize (IH (aged e :: l2) k1).
    destruct (effectsLoop random tp fs cs true (List.length l1) (l1 ++ aged e :: l2) k1)
      as [rest k2]. cbn [fst] in *. rewrite IH. simpl. now rewrite <- app_assoc.
Qed.

(** The collection an animating tick leaves. *)
Lemma renderEffects_animating_state (r : Renderer.t) (fs : R) (cs : CharsetKey) (k : nat) :
  fst (fst (renderEffects random r fs cs true k))
  = Renderer.mk (map aged (filter (fun e => negb (expired e)) (Renderer.effects r)))
                (Renderer.currentTheme r).
Proof.
  unfold renderEffects, bind.
  pose proof (effectsLoop_animating_state (primary (THEMES (Renderer.currentTheme r)))
                fs cs (Renderer.effects r) [] k) as H.
  rewrite !app_nil_r in H.
  destruct (effectsLoop random _ fs cs true _ (Renderer.effects r) k) as [[effs ops] k1].
  cbn [fst snd ret] in *. now rewrite H.
Qed.


(** ** Lifetimes *)

Lemma decrementOf_min (t : EffectType) : 0.01 <= decrementOf t.
Proof. destruct t; simpl; lra. Qed.

Lemma animate_S (n : nat) (r : Renderer.t) (fs : R) (cs : CharsetKey) (k : nat) :
  exists k',
    animate random (S n) r fs cs k
    = animate random n
        (Renderer.mk (map aged (filter (fun e => negb (expired e)) (Renderer.effects r)))
                     (Renderer.currentTheme r)) fs cs k'.
Proof.
  simpl. unfold bind.
  pose proof (renderEffects_animating_state r fs cs k) as H.
  destruct (renderEffects random r fs cs true k) as [[r' ops] k'].
  cbn [fst] in *. subst r'. now exists k'.
Qed.

Lemma expired_of_spent (e : Effect.t) :
  0 < Effect.maxLife e -> Effect.life e <= 0 -> expired e = true.
Proof.
  intros Hm Hl. unfold expired.
  replace (num_le (Effect.life e / Effect.maxLife e) 0) with true; [reflexivity |].
  symmetry. apply num_le_true, fade_nonpositive; assumption.
Qed.

(** With exact subtraction an effect with a life of at most [n] hundredths
    is gone after [n + 1] animating ticks. *)
Lemma animate_spent (n : nat) :
  forall (r : Renderer.t) (fontSize : R) (charset : CharsetKey) (k : nat),
  Forall (fun e => 0 < Effect.maxLife e /\ Effect.life e <= 0.01 * INR n)
         (Renderer.effects r) ->
  Renderer.effects (fst (animate random (S n) r fontSize charset k)) = [].
Proof.
  induction n as [|n IH]; intros r fs cs k H.
  - destruct (animate_S 0 r fs cs k) as [k' ->]. simpl.
    induction H as [|e l [Hm Hl] _ IHl]; [reflexivity |].
    simpl. rewrite expired_of_spent; [exact IHl | exact Hm |].
    simpl in Hl. lra.
  - destruct (animate_S (S n) r fs cs k) as [k' ->]. apply IH. cbn [Renderer.effects].
    apply Forall_map, Forall_forall. intros e He.
    apply filter_In in He as [He _].
    assert (Hb : 0 < Effect.maxLife e /\ Effect.life e <= 0.01 * INR (S n))
      by (revert e He; apply Forall_forall; exact H).
    destruct Hb as [Hm Hl]. cbn [aged Effect.maxLife Effect.life].
    split; [exact Hm |].
    pose proof (decrementOf_min (Effect.type e)). rewrite S_INR in Hl. lra.
Qed.

(** X8.  Every effect with a life of at most 1 expires: if every effect of
    the collection has a positive [maxLife] and a life of at most [n]
    hundredths and of at most 1, then after [n + 2] animating ticks the
    collection is empty.  (With exact subtraction [n + 1] ticks are enough;
    the repeated subtraction of doubles can leave a life just above 0 where
    the exact one is 0, as [0.1] less ten times [0.01] does, and then the
    removal comes one tick later.  A life so large that [life - 0.01] rounds
    back to [life] never decreases.) *)
Theorem effects_expire (n : nat) :
  forall (r : Renderer.t) (fontSize : R) (charset : CharsetKey) (k : nat),
  Forall (fun e => 0 < Effect.maxLife e /\ Effect.life e <= 0.01 * INR n
                   /\ Effect.life e <= 1)
         (Renderer.effects r) ->
  Renderer.effects (fst (animate random (S (S n)) r fontSize charset k)) = [].
Proof.
  intros r fs cs k H. apply (animate_spent (S n)).
  eapply Forall_impl; [| exact H].
  intros e (Hm & Hl & _). split; [exact Hm |].
  rewrite S_INR. lra.
Qed.

Lemma particle_ext (x x' y y' vx vy vy' l l' m : R) (c : Glyph) :
  x = x' -> y = y' -> vy = vy' -> l = l' ->
  Particle.mk x y vx vy l m c = Particle.mk x' y' vx vy' l' m c.
Proof. intros -> -> -> ->. reflexivity. Qed.

Lemma agedParticle_flown (n : nat) (p : Particle.t) :
  agedParticle (flown n p) = flown (S n) p.
Proof.
  unfold agedParticle, flown. cbn [Particle.x Particle.y Particle.vx Particle.vy
    Particle.life Particle.maxLife Particle.char].
  rewrite S_INR. apply particle_ext; lra.
Qed.

Lemma flown_0 (p : Particle.t) : flown 0 p = p.
Proof.
  destruct p. unfold flown. cbn. apply particle_ext; lra.
Qed.

(** X9.  A burst that stays alive flies its particles on parabolas: if the
    collection holds one explosion effect with positive [maxLife] whose life
    is at least [n] steps of 0.03, then after [n] animating ticks it is still
    the only effect, its life is lower by [0.03 * n], and each particle is at
    [x + n * vx], [y + n * vy + 0.1 * n * (n - 1)], with vertical velocity
    [vy + 0.2 * n], unchanged horizontal velocity and life lower by
    [0.03 * n]. *)
Theorem burst_particles_ballistic (n : nat) :
  forall (e : Effect.t) (ps : list Particle.t) (theme : ThemeKey) (fontSize : R)
         (charset : CharsetKey) (k : nat),
  Effect.type e = explosion ->
  Effect.particles e = Some ps ->
  0 < Effect.maxLife e ->
  0.03 * INR n <= Effect.life e ->
  exists e',
    Renderer.effects (fst (animate random n (Renderer.mk [e] theme) fontSize charset k))
    = [e']
    /\ Effect.life e' = Effect.life e - 0.03 * INR n
    /\ Effect.particles e' = Some (map (flown n) ps)
    /\ Effect.x e' = Effect.x e /\ Effect.y e' = Effect.y e
    /\ Effect.maxLife e' = Effect.maxLife e.
Proof.
  assert (G : forall n (e : Effect.t) (ps0 ps : list Particle.t) (m : nat) theme fs cs k,
             Effect.type e = explosion ->
             Effect.particles e = Some (map (flown m) ps0) ->
             0 < Effect.maxLife e ->
             0.03 * INR n <= Effect.life e ->
             exists e',
               Renderer.effects (fst (animate random n (Renderer.mk [e] theme) fs cs k))
               = [e']
               /\ Effect.life e' = Effect.life e - 0.03 * INR n
               /\ Effect.particles e' = Some (map (flown (n + m)) ps0)
               /\ Effect.x e' = Effect.x e /\ Effect.y e' = Effect.y e
               /\ Effect.maxLife e' = Effect.maxLife e).
  { clear n. induction n as [|n IH]; intros e ps0 ps m theme fs cs k Et Ep Hm Hl.
    - exists e. simpl. repeat split; try assumption. lra.
    - destruct (animate_S n (Renderer.mk [e] theme) fs cs k) as [k' ->].
      cbn [Renderer.effects Renderer.currentTheme filter].
      rewrite S_INR in Hl.
      assert (Hal : expired e = false).
      { unfold expired. rewrite Et.
        replace (num_le (Effect.life e / Effect.maxLife e) 0) with false; [reflexivity |].
        symmetry. apply num_le_false, fade_positive; [| exact Hm].
        pose proof (pos_INR n). lra. }
      rewrite Hal. cbn [negb map].
      destruct (IH (aged e) ps0 ps (S m) theme fs cs k') as (e' & E & El & Epp & Ex & Ey & Em).
      + unfold aged. rewrite Et. reflexivity.
      + unfold aged. rewrite Et, Ep. cbn [Effect.particles option_map].
        rewrite map_map. f_equal. apply map_ext. intros p. apply agedParticle_flown.
      + exact Hm.
      + unfold aged. rewrite Et. cbn [Effect.life decrementOf]. lra.
      + exists e'. split; [exact E |].
        split; [rewrite El; unfold aged; rewrite Et; cbn [Effect.life decrementOf];
                rewrite S_INR; lra |].
        split; [rewrite Epp; replace (n + S m)%nat with (S n + m)%nat by lia;
                reflexivity |].
        repeat split; assumption. }
  intros e ps theme fs cs k Et Ep Hm Hl.
  destruct (G n e ps ps 0%nat theme fs cs k Et) as (e' & H); try assumption.
  - rewrite Ep. f_equal. symmetry. rewrite <- (map_id ps) at 2.
    apply map_ext, flown_0.
  - exists e'. rewrite Nat.add_0_r in H. exact H.
Qed.

(** ** The dispatcher *)

Lemma runHandlerCall_spec (h : Handler.t) (call : HandlerCall) (k : nat) :
  let res := fst (runHandlerCall random isMobileDevice h call k) in
  exists e,
    snd res = [e]
    /\ Effect.type e = kindOf call
    /\ Effect.life e = 1 /\ Effect.maxLife e = 1
    /\ (Effect.x e, Effect.y e)
       = match call with
         | callClick x y _ | callMove x y | callText x y _ => (x, y)
         | callFollow => Handler.mousePosition h
         end
    /\ Handler.mousePosition (fst res)
       = match call with
         | callMove x y => (x, y)
         | _ => Handler.mousePosition h
         end.
Proof.
  destruct call as [x y cs | x y | x y txt |]; cbn [runHandlerCall].
  - rewrite handleClick_eq. cbn [fst snd]. eexists. repeat split.
  - cbn. eexists. repeat split.
  - cbn. eexists. repeat split.
  - cbn. eexists. split; [reflexivity |]. repeat split.
    destruct (Handler.mousePosition h). reflexivity.
Qed.

Lemma runHandlerCalls_app (l1 l2 : list HandlerCall) :
  forall (h : Handler.t) (k : nat),
  exists k',
    fst (runHandlerCalls random isMobileDevice h (l1 ++ l2) k)
    = (fst (fst (runHandlerCalls random isMobileDevice
                   (fst (fst (runHandlerCalls random isMobileDevice h l1 k))) l2 k')),
       snd (fst (runHandlerCalls random isMobileDevice h l1 k))
       ++ snd (fst (runHandlerCalls random isMobileDevice
                      (fst (fst (runHandlerCalls random isMobileDevice h l1 k))) l2 k'))).
Proof.
  induction l1 as [|call l1 IH]; intros h k.
  - exists k. simpl. destruct (runHandlerCalls random isMobileDevice h l2 k) as [[h' es] k'].
    reflexivity.
  - simpl. unfold bind.
    destruct (runHandlerCall random isMobileDevice h call k) as [[h1 es1] k1].
    cbn [fst snd]. destruct (IH h1 k1) as [k' E]. exists k'.
    destruct (runHandlerCalls random isMobileDevice h1 (l1 ++ l2) k1) as [[h2 es2] k2].
    destruct (runHandlerCalls random isMobileDevice h1 l1 k1) as [[h3 es3] k3].
    cbn [fst snd ret] in *. injection E as -> ->. now rewrite app_assoc.
Qed.

(** X10.  Whatever the calls, the dispatcher hands over exactly one effect
    per call, in call order and of the call's kind (click: explosion, move:
    ripple, text: text, follow: follow), and every effect it hands over has
    [life = maxLife = 1]. *)
Theorem dispatcher_one_effect_per_call (calls : list HandlerCall) :
  forall (h : Handler.t) (k : nat),
  let res := fst (runHandlerCalls random isMobileDevice h calls k) in
  map Effect.type (snd res) = map kindOf calls
  /\ Forall (fun e => Effect.life e = 1 /\ Effect.maxLife e = 1) (snd res).
Proof.
  induction calls as [|call calls IH]; intros h k; simpl; [split; constructor |].
  unfold bind.
  destruct (runHandlerCall_spec h call k) as (e & Es & Et & El & Em & _).
  destruct (runHandlerCall random isMobileDevice h call k) as [[h1 es1] k1].
  cbn [fst snd] in *. subst es1.
  destruct (IH h1 k1) as [Ht Hl].
  destruct (runHandlerCalls random isMobileDevice h1 calls k1) as [[h2 es2] k2].
  cbn [fst snd ret app map] in *. split.
  - now rewrite Et, Ht.
  - constructor; [split; assumption | exact Hl].
Qed.

Lemma no_move_keeps_position (calls : list HandlerCall) :
  forall (h : Handler.t) (k : nat),
  forallb (fun call => negb (isMove call)) calls = true ->
  Handler.mousePosition (fst (fst (runHandlerCalls random isMobileDevice h calls k)))
  = Handler.mousePosition h.
Proof.
  induction calls as [|call calls IH]; intros h k H; simpl; [reflexivity |].
  simpl in H. apply andb_true_iff in H as [Hc Hr]. unfold bind.
  destruct (runHandlerCall_spec h call k) as (e & _ & _ & _ & _ & _ & Ep).
  destruct (runHandlerCall random isMobileDevice h call k) as [[h1 es1] k1].
  cbn [fst snd] in *.
  specialize (IH h1 k1 Hr).
  destruct (runHandlerCalls random isMobileDevice h1 calls k1) as [[h2 es2] k2].
  cbn [fst snd ret] in *. rewrite IH, Ep.
  destruct call; try reflexivity. discriminate.
Qed.

(** X11.  The pointer position of the dispatcher is that of the last
    [handleMove]: clicks, text effects and follow effects do not change it,
    and a [createFollowEffect] after a sequence of calls whose last move was
    to [(x, y)] hands over a follow effect at [(x, y)] with
    [followerCount = 15].  With no move at all the position is the initial
    one. *)
Theorem pointer_is_last_move (pre post : list HandlerCall) (x y : R)
    (h : Handler.t) (k : nat) :
  forallb (fun call => negb (isMove call)) post = true ->
  let calls := pre ++ callMove x y :: post in
  getMousePosition (fst (fst (runHandlerCalls random isMobileDevice h calls k))) = (x, y)
  /\ (exists es,
        snd (fst (runHandlerCalls random isMobileDevice h (calls ++ [callFollow]) k))
        = es ++ [Effect.mk x y follow 1 1 0 None None (Some 15%Z)])
  /\ getMousePosition
       (fst (fst (runHandlerCalls random isMobileDevice InteractionHandler post k)))
     = (0, 0).
Proof.
  intros Hpost calls.
  assert (Hpos : forall k0, Handler.mousePosition
            (fst (fst (runHandlerCalls random isMobileDevice h calls k0))) = (x, y)).
  { intros k0. unfold calls.
    destruct (runHandlerCalls_app pre (callMove x y :: post) h k0) as [k' E].
    rewrite E. cbn [fst].
    set (h1 := fst (fst (runHandlerCalls random isMobileDevice h pre k0))).
    simpl runHandlerCalls. unfold bind. cbn [ret handleMove fst snd].
    pose proof (no_move_keeps_position post (Handler.mk (x, y)) k' Hpost) as Hn.
    destruct (runHandlerCalls random isMobileDevice (Handler.mk (x, y)) post k')
      as [[h2 es2] k2]. exact Hn. }
  split; [apply Hpos | split].
  - destruct (runHandlerCalls_app calls [callFollow] h k) as [k' E].
    rewrite E. cbn [snd]. eexists. f_equal.
    simpl runHandlerCalls. unfold bind, createFollowEffect. cbn [ret fst snd app].
    rewrite Hpos. reflexivity.
  - unfold getMousePosition. now rewrite no_move_keeps_position.
Qed.

(** Every effect the dispatcher hands over has [life = maxLife = 1]. *)
Lemma dispatched_lives (calls : list HandlerCall) :
  forall (h : Handler.t) (k : nat),
  Forall (fun e => Effect.life e = 1 /\ Effect.maxLife e = 1)
         (snd (fst (runHandlerCalls random isMobileDevice h calls k))).
Proof.
  induction calls as [|call calls IH]; intros h k; simpl; [constructor |].
  unfold bind.
  destruct (runHandlerCall_spec h call k) as (e & Es & _ & El & Em & _).
  destruct (runHandlerCall random isMobileDevice h call k) as [[h1 es1] k1].
  cbn [fst snd] in *. subst es1. specialize (IH h1 k1).
  destruct (runHandlerCalls random isMobileDevice h1 calls k1) as [[h2 es2] k2].
  cbn [fst snd ret app] in *. constructor; [split; assumption | exact IH].
Qed.

Lemma fold_addEffect_effects (es : list Effect.t) :
  forall r, Renderer.effects (fold_left addEffect es r) = Renderer.effects r ++ es.
Proof.
  induction es as [|e es IH]; intros r; simpl; [now rewrite app_nil_r |].
  rewrite IH. simpl. now rewrite <- app_assoc.
Qed.

(** X12.  Nothing the dispatcher makes outlives 101 animating ticks: the
    effects handed over by any sequence of dispatcher calls, added to a new
    renderer, are all gone after 101 animating [renderEffects] calls. *)
Theorem dispatched_effects_expire (calls : list HandlerCall) (h : Handler.t) (k k' : nat)
    (fontSize : R) (charset : CharsetKey) :
  let effects := snd (fst (runHandlerCalls random isMobileDevice h calls k)) in
  Renderer.effects
    (fst (animate random 101 (fold_left addEffect effects EffectRenderer)
                  fontSize charset k'))
  = [].
Proof.
  intros effects. apply (animate_spent 100).
  rewrite fold_addEffect_effects. cbn [EffectRenderer Renderer.effects app].
  pose proof (dispatched_lives calls h k) as H. fold effects in H.
  eapply Forall_impl; [| exact H]. intros e [-> ->].
  rewrite INR_IZR_INZ. simpl Z.of_nat. lra.
Qed.

(** ** Text effects *)

Lemma renderEffect_no_text (tp : string) (fs : R) (cs : CharsetKey) (e : Effect.t)
    (k : nat) :
  Effect.type e = text -> noText (Effect.text e) = true ->
  renderEffect random tp fs cs true e k = ((None, []), k).
Proof.
  intros Et Hn. unfold renderEffect. rewrite Et.
  change (Effect.text (setLife e (Effect.life e - 0.015))) with (Effect.text e).
  rewrite Hn, orb_true_r. reflexivity.
Qed.

(** X13.  A text effect without text does not survive an animating tick and
    leaves no trace of it: adding one (as [createTextEffect(x, y, '')] does)
    to any collection and running an animating [renderEffects] gives the same
    collection, the same canvas operations and the same use of the random
    stream as running it without the addition. *)
Theorem empty_text_effect_vanishes (r : Renderer.t) (e : Effect.t) (fontSize : R)
    (charset : CharsetKey) (k : nat) :
  Effect.type e = text -> noText (Effect.text e) = true ->
  renderEffects random (addEffect r e) fontSize charset true k
  = renderEffects random r fontSize charset true k.
Proof.
  intros Et Hn. unfold renderEffects, bind, addEffect.
  cbn [Renderer.effects Renderer.currentTheme].
  pose proof (effectsLoop_step (primary (THEMES (Renderer.currentTheme r))) fontSize charset
                true (Renderer.effects r) [] e k) as H.
  rewrite H, renderEffect_no_text by assumption. cbn [fst snd app].
  rewrite app_nil_r.
  destruct (effectsLoop random _ fontSize charset true _ (Renderer.effects r) k)
    as [[effs ops] k1]. reflexivity.
Qed.

(** ** Text alignment *)

Lemma textSettings_kept (ops : list CanvasOp) :
  Forall keepsTextSettings ops ->
  forall a b, textAlignAfter a ops = a /\ textBaselineAfter b ops = b.
Proof.
  intros H. induction H as [|op ops Hop _ IH]; intros a b; [split; reflexivity |].
  unfold textAlignAfter, textBaselineAfter in *. simpl.
  destruct op; try contradiction; apply IH.
Qed.

Lemma textAlignAfter_app (a : string) (l1 l2 : list CanvasOp) :
  textAlignAfter a (l1 ++ l2) = textAlignAfter (textAlignAfter a l1) l2.
Proof. apply fold_left_app. Qed.

Lemma textBaselineAfter_app (b : string) (l1 l2 : list CanvasOp) :
  textBaselineAfter b (l1 ++ l2) = textBaselineAfter (textBaselineAfter b l1) l2.
Proof. apply fold_left_app. Qed.

Lemma drawFollowers_keeps (tp : string) (cs : CharsetKey) (e : Effect.t) (alpha : R)
    (n : Z) (js : list nat) :
  forall k, Forall keepsTextSettings (fst (drawFollowers random tp cs e alpha n js k)).
Proof.
  induction js as [|j js IH]; intros k; simpl; [constructor |].
  destruct (num_le (alpha * (1 - INR j / IZR n)) 0); [apply IH |].
  unfold bind. destruct (getRandomChar random cs k) as [g k1].
  specialize (IH k1).
  destruct (drawFollowers random tp cs e alpha n js k1) as [rest k2].
  cbn [fst ret] in *. repeat constructor. exact IH.
Qed.

Lemma renderEffect_restores (tp : string) (fs : R) (cs : CharsetKey) (a : bool)
    (e : Effect.t) (k : nat) :
  textAlignAfter "left" (snd (fst (renderEffect random tp fs cs a e k))) = "left"
  /\ textBaselineAfter "top" (snd (fst (renderEffect random tp fs cs a e k))) = "top".
Proof.
  unfold renderEffect. destruct (Effect.type e).
  - destruct (a && num_le _ 0); split; reflexivity.
  - destruct (a && num_le _ 0); [split; reflexivity |].
    destruct (Effect.particles _) as [ps|]; [| split; reflexivity].
    cbn [fst snd ret]. apply textSettings_kept.
    apply Forall_concat, Forall_map, Forall_map, Forall_forall. intros p _.
    unfold renderParticle. cbn [snd].
    destruct (num_gt _ 0); repeat constructor.
  - destruct (a && _); split; reflexivity.
  - destruct (a && num_le _ 0); [split; reflexivity |].
    unfold bind.
    pose proof (drawFollowers_keeps tp cs
                  (if a then setLife e (Effect.life e - 0.01) else e)
                  (Effect.life e / Effect.maxLife e)
                  (followerCountOr10 (if a then setLife e (Effect.life e - 0.01) else e))
                  (seq 0 (Z.to_nat (followerCountOr10
                     (if a then setLife e (Effect.life e - 0.01) else e)))) k) as H.
    destruct (drawFollowers random tp cs _ _ _ _ k) as [ops k1].
    cbn [fst snd ret] in *. apply textSettings_kept, H.
Qed.

Lemma effectsLoop_restores (tp : string) (fs : R) (cs : CharsetKey) (a : bool)
    (l1 : list Effect.t) :
  forall (l2 : list Effect.t) (k : nat),
  textAlignAfter "left"
    (snd (fst (effectsLoop random tp fs cs a (List.length l1) (l1 ++ l2) k))) = "left"
  /\ textBaselineAfter "top"
       (snd (fst (effectsLoop random tp fs cs a (List.length l1) (l1 ++ l2) k))) = "top".
Proof.
  induction l1 as [|e l1 IH] using rev_ind; intros l2 k; [split; reflexivity |].
  rewrite <- app_assoc. simpl app. rewrite effectsLoop_step.
  destruct (renderEffect_restores tp fs cs a e k) as [Ha Hb].
  destruct (renderEffect random tp fs cs a e k) as [[kept ops] k1].
  cbn [fst snd] in *.
  specialize (IH (match kept with Some e1 => e1 :: l2 | None => l2 end) k1).
  destruct (effectsLoop random tp fs cs a (List.length l1) _ k1) as [[effs ops'] k2].
  cbn [fst snd] in *.
  rewrite textAlignAfter_app, textBaselineAfter_app, Ha, Hb. exact IH.
Qed.

Lemma drawTrail_keeps (c : Core.t) (d : Drop.t) (x : option R) (tr : list Glyph) :
  forall j, Forall keepsTextSettings (drawTrail c d x j tr).
Proof.
  induction tr as [|g tr IH]; intros j; simpl; [constructor |].
  apply Forall_app. split; [| apply IH].
  destruct (num_lt _ 0); repeat constructor.
Qed.

(** X14.  A frame does not leak text settings: [drawDrops] writes neither
    [textAlign] nor [textBaseline], and [renderEffects], which sets them to
    centre and middle for every text effect it draws, leaves them at [left]
    and [top] when it ends, if that is what they were when it started -
    whatever the effects, animating or paused. *)
Theorem frame_restores_text_settings (c : Core.t) (r : Renderer.t)
    (canvasHeight fontSize : R) (charset : CharsetKey) (isAnimating : bool) (k k' : nat) :
  let drops_ops := snd (fst (drawDrops random c canvasHeight isAnimating k)) in
  let effects_ops := snd (fst (renderEffects random r fontSize charset isAnimating k')) in
  Forall keepsTextSettings drops_ops
  /\ textAlignAfter "left" (drops_ops ++ effects_ops) = "left"
  /\ textBaselineAfter "top" (drops_ops ++ effects_ops) = "top".
Proof.
  intros drops_ops effects_ops.
  assert (Hd : Forall keepsTextSettings drops_ops).
  { unfold drops_ops. rewrite drawDrops_ops.
    apply Forall_concat, Forall_map, Forall_forall. intros d _.
    unfold drawDrop. apply Forall_app. split; [apply drawTrail_keeps |].
    repeat constructor. }
  split; [exact Hd |].
  destruct (textSettings_kept drops_ops Hd "left" "top") as [Ha Hb].
  rewrite textAlignAfter_app, textBaselineAfter_app, Ha, Hb.
  unfold effects_ops, renderEffects, bind.
  pose proof (effectsLoop_restores (primary (THEMES (Renderer.currentTheme r))) fontSize
                charset isAnimating (Renderer.effects r) [] k') as H.
  rewrite !app_nil_r in H.
  destruct (effectsLoop random _ fontSize charset isAnimating _ (Renderer.effects r) k')
    as [[effs ops] k1]. exact H.
Qed.

(** ** Colours *)

Lemma floor_scaled_byte (a : R) :
  0 <= a <= 1 -> (0 <= Math_floor (a * 255) <= 255)%Z.
Proof.
  intros Ha. pose proof (Math_floor_bound (a * 255)) as [Hlo Hhi]. split.
  - apply Zfloor_lub. simpl. lra.
  - apply le_IZR. lra.
Qed.

Lemma withAlpha_valid (hex : string) (a : R) : 0 <= a <= 1 -> styleValid (withAlpha hex a).
Proof. intros Ha. apply floor_scaled_byte, Ha. Qed.



Lemma getColorByIntensity_valid (intensity : R) (themeKey : ThemeKey) :
  0 <= intensity <= 1 -> styleValid (getColorByIntensity intensity themeKey).
Proof.
  intros Hi. unfold getColorByIntensity.
  destruct (num_gt intensity 0.8); [exact I |].
  destruct (num_gt intensity 0.5) eqn:E2;
    [apply num_gt_true in E2; apply withAlpha_valid; lra |].
  destruct (num_gt intensity 0.2); apply withAlpha_valid; lra.
Qed.

Lemma drawTrail_styles (c : Core.t) (d : Drop.t) (x : option R) (tr : list Glyph) :
  forall j, (j + List.length tr <= Drop.trailLength d)%nat ->
  Forall opStyleValid (drawTrail c d x j tr).
Proof.
  induction tr as [|g tr IH]; intros j Hj; simpl; [constructor |].
  simpl in Hj. apply Forall_app. split; [| apply IH; lia].
  destruct (num_lt _ 0); [constructor |].
  constructor; [| repeat constructor].
  apply getColorByIntensity_valid.
  assert (Hn : 0 < INR (Drop.trailLength d)) by (apply lt_0_INR; lia).
  assert (Hjn : INR j < INR (Drop.trailLength d)) by (apply lt_INR; lia).
  pose proof (pos_INR j) as H0.
  assert (0 <= INR j / INR (Drop.trailLength d) < 1).
  { split.
    - apply Rmult_le_pos; [exact H0 |]. left. now apply Rinv_0_lt_compat.
    - apply Rmult_lt_reg_r with (INR (Drop.trailLength d)); [exact Hn |].
      unfold Rdiv. rewrite Rmult_assoc, Rinv_l by lra. lra. }
  lra.
Qed.

(** X16.  Every colour [drawDrops] writes is well formed: for drops whose
    trail is not longer than their [trailLength] (as in every reachable
    state), each [fillStyle] is a theme colour alone or followed by an alpha
    byte in 0..255. *)
Theorem drawDrops_colours_valid (c : Core.t) (canvasHeight : R) (isAnimating : bool)
    (k : nat) :
  Forall (fun d => (List.length (Drop.trail d) <= Drop.trailLength d)%nat) (Core.drops c) ->
  Forall opStyleValid (snd (fst (drawDrops random c canvasHeight isAnimating k))).
Proof.
  intros H. rewrite drawDrops_ops.
  apply Forall_concat, Forall_map. eapply Forall_impl; [| exact H].
  intros d Hd. unfold drawDrop. apply Forall_app. split.
  - apply drawTrail_styles. simpl. exact Hd.
  - constructor; [| repeat constructor].
    apply getColorByIntensity_valid. lra.
Qed.

Lemma fade_unit (l m : R) : 0 < m -> l <= m -> 0 < l / m -> 0 <= l / m <= 1.
Proof.
  intros Hm Hl Hp. split; [lra |].
  apply Rmult_le_reg_r with m; [exact Hm |].
  unfold Rdiv. rewrite Rmult_assoc, Rinv_l by lra. lra.
Qed.

Lemma drawFollowers_styles (tp : string) (cs : CharsetKey) (e : Effect.t) (alpha : R)
    (n : Z) (js : list nat) :
  0 <= alpha <= 1 -> (0 < n)%Z ->
  forall k, Forall opStyleValid (fst (drawFollowers random tp cs e alpha n js k)).
Proof.
  intros Ha Hn. induction js as [|j js IH]; intros k; simpl; [constructor |].
  destruct (num_le (alpha * (1 - INR j / IZR n)) 0) eqn:E; [apply IH |].
  apply num_le_false in E. unfold bind.
  destruct (getRandomChar random cs k) as [g k1]. specialize (IH k1).
  destruct (drawFollowers random tp cs e alpha n js k1) as [rest k2].
  cbn [fst ret] in *. constructor; [| constructor; [exact I | exact IH]].
  apply withAlpha_valid. split; [lra |].
  assert (H0 : 0 <= INR j / IZR n).
  { apply Rmult_le_pos; [apply pos_INR |]. left. apply Rinv_0_lt_compat, IZR_lt, Hn. }
  nra.
Qed.

Lemma renderEffect_styles (tp : string) (fs : R) (cs : CharsetKey) (e : Effect.t)
    (k : nat) :
  fadeBounded e ->
  Forall opStyleValid (snd (fst (renderEffect random tp fs cs true e k))).
Proof.
  intros (Hm & Hl & Hps). unfold renderEffect. cbn [andb].
  destruct (num_le (Effect.life e / Effect.maxLife e) 0) eqn:Ea.
  { destruct (Effect.type e); cbn; constructor. }
  apply num_le_false in Ea.
  pose proof (fade_unit _ _ Hm Hl Ea) as Hu.
  destruct (Effect.type e).
  - cbn [fst snd ret]. constructor; [apply withAlpha_valid, Hu | repeat constructor].
  - change (Effect.particles (setLife e (Effect.life e - 0.03)))
      with (Effect.particles e).
    destruct (Effect.particles e) as [ps|]; [| constructor].
    cbn [fst snd ret]. apply Forall_concat, Forall_map, Forall_map.
    eapply Forall_impl; [| exact Hps]. intros p [Hpm Hpl].
    unfold renderParticle. cbn [snd Particle.life Particle.maxLife].
    destruct (num_gt ((Particle.life p - 0.03) / Particle.maxLife p) 0) eqn:Ep;
      [| constructor].
    apply num_gt_true in Ep.
    constructor; [| repeat constructor].
    apply withAlpha_valid, fade_unit; [exact Hpm | lra | exact Ep].
  - cbn [orb]. destruct (noText _); cbn [fst snd ret]; [constructor |].
    repeat (apply Forall_cons; [first [exact I | apply withAlpha_valid, Hu] |]).
    constructor.
  - unfold bind.
    set (n := followerCountOr10 (setLife e (Effect.life e - 0.01))).
    destruct (Z_lt_le_dec 0 n) as [Hn | Hn].
    + pose proof (drawFollowers_styles tp cs (setLife e (Effect.life e - 0.01))
                    (Effect.life e / Effect.maxLife e) n (seq 0 (Z.to_nat n)) Hu Hn k) as H.
      destruct (drawFollowers random tp cs _ _ n _ k) as [ops k1]. exact H.
    + replace (Z.to_nat n) with 0%nat by lia. constructor.
Qed.

Lemma effectsLoop_styles (tp : string) (fs : R) (cs : CharsetKey) (l1 : list Effect.t) :
  Forall fadeBounded l1 ->
  forall (l2 : list Effect.t) (k : nat),
  Forall opStyleValid
    (snd (fst (effectsLoop random tp fs cs true (List.length l1) (l1 ++ l2) k))).
Proof.
  induction l1 as [|e l1 IH] using rev_ind; intros H l2 k; [constructor |].
  apply Forall_app in H as [H1 He]. inversion He as [|? ? Hb _]; subst.
  rewrite <- app_assoc. simpl app. rewrite effectsLoop_step.
  pose proof (renderEffect_styles tp fs cs e k Hb) as Hs.
  destruct (renderEffect random tp fs cs true e k) as [[kept ops] k1].
  cbn [fst snd] in *.
  specialize (IH H1 (match kept with Some e1 => e1 :: l2 | None => l2 end) k1).
  destruct (effectsLoop random tp fs cs true (List.length l1) _ k1) as [[effs ops'] k2].
  cbn [fst snd] in *. apply Forall_app. split; assumption.
Qed.

Lemma aged_fadeBounded (e : Effect.t) : fadeBounded e -> fadeBounded (aged e).
Proof.
  intros (Hm & Hl & Hps). unfold fadeBounded, aged.
  cbn [Effect.maxLife Effect.life Effect.particles].
  pose proof (decrementOf_min (Effect.type e)).
  split; [exact Hm | split; [lra |]].
  destruct (Effect.type e); try exact Hps.
  destruct (Effect.particles e) as [ps|]; [| exact I]. cbn [option_map].
  apply Forall_map. eapply Forall_impl; [| exact Hps].
  intros p [Hpm Hpl]. cbn. split; [exact Hpm | lra].
Qed.

(** X17.  An animating tick never writes a malformed colour: if every
    effect, and every particle of a burst, has a life of at most its positive
    [maxLife], then each [strokeStyle] and [fillStyle] that an animating
    [renderEffects] writes is the theme's primary colour followed by an alpha
    byte in 0..255; and the effects it keeps satisfy the same condition, as do
    the effects the dispatcher makes. *)
Theorem renderEffects_colours_valid (r : Renderer.t) (fontSize : R) (charset : CharsetKey)
    (k : nat) :
  Forall fadeBounded (Renderer.effects r) ->
  Forall opStyleValid (snd (fst (renderEffects random r fontSize charset true k)))
  /\ Forall fadeBounded
       (Renderer.effects (fst (fst (renderEffects random r fontSize charset true k))))
  /\ (forall calls h k',
      Forall fadeBounded
        (snd (fst (runHandlerCalls random isMobileDevice h calls k')))).
Proof.
  intros H. split; [| split].
  - unfold renderEffects, bind.
    pose proof (effectsLoop_styles (primary (THEMES (Renderer.currentTheme r))) fontSize
                  charset (Renderer.effects r) H [] k) as Hs.
    rewrite !app_nil_r in Hs.
    destruct (effectsLoop random _ fontSize charset true _ (Renderer.effects r) k)
      as [[effs ops] k1]. exact Hs.
  - rewrite renderEffects_animating_state. cbn [Renderer.effects].
    apply Forall_map, Forall_forall. intros e He.
    apply filter_In in He as [He _]. apply aged_fadeBounded.
    revert e He. apply Forall_forall. exact H.
  - clear. intros calls. induction calls as [|call calls IH]; intros h k'; simpl;
      [constructor |].
    unfold bind.
    assert (Hc : Forall fadeBounded
                   (snd (fst (runHandlerCall random isMobileDevice h call k')))).
    { destruct call as [x y cs | x y | x y txt |]; cbn [runHandlerCall].
      - rewrite handleClick_eq. cbn [fst snd]. constructor; [| constructor].
        unfold fadeBounded. cbn. split; [lra | split; [lra |]].
        apply Forall_map, Forall_forall. intros i _. cbn. lra.
      - cbn. constructor; [| constructor]. unfold fadeBounded. cbn. lra.
      - cbn. constructor; [| constructor]. unfold fadeBounded. cbn. lra.
      - cbn. constructor; [| constructor]. unfold fadeBounded. cbn. lra. }
    destruct (runHandlerCall random isMobileDevice h call k') as [[h1 es1] k1].
    cbn [fst snd] in *. specialize (IH h1 k1).
    destruct (runHandlerCalls random isMobileDevice h1 calls k1) as [[h2 es2] k2].
    cbn [fst snd ret] in *. apply Forall_app. split; assumption.
Qed.

(** ** Partial updates *)

Lemma applySpeed_fields (config : Config.t) (c : Core.t) (k : nat) :
  let c' := fst (applySpeed random config c k) in
  Core.fontSize c' = Core.fontSize c /\ Core.density c' = Core.density c
  /\ Core.currentCharset c' = Core.currentCharset c
  /\ Core.currentTheme c' = Core.currentTheme c
  /\ Core.speed c' = match Config.speed config with Some v => v | None => Core.speed c end.
Proof.
  unfold applySpeed. destruct (Config.speed config) as [v|]; [| repeat split].
  unfold bind. destruct (mapM (respeedDrop random v) (Core.drops c) k). repeat split.
Qed.

Lemma applyCharset_fields (config : Config.t) (c : Core.t) (k : nat) :
  let c' := fst (applyCharset random config c k) in
  Core.fontSize c' = Core.fontSize c /\ Core.density c' = Core.density c
  /\ Core.speed c' = Core.speed c
  /\ Core.currentTheme c' = Core.currentTheme c
  /\ Core.currentCharset c'
     = match Config.currentCharset config with
       | Some v => v
       | None => Core.currentCharset c
       end.
Proof.
  unfold applyCharset. destruct (Config.currentCharset config) as [v|]; [| repeat split].
  unfold bind. destruct (mapM (recharDrop random v) (Core.drops c) k). repeat split.
Qed.

(** X18.  [updateConfig] is a partial update: each of the five settings
    takes the value given in the object, or keeps its value when the field is
    absent.  When neither [speed] nor [currentCharset] is given - a change of
    cell size, density or theme - the drops are left exactly as they were and
    no random number is read.  When [speed] alone is given, each drop keeps
    everything but its speed, which becomes the new setting over 100 times a
    factor in [[1.5, 3.5)]. *)
Theorem updateConfig_partial (c : Core.t) (config : Config.t) (k : nat) :
  let c' := fst (updateConfig random c config k) in
  let pick {A} (o : option A) (old : A) := match o with Some v => v | None => old end in
  Core.fontSize c' = pick (Config.fontSize config) (Core.fontSize c)
  /\ Core.density c' = pick (Config.density config) (Core.density c)
  /\ Core.speed c' = pick (Config.speed config) (Core.speed c)
  /\ Core.currentCharset c' = pick (Config.currentCharset config) (Core.currentCharset c)
  /\ Core.currentTheme c' = pick (Config.currentTheme config) (Core.currentTheme c)
  /\ (Config.speed config = None -> Config.currentCharset config = None ->
      Core.drops c' = Core.drops c /\ snd (updateConfig random c config k) = k)
  /\ (forall v, Config.speed config = Some v -> Config.currentCharset config = None ->
      Forall2 (fun d d' =>
                 exists f, 1.5 <= f < 3.5
                   /\ d' = Drop.mk (Drop.y d) (f * (v / 100)) (Drop.trail d)
                                   (Drop.trailLength d) (Drop.updateCounter d)
                                   (Drop.updateInterval d) (Drop.currentChar d)
                                   (Drop.xIndex d))
              (Core.drops c) (Core.drops c')).
Proof.
  intros c' pick. unfold c', pick, updateConfig, bind.
  set (c2 := applyDensity config (applyFontSize config c)).
  assert (H2 : Core.fontSize c2 = match Config.fontSize config with
                                   | Some v => v | None => Core.fontSize c end
               /\ Core.density c2 = match Config.density config with
                                    | Some v => v | None => Core.density c end
               /\ Core.speed c2 = Core.speed c
               /\ Core.currentCharset c2 = Core.currentCharset c
               /\ Core.currentTheme c2 = Core.currentTheme c
               /\ Core.drops c2 = Core.drops c).
  { unfold c2, applyDensity, applyFontSize.
    destruct (Config.density config), (Config.fontSize config); repeat split. }
  destruct H2 as (Ef & Ed & Es & Ec & Et & Edr).
  destruct (applySpeed_fields config c2 k) as (Ef3 & Ed3 & Ec3 & Et3 & Es3).
  assert (Hdr3 : (Config.speed config = None ->
                  applySpeed random config c2 k = (c2, k))
                 /\ (forall v, Config.speed config = Some v ->
                     Forall2 (fun d d' => exists k', d' = fst (respeedDrop random v d k'))
                             (Core.drops c2)
                             (Core.drops (fst (applySpeed random config c2 k))))).
  { unfold applySpeed. split.
    - intros ->. reflexivity.
    - intros v ->. unfold bind.
      pose proof (mapM_Forall2 (respeedDrop random v) (Core.drops c2) k) as F.
      destruct (mapM (respeedDrop random v) (Core.drops c2) k). exact F. }
  destruct Hdr3 as [Hn3 Hs3].
  destruct (applySpeed random config c2 k) as [c3 k3]. cbn [fst snd] in *.
  destruct (applyCharset_fields config c3 k3) as (Ef4 & Ed4 & Es4 & Et4 & Ec4).
  assert (Hn4 : Config.currentCharset config = None ->
                applyCharset random config c3 k3 = (c3, k3))
    by (unfold applyCharset; intros ->; reflexivity).
  destruct (applyCharset random config c3 k3) as [c4 k4]. cbn [fst snd ret] in *.
  assert (Ht5 : forall c0, Core.drops (applyTheme config c0) = Core.drops c0
                           /\ Core.fontSize (applyTheme config c0) = Core.fontSize c0
                           /\ Core.density (applyTheme config c0) = Core.density c0
                           /\ Core.speed (applyTheme config c0) = Core.speed c0
                           /\ Core.currentCharset (applyTheme config c0)
                              = Core.currentCharset c0
                           /\ Core.currentTheme (applyTheme config c0)
                              = match Config.currentTheme config with
                                | Some v => v | None => Core.currentTheme c0 end).
  { intros c0. unfold applyTheme. destruct (Config.currentTheme config); repeat split. }
  destruct (Ht5 c4) as (Edr5 & Ef5 & Ed5 & Es5 & Ec5 & Et5).
  split; [congruence |]. split; [congruence |].
  split; [rewrite Es5, Es4, Es3, Es; reflexivity |].
  split; [rewrite Ec5, Ec4, Ec3, Ec; reflexivity |].
  split; [rewrite Et5, Et4, Et3, Et; reflexivity |].
  split.
  - intros Hs Hc. specialize (Hn3 Hs). specialize (Hn4 Hc).
    injection Hn3 as -> ->. injection Hn4 as -> ->.
    split; [rewrite Edr5; exact Edr | reflexivity].
  - intros v Hs Hc. specialize (Hn4 Hc). injection Hn4 as -> _.
    rewrite Edr5. rewrite <- Edr.
    eapply Forall2_impl; [| exact (Hs3 v Hs)].
    intros d d' [k' ->]. exists (random k' * 2 + 1.5).
    split; [apply speed_factor_range, random_range | reflexivity].
Qed.

(** ** What is drawn for a drop *)




(** A trail entry that is not clipped is drawn, in the colour of its
    place in the trail. *)
Lemma drawTrail_entry (c : Core.t) (d : Drop.t) (x : option R) (tr : list Glyph) :
  forall (j i : nat) (g : Glyph),
  nth_error tr i = Some g ->
  0 <= Drop.y d - (INR (j + i) + 1) * Core.fontSize c + Core.fontSize c ->
  In (setFillStyle (getColorByIntensity (1 - INR (j + i) / INR (Drop.trailLength d))
                                        (Core.currentTheme c)))
     (drawTrail c d x j tr).
Proof.
  induction tr as [|g0 tr IH]; intros j i g Hi Hy; [destruct i; discriminate |].
  cbn [drawTrail]. apply in_or_app. destruct i as [|i].
  - left. rewrite Nat.add_0_r in *.
    replace (num_lt (Drop.y d - (INR j + 1) * Core.fontSize c + Core.fontSize c) 0)
      with false by (symmetry; apply num_lt_false; exact Hy).
    left. reflexivity.
  - right. replace (j + S i)%nat with (S j + i)%nat in * by lia.
    apply (IH (S j) i g); [exact Hi | exact Hy].
Qed.


(** ** Themes *)

Lemma drawFollowers_colour (tp : string) (cs : CharsetKey) (e : Effect.t) (alpha : R)
    (n : Z) (js : list nat) :
  forall k, Forall (opColourIn [tp]) (fst (drawFollowers random tp cs e alpha n js k)).
Proof.
  induction js as [|j js IH]; intros k; simpl; [constructor |].
  destruct (num_le (alpha * (1 - INR j / IZR n)) 0); [apply IH |].
  unfold bind. destruct (getRandomChar random cs k) as [g k1]. specialize (IH k1).
  destruct (drawFollowers random tp cs e alpha n js k1) as [rest k2].
  cbn [fst ret] in *. constructor; [left; reflexivity |].
  constructor; [exact I | exact IH].
Qed.

Lemma renderEffect_colour (tp : string) (fs : R) (cs : CharsetKey) (a : bool)
    (e : Effect.t) (k : nat) :
  Forall (opColourIn [tp]) (snd (fst (renderEffect random tp fs cs a e k))).
Proof.
  unfold renderEffect. destruct (Effect.type e).
  - destruct (a && num_le _ 0); cbn [fst snd ret]; [constructor |].
    constructor; [left; reflexivity | repeat constructor].
  - destruct (a && num_le _ 0); [constructor |].
    destruct (Effect.particles _) as [ps|]; [| constructor].
    cbn [fst snd ret]. apply Forall_concat, Forall_map, Forall_map, Forall_forall.
    intros p _. unfold renderParticle. cbn [snd].
    destruct (num_gt _ 0); [| constructor].
    constructor; [left; reflexivity | repeat constructor].
  - destruct (a && _); cbn [fst snd ret]; [constructor |].
    repeat (apply Forall_cons; [first [exact I | left; reflexivity] |]). constructor.
  - destruct (a && num_le _ 0); [constructor |].
    unfold bind.
    pose proof (drawFollowers_colour tp cs
                  (if a then setLife e (Effect.life e - 0.01) else e)
                  (Effect.life e / Effect.maxLife e)
                  (followerCountOr10 (if a then setLife e (Effect.life e - 0.01) else e))
                  (seq 0 (Z.to_nat (followerCountOr10
                     (if a then setLife e (Effect.life e - 0.01) else e)))) k) as H.
    destruct (drawFollowers random tp cs _ _ _ _ k) as [ops k1]. exact H.
Qed.

Lemma effectsLoop_colour (tp : string) (fs : R) (cs : CharsetKey) (a : bool)
    (l1 : list Effect.t) :
  forall (l2 : list Effect.t) (k : nat),
  Forall (opColourIn [tp])
    (snd (fst (effectsLoop random tp fs cs a (List.length l1) (l1 ++ l2) k))).
Proof.
  induction l1 as [|e l1 IH] using rev_ind; intros l2 k; [constructor |].
  rewrite <- app_assoc. simpl app. rewrite effectsLoop_step.
  pose proof (renderEffect_colour tp fs cs a e k) as Hs.
  destruct (renderEffect random tp fs cs a e k) as [[kept ops] k1].
  cbn [fst snd] in *.
  specialize (IH (match kept with Some e1 => e1 :: l2 | None => l2 end) k1).
  destruct (effectsLoop random tp fs cs a (List.length l1) _ k1) as [[effs ops'] k2].
  cbn [fst snd] in *. apply Forall_app. split; assumption.
Qed.

Lemma getColorByIntensity_hex (intensity : R) (themeKey : ThemeKey) :
  In (styleHex (getColorByIntensity intensity themeKey))
     [primary (THEMES themeKey); secondary (THEMES themeKey); tertiary (THEMES themeKey)].
Proof.
  unfold getColorByIntensity.
  destruct (num_gt intensity 0.8); [left; reflexivity |].
  destruct (num_gt intensity 0.5); [right; left; reflexivity |].
  destruct (num_gt intensity 0.2); [right; left; reflexivity |].
  right; right; left; reflexivity.
Qed.

Lemma drawTrail_colour (c : Core.t) (d : Drop.t) (x : option R) (tr : list Glyph) :
  forall j,
  Forall (opColourIn [primary (THEMES (Core.currentTheme c));
                      secondary (THEMES (Core.currentTheme c));
                      tertiary (THEMES (Core.currentTheme c))])
         (drawTrail c d x j tr).
Proof.
  induction tr as [|g tr IH]; intros j; simpl; [constructor |].
  apply Forall_app. split; [| apply IH].
  destruct (num_lt _ 0); [constructor |].
  constructor; [apply getColorByIntensity_hex | repeat constructor].
Qed.

(** X20.  A change of theme reaches every colour at once and nothing else.
    After [updateTheme(t)] the renderer holds the same effects, and every
    [strokeStyle] and [fillStyle] that [renderEffects] writes, animating or
    paused, is the primary colour of [t] (with an alpha part).  After
    [updateConfig] with [currentTheme: t] every [fillStyle] that [drawDrops]
    writes is the primary, secondary or tertiary colour of [t]. *)
Theorem theme_change_reaches_every_colour (r : Renderer.t) (c : Core.t)
    (config : Config.t) (t : ThemeKey)
    (canvasHeight fontSize : R) (charset : CharsetKey) (isAnimating : bool) (k k' : nat) :
  Config.currentTheme config = Some t ->
  Renderer.effects (updateTheme r t) = Renderer.effects r
  /\ Forall (opColourIn [primary (THEMES t)])
            (snd (fst (renderEffects random (updateTheme r t) fontSize charset
                                     isAnimating k)))
  /\ Forall (opColourIn [primary (THEMES t); secondary (THEMES t); tertiary (THEMES t)])
            (snd (fst (drawDrops random (fst (updateConfig random c config k'))
                                 canvasHeight isAnimating k))).
Proof.
  intros Ht. split; [reflexivity | split].
  - unfold renderEffects, bind. cbn [updateTheme Renderer.effects Renderer.currentTheme].
    pose proof (effectsLoop_colour (primary (THEMES t)) fontSize charset isAnimating
                  (Renderer.effects r) [] k) as H.
    rewrite !app_nil_r in H.
    destruct (effectsLoop random _ fontSize charset isAnimating _ (Renderer.effects r) k)
      as [[effs ops] k1]. exact H.
  - assert (Et : Core.currentTheme (fst (updateConfig random c config k')) = t).
    { unfold updateConfig, bind.
      destruct (applySpeed random config _ k') as [c3 k3].
      destruct (applyCharset random config c3 k3) as [c4 k4].
      cbn [fst ret]. unfold applyTheme. rewrite Ht. reflexivity. }
    rewrite drawDrops_ops. set (c1 := fst (updateConfig random c config k')) in *.
    apply Forall_concat, Forall_map, Forall_forall. intros d _.
    unfold drawDrop. rewrite <- Et. apply Forall_app. split; [apply drawTrail_colour |].
    constructor; [apply getColorByIntensity_hex | repeat constructor].
Qed.

(** ** The advance of a drop *)

Lemma moveDrop_stays (c : Core.t) (h : R) (d : Drop.t) (k : nat) :
  Drop.y d + Drop.speed d <= h ->
  moveDrop random c h d k
  = (Drop.mk (Drop.y d + Drop.speed d) (Drop.speed d) (Drop.trail d) (Drop.trailLength d)
             (Drop.updateCounter d) (Drop.updateInterval d) (Drop.currentChar d)
             (Drop.xIndex d), k).
Proof.
  intros H. unfold moveDrop. apply num_gt_false in H. rewrite H. reflexivity.
Qed.

(** X21.  In an animating [drawDrops] tick a drop that stays on the surface
    (its position plus its speed does not exceed the surface height) moves
    down by exactly its speed and keeps its speed, interval, trail bound and
    column.  Its counter goes up by one, with trail and character untouched,
    while that stays below the interval; otherwise the counter returns to 0
    and the character that was current is pushed on the trail. *)
Theorem drawDrops_advance (c : Core.t) (canvasHeight : R) (k i : nat) (d : Drop.t) :
  nth_error (Core.drops c) i = Some d ->
  Drop.y d + Drop.speed d <= canvasHeight ->
  exists d',
    nth_error (Core.drops (fst (fst (drawDrops random c canvasHeight true k)))) i = Some d'
    /\ Drop.y d' = Drop.y d + Drop.speed d
    /\ Drop.speed d' = Drop.speed d
    /\ Drop.updateInterval d' = Drop.updateInterval d
    /\ Drop.trailLength d' = Drop.trailLength d
    /\ Drop.xIndex d' = Drop.xIndex d
    /\ ((Drop.updateCounter d + 1 < Drop.updateInterval d)%Z ->
        Drop.updateCounter d' = (Drop.updateCounter d + 1)%Z
        /\ Drop.trail d' = Drop.trail d
        /\ Drop.currentChar d' = Drop.currentChar d)
    /\ ((Drop.updateInterval d <= Drop.updateCounter d + 1)%Z ->
        Drop.updateCounter d' = 0%Z
        /\ Drop.trail d'
           = unshiftPop (Drop.currentChar d) (Drop.trailLength d) (Drop.trail d)).
Proof.
  intros Hnth Hy.
  destruct (drawDrops_nth_error random c canvasHeight true k i d Hnth) as [k0 E].
  eexists. split; [exact E |].
  unfold drawOneDrop, bind.
  assert (Hr : forall d1 k1, refreshChar random c d k0 = (d1, k1) ->
            Drop.y d1 = Drop.y d /\ Drop.speed d1 = Drop.speed d
            /\ Drop.updateInterval d1 = Drop.updateInterval d
            /\ Drop.trailLength d1 = Drop.trailLength d
            /\ Drop.xIndex d1 = Drop.xIndex d
            /\ ((Drop.updateCounter d + 1 < Drop.updateInterval d)%Z ->
                Drop.updateCounter d1 = (Drop.updateCounter d + 1)%Z
                /\ Drop.trail d1 = Drop.trail d
                /\ Drop.currentChar d1 = Drop.currentChar d)
            /\ ((Drop.updateInterval d <= Drop.updateCounter d + 1)%Z ->
                Drop.updateCounter d1 = 0%Z
                /\ Drop.trail d1
                   = unshiftPop (Drop.currentChar d) (Drop.trailLength d) (Drop.trail d))).
  { intros d1 k1. unfold refreshChar.
    destruct (Drop.updateInterval d <=? Drop.updateCounter d + 1)%Z eqn:Eb.
    - apply Z.leb_le in Eb. unfold bind. rewrite getRandomChar_eq. cbn [ret].
      intros Eq. injection Eq as <- _. cbn.
      repeat split; try reflexivity; lia.
    - apply Z.leb_gt in Eb. cbn [ret]. intros Eq. injection Eq as <- _. cbn.
      repeat split; try reflexivity; lia. }
  destruct (refreshChar random c d k0) as [d1 k1].
  destruct (Hr d1 k1 eq_refl) as (Ey & Es & Ei & El & Ex & Hc1 & Hc2).
  rewrite moveDrop_stays by (rewrite Ey, Es; exact Hy). cbn [fst ret].
  cbn [Drop.y Drop.speed Drop.updateInterval Drop.trailLength Drop.xIndex
       Drop.updateCounter Drop.trail Drop.currentChar].
  rewrite Ey, Es.
  split; [reflexivity | split; [reflexivity | split; [exact Ei | split; [exact El |]]]].
  split; [exact Ex | split; [exact Hc1 | exact Hc2]].
Qed.

End MoreProperties.

(** ** Witnesses of the further properties *)

Lemma reachable_glyphs_in_charset_witness :
  (forall k, 0 <= random0 k < 1)
  /\ let c := fst (runCalls random0 MatrixRainCore sampleCalls 0%nat) in
     Forall (fun d => inCharset (Core.currentCharset c) (Drop.currentChar d)
                      /\ Forall (inCharset (Core.currentCharset c)) (Drop.trail d))
            (Core.drops c).
Proof.
  split; [exact random0_range |].
  exact (proj1 (reachable_glyphs_in_charset random0 random0_range sampleCalls 0%nat
                  600 true 0%nat)).
Defined.

Lemma reachable_update_schedule_witness :
  (forall k, 0 <= random0 k < 1)
  /\ Forall (fun d => (3 <= Drop.updateInterval d <= 6)%Z
                      /\ (0 <= Drop.updateCounter d <= Drop.updateInterval d)%Z)
            (Core.drops (fst (runCalls random0 MatrixRainCore sampleCalls 0%nat))).
Proof.
  split; [exact random0_range |].
  exact (reachable_update_schedule random0 random0_range sampleCalls 0%nat).
Defined.

Lemma reachable_speed_follows_setting_witness :
  (forall k, 0 <= random0 k < 1)
  /\ let c := fst (runCalls random0 MatrixRainCore [callInitDrops 1000] 0%nat) in
     0 < Core.speed c /\ Forall (fun d => 0 < Drop.speed d) (Core.drops c).
Proof.
  split; [exact random0_range |]. intros c.
  assert (Hs : 0 < Core.speed c).
  { unfold c. simpl runCalls. unfold bind, initDrops, bind.
    destruct (selectIndices random0 _ _ 0%nat) as [sel k1].
    destruct (mapM (newDrop random0 MatrixRainCore 1000) sel k1) as [ds k2].
    destruct (mapM (prefillTrail random0 MatrixRainCore) ds k2) as [ds' k3].
    simpl. lra. }
  split; [exact Hs |].
  exact (proj2 (reachable_speed_follows_setting random0 random0_range
                  [callInitDrops 1000] 0%nat) Hs).
Defined.

Lemma initDrops_fresh_drops_witness :
  (forall k, 0 <= random0 k < 1)
  /\ 0 < 1000
  /\ Forall (fun d => 0 <= Drop.y d < 1000
                      /\ Drop.updateCounter d = 0%Z
                      /\ Drop.trailLength d = 8%nat
                      /\ List.length (Drop.trail d) = 8%nat
                      /\ Forall (inCharset (Core.currentCharset MatrixRainCore)) (Drop.trail d)
                      /\ inCharset (Core.currentCharset MatrixRainCore) (Drop.currentChar d))
            (Core.drops (fst (initDrops random0 MatrixRainCore 1000 0%nat))).
Proof.
  assert (H : 0 < 1000) by lra.
  split; [exact random0_range | split; [exact H |]].
  exact (initDrops_fresh_drops random0 random0_range MatrixRainCore 1000 0%nat H).
Defined.

Lemma columns_change_only_by_initDrops_witness :
  forallb (fun call => negb (isInit call))
          [callDrawDrops 50 true; callUpdateConfig configBin; callDrawDrops 50 false] = true
  /\ map Drop.xIndex
         (Core.drops (fst (runCalls random0 coreWithLeavingDrop
                             [callDrawDrops 50 true; callUpdateConfig configBin;
                              callDrawDrops 50 false] 0%nat)))
     = [Some 0%Z].
Proof.
  split; [reflexivity |].
  exact (columns_change_only_by_initDrops random0
           [callDrawDrops 50 true; callUpdateConfig configBin; callDrawDrops 50 false]
           coreWithLeavingDrop 0%nat eq_refl).
Defined.

Lemma drawDrops_keeps_drops_on_surface_witness :
  0 <= Core.fontSize coreWithLeavingDrop
  /\ 0 <= 50
  /\ Forall (fun d => Drop.y d <= 50)
            (Core.drops (fst (fst (drawDrops random0 coreWithLeavingDrop 50 true 0%nat)))).
Proof.
  assert (H1 : 0 <= Core.fontSize coreWithLeavingDrop) by (simpl; lra).
  assert (H2 : 0 <= 50) by lra.
  split; [exact H1 | split; [exact H2 |]].
  exact (drawDrops_keeps_drops_on_surface random0 coreWithLeavingDrop 50 0%nat H1 H2).
Defined.


Lemma effects_expire_witness :
  Forall (fun e => 0 < Effect.maxLife e /\ Effect.life e <= 0.01 * INR 10
                   /\ Effect.life e <= 1)
         (Renderer.effects (addEffect EffectRenderer fadingFollower))
  /\ Renderer.effects
       (fst (animate random0 12 (addEffect EffectRenderer fadingFollower) 24 en 0%nat))
     = [].
Proof.
  assert (H : Forall (fun e => 0 < Effect.maxLife e /\ Effect.life e <= 0.01 * INR 10
                               /\ Effect.life e <= 1)
                     (Renderer.effects (addEffect EffectRenderer fadingFollower))).
  { constructor; [| constructor]. simpl. lra. }
  split; [exact H |].
  exact (effects_expire random0 10 (addEffect EffectRenderer fadingFollower) 24 en 0%nat H).
Defined.

Lemma burst_particles_ballistic_witness :
  Effect.type sampleBurst = explosion
  /\ 0 < Effect.maxLife sampleBurst
  /\ 0.03 * INR 3 <= Effect.life sampleBurst
  /\ exists e',
       Renderer.effects (fst (animate random0 3 (Renderer.mk [sampleBurst] green) 24 en 0%nat))
       = [e']
       /\ Effect.particles e'
          = Some (map (flown 3) [Particle.mk 100 200 3 0 1 1 (Some "0")]).
Proof.
  assert (H1 : 0 < Effect.maxLife sampleBurst) by (simpl; lra).
  assert (H2 : 0.03 * INR 3 <= Effect.life sampleBurst) by (simpl; lra).
  destruct (burst_particles_ballistic random0 3 sampleBurst _ green 24 en 0%nat
              eq_refl eq_refl H1 H2) as (e' & E & _ & Ep & _).
  split; [reflexivity | split; [exact H1 | split; [exact H2 |]]].
  exists e'. split; [exact E | exact Ep].
Defined.

Lemma pointer_is_last_move_witness :
  forallb (fun call => negb (isMove call)) [callClick 1 2 en; callFollow] = true
  /\ getMousePosition
       (fst (fst (runHandlerCalls random0 false InteractionHandler
                    ([callText 9 9 "MATRIX"] ++ callMove 5 5 :: [callClick 1 2 en; callFollow])
                    0%nat)))
     = (5, 5).
Proof.
  split; [reflexivity |].
  exact (proj1 (pointer_is_last_move random0 false [callText 9 9 "MATRIX"]
                  [callClick 1 2 en; callFollow] 5 5 InteractionHandler 0%nat eq_refl)).
Defined.

Lemma empty_text_effect_vanishes_witness :
  Effect.type emptyText = text
  /\ noText (Effect.text emptyText) = true
  /\ renderEffects random0 (addEffect (addEffect EffectRenderer dyingRipple) emptyText)
                   24 en true 0%nat
     = renderEffects random0 (addEffect EffectRenderer dyingRipple) 24 en true 0%nat.
Proof.
  split; [reflexivity | split; [reflexivity |]].
  exact (empty_text_effect_vanishes random0 (addEffect EffectRenderer dyingRipple)
           emptyText 24 en 0%nat eq_refl eq_refl).
Defined.


(** The colours of the third and of the last entry of a trail of 8. *)
Lemma getColorByIntensity_third :
  getColorByIntensity (1 - INR 2 / INR 8) green = Blend "#00cc00" 242.
Proof.
  unfold getColorByIntensity. cbn [INR].
  replace (num_gt (1 - (1 + 1) / (1 + 1 + 1 + 1 + 1 + 1 + 1 + 1)) 0.8) with false
    by (symmetry; apply num_gt_false; lra).
  replace (num_gt (1 - (1 + 1) / (1 + 1 + 1 + 1 + 1 + 1 + 1 + 1)) 0.5) with true
    by (symmetry; apply num_gt_true; lra).
  unfold withAlpha. rewrite (Math_floor_eq 242); [reflexivity | lra].
Qed.

Lemma getColorByIntensity_last :
  getColorByIntensity (1 - INR 7 / INR 8) green = Blend "#008800" 15.
Proof.
  unfold getColorByIntensity. cbn [INR].
  set (i := 1 - (1 + 1 + 1 + 1 + 1 + 1 + 1) / (1 + 1 + 1 + 1 + 1 + 1 + 1 + 1)).
  assert (Hi : i = 1 / 8) by (unfold i; lra).
  replace (num_gt i 0.8) with false by (symmetry; apply num_gt_false; lra).
  replace (num_gt i 0.5) with false by (symmetry; apply num_gt_false; lra).
  replace (num_gt i 0.2) with false by (symmetry; apply num_gt_false; lra).
  unfold withAlpha. rewrite (Math_floor_eq 15); [reflexivity | lra].
Qed.

Lemma drawDrops_colours_valid_witness :
  Forall (fun d => (List.length (Drop.trail d) <= Drop.trailLength d)%nat)
         (Core.drops coreWithFullTrail)
  /\ Forall opStyleValid (snd (fst (drawDrops random0 coreWithFullTrail 600 true 0%nat)))
  /\ In (setFillStyle (Blend "#00cc00" 242))
        (snd (fst (drawDrops random0 coreWithFullTrail 600 true 0%nat)))
  /\ In (setFillStyle (Blend "#008800" 15))
        (snd (fst (drawDrops random0 coreWithFullTrail 600 true 0%nat))).
Proof.
  assert (H : Forall (fun d => (List.length (Drop.trail d) <= Drop.trailLength d)%nat)
                     (Core.drops coreWithFullTrail)).
  { constructor; [| constructor]. simpl. lia. }
  split; [exact H |].
  split; [exact (drawDrops_colours_valid random0 coreWithFullTrail 600 true 0%nat H) |].
  rewrite drawDrops_ops.
  cbn [coreWithFullTrail Core.drops map concat]. rewrite app_nil_r. unfold drawDrop.
  split; apply in_or_app; left.
  - rewrite <- getColorByIntensity_third.
    apply (drawTrail_entry coreWithFullTrail fullTrailDrop _ (repeat (Some "B") 8)
             0 2 (Some "B") eq_refl).
    cbn [fullTrailDrop coreWithFullTrail Drop.y Core.fontSize INR Nat.add]. lra.
  - rewrite <- getColorByIntensity_last.
    apply (drawTrail_entry coreWithFullTrail fullTrailDrop _ (repeat (Some "B") 8)
             0 7 (Some "B") eq_refl).
    cbn [fullTrailDrop coreWithFullTrail Drop.y Core.fontSize INR Nat.add]. lra.
Defined.

Lemma renderEffects_colours_valid_witness :
  Forall fadeBounded (Renderer.effects (addEffect EffectRenderer dyingRipple))
  /\ Forall opStyleValid
       (snd (fst (renderEffects random0 (addEffect EffectRenderer dyingRipple) 24 en true
                                0%nat))).
Proof.
  assert (H : Forall fadeBounded (Renderer.effects (addEffect EffectRenderer dyingRipple))).
  { constructor; [| constructor]. unfold fadeBounded. simpl. lra. }
  split; [exact H |].
  exact (proj1 (renderEffects_colours_valid random0 false
                  (addEffect EffectRenderer dyingRipple) 24 en 0%nat H)).
Defined.

Lemma updateConfig_partial_witness :
  (forall k, 0 <= random0 k < 1)
  /\ Config.speed configBlue = None
  /\ Config.currentCharset configBlue = None
  /\ Core.currentTheme (fst (updateConfig random0 coreWithLeavingDrop configBlue 0%nat)) = blue
  /\ Core.drops (fst (updateConfig random0 coreWithLeavingDrop configBlue 0%nat))
     = [leavingDrop]
  /\ Config.speed configFast = Some 200
  /\ Config.currentCharset configFast = None
  /\ Forall2 (fun d d' =>
                exists f, 1.5 <= f < 3.5
                  /\ d' = Drop.mk (Drop.y d) (f * (200 / 100)) (Drop.trail d)
                                  (Drop.trailLength d) (Drop.updateCounter d)
                                  (Drop.updateInterval d) (Drop.currentChar d)
                                  (Drop.xIndex d))
             [leavingDrop]
             (Core.drops (fst (updateConfig random0 coreWithLeavingDrop configFast 0%nat))).
Proof.
  pose proof (updateConfig_partial random0 random0_range coreWithLeavingDrop configBlue
                0%nat) as H.
  cbv zeta in H. destruct H as (_ & _ & _ & _ & Ht & Hd & _).
  pose proof (updateConfig_partial random0 random0_range coreWithLeavingDrop configFast
                0%nat) as H'.
  cbv zeta in H'. destruct H' as (_ & _ & _ & _ & _ & _ & Hs).
  split; [exact random0_range | split; [reflexivity | split; [reflexivity |]]].
  split; [exact Ht | split; [exact (proj1 (Hd eq_refl eq_refl)) |]].
  split; [reflexivity | split; [reflexivity |]].
  exact (Hs 200 eq_refl eq_refl).
Defined.


Lemma theme_change_reaches_every_colour_witness :
  Config.currentTheme configBlue = Some blue
  /\ Forall (opColourIn ["#00ffff"])
            (snd (fst (renderEffects random0
                         (updateTheme (addEffect EffectRenderer dyingRipple) blue)
                         24 en true 0%nat)))
  /\ Forall (opColourIn ["#00ffff"; "#0088ff"; "#0044ff"])
            (snd (fst (drawDrops random0
                         (fst (updateConfig random0 coreWithLeavingDrop configBlue 0%nat))
                         50 true 0%nat))).
Proof.
  split; [reflexivity |].
  exact (proj2 (theme_change_reaches_every_colour random0
                  (addEffect EffectRenderer dyingRipple) coreWithLeavingDrop configBlue blue
                  50 24 en true 0%nat 0%nat eq_refl)).
Defined.

Lemma drawDrops_advance_witness :
  nth_error (Core.drops (Core.mk [dueDrop] 24 100 100 en green)) 0 = Some dueDrop
  /\ Drop.y dueDrop + Drop.speed dueDrop <= 600
  /\ (Drop.updateInterval dueDrop <= Drop.updateCounter dueDrop + 1)%Z
  /\ exists d',
       nth_error (Core.drops (fst (fst (drawDrops random0
                    (Core.mk [dueDrop] 24 100 100 en green) 600 true 0%nat)))) 0 = Some d'
       /\ Drop.y d' = Drop.y dueDrop + Drop.speed dueDrop
       /\ Drop.updateCounter d' = 0%Z.
Proof.
  assert (H1 : Drop.y dueDrop + Drop.speed dueDrop <= 600) by (simpl; lra).
  assert (H2 : (Drop.updateInterval dueDrop <= Drop.updateCounter dueDrop + 1)%Z)
    by (simpl; lia).
  destruct (drawDrops_advance random0 (Core.mk [dueDrop] 24 100 100 en green) 600 0%nat
              0%nat dueDrop eq_refl H1) as (d' & E & Ey & _ & _ & _ & _ & _ & Hc).
  split; [reflexivity | split; [exact H1 | split; [exact H2 |]]].
  exists d'. split; [exact E | split; [exact Ey | exact (proj1 (Hc H2))]].
Defined.
